(** * Katana headless crawl engine: normalizer pipeline and crawl loop

    A shallow embedding of
      - pkg/engine/headless/crawler/normalizer: normalizer.go and the text
        normalizer that text_utils_test.go tests;
      - pkg/engine/headless/crawler: crawler.go and the form filling code
        of the same package;
      - pkg/engine/headless: headless.go, the engine around the crawler;
      - pkg/engine/hybrid: the request loop of hybrid.go.
    Go strings are byte sequences; they are modelled as lists of 8-bit
    characters.  Browser, pool and diagnostics calls are answered by an
    explicit environment, one record per turn of the crawl loop. *)

From Stdlib Require Import ZArith Ascii String List Bool Lia.
From stdpp Require Import base option list gmap strings.

Local Open Scope bool_scope.

(** ** Bytes *)

Module Bytes.

Abbreviation bytes := (list ascii).

Definition B (s : string) : bytes := list_ascii_of_string s.

Definition code (c : ascii) : N := N_of_ascii c.

Definition between (lo hi : N) (c : ascii) : bool :=
  (lo <=? code c)%N && (code c <=? hi)%N.

Definition is_digit (c : ascii) : bool := between 48 57 c.
Definition is_upper (c : ascii) : bool := between 65 90 c.
Definition is_lower (c : ascii) : bool := between 97 122 c.
Definition is_alpha (c : ascii) : bool := is_upper c || is_lower c.
Definition is_alnum (c : ascii) : bool := is_alpha c || is_digit c.

(** RE2's [\w]: [0-9A-Za-z_]; [\s]: [\t\n\f\r ]; both ASCII only. *)
Definition is_word (c : ascii) : bool := is_alnum c || Ascii.eqb c "_".
Definition is_space (c : ascii) : bool :=
  Ascii.eqb c "009" || Ascii.eqb c "010" || Ascii.eqb c "012"
  || Ascii.eqb c "013" || Ascii.eqb c " ".

Definition is_hex (c : ascii) : bool :=
  is_digit c || between 97 102 c || between 65 70 c.

Definition one_of (s : string) (c : ascii) : bool :=
  existsb (Ascii.eqb c) (B s).

Fixpoint bytes_eqb (a b : bytes) : bool :=
  match a, b with
  | [], [] => true
  | x :: a', y :: b' => Ascii.eqb x y && bytes_eqb a' b'
  | _, _ => false
  end.

Fixpoint has_prefix (p s : bytes) : bool :=
  match p, s with
  | [], _ => true
  | x :: p', y :: s' => Ascii.eqb x y && has_prefix p' s'
  | _ :: _, [] => false
  end.

(** strings.TrimPrefix *)
Definition TrimPrefix (s p : bytes) : bytes :=
  if has_prefix p s then drop (length p) s else s.

(** strings.Trim(s, cutset) for an ASCII cutset. *)
Fixpoint TrimLeft (cut : ascii -> bool) (s : bytes) : bytes :=
  match s with
  | c :: s' => if cut c then TrimLeft cut s' else s
  | [] => []
  end.

Definition TrimRight (cut : ascii -> bool) (s : bytes) : bytes :=
  rev (TrimLeft cut (rev s)).

Definition Trim (cut : ascii -> bool) (s : bytes) : bytes :=
  TrimRight cut (TrimLeft cut s).

End Bytes.
Import Bytes.

(** ** Regular expressions (Go's regexp: leftmost-first matching)

    The patterns of this package use character classes, concatenation,
    ordered alternation, greedy counted repetition and the ASCII word
    boundary.  A multi-byte rune of a class (a currency sign, a case-folding
    partner) is the concatenation of its UTF-8 bytes: such a sequence starts
    with a lead byte, so wherever it occurs Go's decoder reads that rune. *)

Module Regexp.

Inductive regex : Type :=
| Eps
| Chr (p : ascii -> bool)
| Cat (a b : regex)
| Alt (a b : regex)
| Rep (a : regex) (lo : nat) (hi : option nat)
| WordB.

(** Continuations receive the byte before the cursor and the remaining
    input; they answer with the input left after the whole match. *)
Definition cont := option ascii -> bytes -> option bytes.

Definition word_before (prev : option ascii) : bool :=
  match prev with Some c => is_word c | None => false end.

Definition word_after (s : bytes) : bool :=
  match s with c :: _ => is_word c | [] => false end.

(** Greedy repetition: one more iteration is preferred over stopping.
    Every iteration has to consume input. *)
Fixpoint rep (step : option ascii -> bytes -> cont -> option bytes)
    (fuel lo : nat) (hi : option nat)
    (prev : option ascii) (s : bytes) (k : cont) : option bytes :=
  let stop := if Nat.eqb lo 0 then k prev s else None in
  match fuel with
  | O => stop
  | S fuel' =>
      let more :=
        match hi with
        | Some O => None
        | _ =>
            step prev s (fun p' s' =>
              if Nat.ltb (length s') (length s)
              then rep step fuel' (Nat.pred lo) (Nat.pred <$> hi) p' s' k
              else None)
        end in
      match more with
      | Some r => Some r
      | None => stop
      end
  end.

Fixpoint run (r : regex) (prev : option ascii) (s : bytes) (k : cont)
    : option bytes :=
  match r with
  | Eps => k prev s
  | Chr p =>
      match s with
      | c :: s' => if p c then k (Some c) s' else None
      | [] => None
      end
  | Cat a b => run a prev s (fun p' s' => run b p' s' k)
  | Alt a b =>
      match run a prev s k with
      | Some r => Some r
      | None => run b prev s k
      end
  | Rep a lo hi => rep (run a) (length s) lo hi prev s k
  | WordB =>
      if xorb (word_before prev) (word_after s) then k prev s else None
  end.

(** Length of the leftmost-first match that starts at the cursor. *)
Definition match_here (r : regex) (prev : option ascii) (s : bytes)
    : option nat :=
  match run r prev s (fun _ rest => Some rest) with
  | Some rest => Some (length s - length rest)
  | None => None
  end.

(** Regexp.ReplaceAllStringFunc for a pattern that cannot match the empty
    string, as is the case for every pattern of this repository ([min_len]
    below): scan left to right, replace the match found at the first
    position that has one, resume after it. *)
Fixpoint replace_from (r : regex) (f : bytes -> bytes)
    (skip : nat) (prev : option ascii) (s : bytes) : bytes :=
  match s with
  | [] => []
  | c :: s' =>
      match skip with
      | S n => replace_from r f n (Some c) s'
      | O =>
          match match_here r prev s with
          | Some (S n) => f (take (S n) s) ++ replace_from r f n (Some c) s'
          | _ => c :: replace_from r f 0 (Some c) s'
          end
      end
  end.

Definition ReplaceAllStringFunc (r : regex) (src : bytes)
    (f : bytes -> bytes) : bytes :=
  replace_from r f 0 None src.

Definition ReplaceAllString (r : regex) (src repl : bytes) : bytes :=
  ReplaceAllStringFunc r src (fun _ => repl).

(** Regexp.MatchString: is there a match anywhere in the input. *)
Fixpoint match_from (r : regex) (prev : option ascii) (s : bytes) : bool :=
  match match_here r prev s with
  | Some _ => true
  | None =>
      match s with
      | [] => false
      | c :: s' => match_from r (Some c) s'
      end
  end.

Definition MatchString (r : regex) (s : bytes) : bool := match_from r None s.

(** Pattern syntax helpers. *)
Definition ch (c : ascii) : regex := Chr (Ascii.eqb c).

Fixpoint lit (s : bytes) : regex :=
  match s with
  | [] => Eps
  | [c] => ch c
  | c :: s' => Cat (ch c) (lit s')
  end.

Fixpoint seq (rs : list regex) : regex :=
  match rs with
  | [] => Eps
  | [r] => r
  | r :: rs' => Cat r (seq rs')
  end.

Fixpoint alt (rs : list regex) : regex :=
  match rs with
  | [] => Chr (fun _ => false)
  | [r] => r
  | r :: rs' => Alt r (alt rs')
  end.

Definition opt (r : regex) : regex := Rep r 0 (Some 1).
Definition plus (r : regex) : regex := Rep r 1 None.
Definition star (r : regex) : regex := Rep r 0 None.
Definition times (n : nat) (r : regex) : regex := Rep r n (Some n).

Definition digit : regex := Chr is_digit.
Definition space : regex := Chr is_space.

(** A lower bound on the length of any match. *)
Fixpoint min_len (r : regex) : nat :=
  match r with
  | Eps | WordB => 0
  | Chr _ => 1
  | Cat a b => min_len a + min_len b
  | Alt a b => Nat.min (min_len a) (min_len b)
  | Rep a lo _ => lo * min_len a
  end.

End Regexp.
Import Regexp.

(** ** Text normalizer *)

Module TextNormalizer.

(** UTF-8 encodings of the non-ASCII runes the patterns mention. *)
Definition euro : bytes := ["226"; "130"; "172"]%char.      (* U+20AC *)
Definition pound : bytes := ["194"; "163"]%char.            (* U+00A3 *)
Definition yen : bytes := ["194"; "165"]%char.              (* U+00A5 *)
Definition long_s : bytes := ["197"; "191"]%char.           (* U+017F *)
Definition kelvin : bytes := ["226"; "132"; "170"]%char.    (* U+212A *)

(** Under [(?i)] a class holding [s] and [k] also holds their case-folding
    partners U+017F and U+212A. *)
Definition folded (p : ascii -> bool) : regex :=
  alt [Chr p; lit long_s; lit kelvin].

(** [\b(?i)[A-Za-z0-9._%+-]+@[A-Za-z0-9.-]+\.[A-Za-z]{2,}\b] *)
Definition emailAddress : regex :=
  seq [WordB;
       plus (folded (fun c => is_alnum c || one_of "._%+-" c));
       ch "@";
       plus (folded (fun c => is_alnum c || one_of ".-" c));
       ch ".";
       Rep (folded is_alpha) 2 None;
       WordB].

(** [(?:25[0-5]|2[0-4]\d|1?\d?\d)] *)
Definition octet : regex :=
  alt [seq [ch "2"; ch "5"; Chr (between 48 53)];
       seq [ch "2"; Chr (between 48 52); digit];
       seq [opt (ch "1"); opt digit; digit]].

(** [\b(?:25[0-5]|2[0-4]\d|1?\d?\d)(?:\.(?:25[0-5]|2[0-4]\d|1?\d?\d)){3}\b] *)
Definition ipAddress : regex :=
  seq [WordB; octet; times 3 (seq [ch "."; octet]); WordB].

Definition hexdig : regex := Chr is_hex.

(** [\b[0-9a-fA-F]{8}-[0-9a-fA-F]{4}-[0-9a-fA-F]{4}-[0-9a-fA-F]{4}-[0-9a-fA-F]{12}\b] *)
Definition uuid : regex :=
  seq [WordB; times 8 hexdig; ch "-"; times 4 hexdig; ch "-";
       times 4 hexdig; ch "-"; times 4 hexdig; ch "-"; times 12 hexdig;
       WordB].

(** [\b(?:[0-9]{1,2}\s(?:days?|weeks?|months?|years?)\s(?:ago|from\s+now))\b] *)
Definition relativeDates : regex :=
  seq [WordB;
       Rep digit 1 (Some 2); space;
       alt [seq [lit (B "day"); opt (ch "s")];
            seq [lit (B "week"); opt (ch "s")];
            seq [lit (B "month"); opt (ch "s")];
            seq [lit (B "year"); opt (ch "s")]];
       space;
       alt [lit (B "ago"); seq [lit (B "from"); plus space; lit (B "now")]];
       WordB].

(** [[\$€£¥]\s*\d+(?:\.\d{1,2})?\b] *)
Definition priceAmounts : regex :=
  seq [alt [ch "$"; lit euro; lit pound; lit yen];
       star space; plus digit;
       opt (seq [ch "."; Rep digit 1 (Some 2)]);
       WordB].

(** [\b\+?\d{7,15}\b] *)
Definition phoneNumbers : regex :=
  seq [WordB; opt (ch "+"); Rep digit 7 (Some 15); WordB].

(** [\b\d{3}-\d{2}-\d{4}\b] *)
Definition ssnNumbers : regex :=
  seq [WordB; times 3 digit; ch "-"; times 2 digit; ch "-"; times 4 digit;
       WordB].

(** [\b(?:(?:[0-9]{4}-[0-9]{2}-[0-9]{2})|(?:(?:[0-9]{2}\/){2}[0-9]{4}))\s(?:[0-9]{2}:[0-9]{2}:[0-9]{2})\b] *)
Definition timestampRegex : regex :=
  seq [WordB;
       alt [seq [times 4 digit; ch "-"; times 2 digit; ch "-"; times 2 digit];
            seq [times 2 (seq [times 2 digit; ch "/"]); times 4 digit]];
       space;
       seq [times 2 digit; ch ":"; times 2 digit; ch ":"; times 2 digit];
       WordB].

Definition DefaultTextPatterns : list regex :=
  [emailAddress; ipAddress; uuid; relativeDates; priceAmounts;
   phoneNumbers; ssnNumbers; timestampRegex].

(** The compiled pattern list of a TextNormalizer. *)
Record TextNormalizer : Type := { patterns : list regex }.

(** NewTextNormalizer: the defaults followed by [dateTimePatterns], a
    package variable declared outside the files at hand. *)
Definition NewTextNormalizer (dateTimePatterns : list regex) : TextNormalizer :=
  {| patterns := DefaultTextPatterns ++ dateTimePatterns |}.

(** TextNormalizer.Apply *)
Definition Apply (n : TextNormalizer) (text : bytes) : bytes :=
  fold_left (fun text pattern => ReplaceAllString pattern text []) (patterns n) text.

End TextNormalizer.

(** ** HTML documents (golang.org/x/net/html through goquery) *)

Module Html.

#[warnings="-register-all"]
Inductive Node : Type :=
| TextNode (data : bytes)
| ElementNode (tag : bytes) (attr : list (bytes * bytes)) (children : list Node).

Definition is_text (n : Node) : bool :=
  match n with TextNode _ => true | ElementNode _ _ _ => false end.

Definition tag_in (names : list string) (tag : bytes) : bool :=
  existsb (fun n => bytes_eqb (B n) tag) names.

Definition dquote : ascii := "034"%char.

(** html.EscapeString as the renderer applies it to text and attribute
    values. *)
Fixpoint escape (s : bytes) : bytes :=
  match s with
  | [] => []
  | c :: s' =>
      (if Ascii.eqb c "&" then B "&amp;"
       else if Ascii.eqb c "'" then B "&#39;"
       else if Ascii.eqb c "<" then B "&lt;"
       else if Ascii.eqb c ">" then B "&gt;"
       else if Ascii.eqb c dquote then B "&#34;"
       else if Ascii.eqb c "013" then B "&#13;"
       else [c]) ++ escape s'
  end.

Definition voidElements : list string :=
  ["area"; "base"; "br"; "col"; "embed"; "hr"; "img"; "input"; "keygen";
   "link"; "meta"; "param"; "source"; "track"; "wbr"]%string.

Definition literalTextElements : list string :=
  ["iframe"; "noembed"; "noframes"; "noscript"; "plaintext"; "script";
   "style"; "xmp"]%string.

Definition render_attr (a : bytes * bytes) : bytes :=
  " "%char :: fst a ++ B "=" ++ [dquote] ++ escape (snd a) ++ [dquote].

(** The first child is a text node that starts with a line feed. *)
Definition starts_with_newline (children : list Node) : bool :=
  match children with
  | TextNode (c :: _) :: _ => Ascii.eqb c "010"
  | _ => false
  end.

(** html.Render of one node of a tree of elements and text (comments,
    doctypes, foreign namespaces and the early end after [plaintext] are
    left out); [literal] tells that the parent writes its text children
    unescaped.  A void element with children is the renderer's error. *)
Fixpoint render (literal : bool) (n : Node) : option bytes :=
  match n with
  | TextNode d => Some (if literal then d else escape d)
  | ElementNode tag attr children =>
      let open := "<"%char :: tag ++ concat (map render_attr attr) in
      if tag_in voidElements tag then
        match children with
        | [] => Some (open ++ B "/>")
        | _ => None
        end
      else
        let newline :=
          if starts_with_newline children
             && tag_in ["pre"; "listing"; "textarea"]%string tag
          then ["010"%char] else [] in
        let lit := tag_in literalTextElements tag in
        (fix render_all (cs : list Node) : option bytes :=
           match cs with
           | [] => Some (B "</" ++ tag ++ B ">")
           | c :: cs' =>
               match render lit c, render_all cs' with
               | Some a, Some b => Some (a ++ b)
               | _, _ => None
               end
           end) children
        ≫= fun body => Some (open ++ B ">" ++ newline ++ body)
  end.

(** The document the parser builds around body content. *)
Definition document (body : list Node) : Node :=
  ElementNode (B "html") []
    [ElementNode (B "head") [] []; ElementNode (B "body") [] body].

Definition text_nodes (t : bytes) : list Node :=
  match t with [] => [] | _ => [TextNode t] end.

(** Bytes the tokenizer hands on as character data unchanged. *)
Definition plain_byte (c : ascii) : bool :=
  negb (Ascii.eqb c "<" || Ascii.eqb c "&" || Ascii.eqb c "000"
        || Ascii.eqb c "013").

Definition doc_open : bytes := B "<html><head></head><body>".
Definition doc_close : bytes := B "</body></html>".

Definition has_suffix (p s : bytes) : bool := has_prefix (rev p) (rev s).

(** What html.Parse builds on two kinds of input, written out to evaluate
    the pipeline on them:
      - character data that does not start with white space becomes the
        single text child of the implied [body];
      - the serialisation of such a document, [doc_open ++ t ++ doc_close]
        with character data [t], is read back as that document.
    Every other input is given the empty document here. *)
Definition Parse_fragment (s : bytes) : Node :=
  if forallb plain_byte s then
    match s with
    | c :: _ => if is_space c then document [] else document (text_nodes s)
    | [] => document []
    end
  else if has_prefix doc_open s && has_suffix doc_close (drop (length doc_open) s)
  then
    let rest := drop (length doc_open) s in
    let t := take (length rest - length doc_close) rest in
    if forallb plain_byte t then document (text_nodes t) else document []
  else document [].

(** The inputs on which [Parse_fragment] is what the parser builds. *)
Definition in_fragment (s : bytes) : bool :=
  if forallb plain_byte s then
    match s with c :: _ => negb (is_space c) | [] => true end
  else
    has_prefix doc_open s && has_suffix doc_close (drop (length doc_open) s)
    && forallb plain_byte
         (take (length (drop (length doc_open) s) - length doc_close)
            (drop (length doc_open) s)).

(** goquery's Document.Html: the rendering of the root's children. *)
Definition Html (doc : Node) : option bytes := render false doc.

End Html.

(** ** Go library functions used by normalizer.go *)

Module GoLib.

Local Open Scope Z_scope.

Definition zcode (c : ascii) : Z := Z.of_N (code c).
Definition zbyte (n : Z) : ascii := ascii_of_N (Z.to_N (n mod 256)).

Definition wrap (bits : Z) (n : Z) : Z := n mod 2 ^ bits.

(** A signed w-bit integer, kept as the representative in [-2^(w-1), 2^(w-1)). *)
Definition swrap (bits : Z) (n : Z) : Z :=
  let m := n mod 2 ^ bits in
  if m <? 2 ^ (bits - 1) then m else m - 2 ^ bits.

(** *** unicode/utf8 *)

Definition RuneError : Z := 65533.
Definition MaxRune : Z := 1114111.

Definition is_cont (c : ascii) : bool := between 128 191 c.

(** utf8.DecodeRune on a non-empty input: the rune and its width; an
    ill-formed or truncated sequence decodes to (RuneError, 1). *)
Definition DecodeRune (s : bytes) : Z * nat :=
  match s with
  | [] => (RuneError, 0%nat)
  | b0 :: t =>
      let invalid := (RuneError, 1%nat) in
      if between 0 127 b0 then (zcode b0, 1%nat)
      else if between 194 223 b0 then
        match t with
        | b1 :: _ =>
            if is_cont b1
            then ((zcode b0 - 192) * 64 + (zcode b1 - 128), 2%nat)
            else invalid
        | _ => invalid
        end
      else if between 224 239 b0 then
        match t with
        | b1 :: b2 :: _ =>
            let lo := if Ascii.eqb b0 "224" then 160%N else 128%N in
            let hi := if Ascii.eqb b0 "237" then 159%N else 191%N in
            if between lo hi b1 && is_cont b2
            then ((zcode b0 - 224) * 4096 + (zcode b1 - 128) * 64
                  + (zcode b2 - 128), 3%nat)
            else invalid
        | _ => invalid
        end
      else if between 240 244 b0 then
        match t with
        | b1 :: b2 :: b3 :: _ =>
            let lo := if Ascii.eqb b0 "240" then 144%N else 128%N in
            let hi := if Ascii.eqb b0 "244" then 143%N else 191%N in
            if between lo hi b1 && is_cont b2 && is_cont b3
            then ((zcode b0 - 240) * 262144 + (zcode b1 - 128) * 4096
                  + (zcode b2 - 128) * 64 + (zcode b3 - 128), 4%nat)
            else invalid
        | _ => invalid
        end
      else invalid
  end.

(** utf8.AppendRune: surrogates and out-of-range values are written as
    U+FFFD. *)
Definition EncodeRune (r : Z) : bytes :=
  let r := if (r <? 0) || (MaxRune <? r) || ((55296 <=? r) && (r <=? 57343))
           then RuneError else r in
  if r <? 128 then [zbyte r]
  else if r <? 2048 then [zbyte (192 + r / 64); zbyte (128 + r mod 64)]
  else if r <? 65536 then
    [zbyte (224 + r / 4096); zbyte (128 + (r / 64) mod 64);
     zbyte (128 + r mod 64)]
  else
    [zbyte (240 + r / 262144); zbyte (128 + (r / 4096) mod 64);
     zbyte (128 + (r / 64) mod 64); zbyte (128 + r mod 64)].

(** The parts of the Go libraries that no file of this repository holds:
    [unicode.ToLower] beyond ASCII, the named character references of
    package html ([entity] and [entity2] merged; a name carries its final
    [;] when the table entry does; the value is the UTF-8 text), and the
    HTML5 parser behind [goquery.NewDocumentFromReader], which does not
    fail on an in-memory reader. *)
Record Tables : Type := {
  unicode_ToLower : Z -> Z;
  html_entity : bytes -> option bytes;
  html_Parse : bytes -> Html.Node
}.

(** *** strings.ToLower

    An ASCII-only string is lowered byte by byte.  Otherwise
    [strings.Map(unicode.ToLower, s)] re-encodes the mapped runes; the
    bytes of an ill-formed sequence each become U+FFFD. *)
Definition lower_byte (c : ascii) : ascii :=
  if is_upper c then zbyte (zcode c + 32) else c.

Definition ToLower_rune (T : Tables) (r : Z) : Z :=
  if r <? 128 then (if (65 <=? r) && (r <=? 90) then r + 32 else r)
  else unicode_ToLower T r.

Fixpoint map_runes (f : Z -> Z) (skip : nat) (s : bytes) : bytes :=
  match s with
  | [] => []
  | _ :: s' =>
      match skip with
      | S n => map_runes f n s'
      | O =>
          let '(r, w) := DecodeRune s in
          EncodeRune (f r) ++ map_runes f (Nat.pred w) s'
      end
  end.

Definition ToLower (T : Tables) (s : bytes) : bytes :=
  if forallb (between 0 127) s then map lower_byte s
  else map_runes (ToLower_rune T) 0 s.

(** *** strconv.ParseInt *)

Inductive NumError : Type := ErrSyntax | ErrRange.

Definition digit_value (c : ascii) : option Z :=
  if is_digit c then Some (zcode c - 48)
  else
    let l := Z.lor (zcode c) 32 in
    if (97 <=? l) && (l <=? 122) then Some (l - 97 + 10) else None.

(** The digit loop of ParseUint, for [2 <= base <= 36]. *)
Fixpoint ParseUint_loop (base bitSize : Z) (s : bytes) (n : Z)
    : Z * option NumError :=
  let cutoff := (2 ^ 64 - 1) / base + 1 in
  let maxVal := 2 ^ bitSize - 1 in
  match s with
  | [] => (n, None)
  | c :: s' =>
      match digit_value c with
      | None => (0, Some ErrSyntax)
      | Some d =>
          if base <=? d then (0, Some ErrSyntax)
          else if cutoff <=? n then (maxVal, Some ErrRange)
          else
            let n := n * base in
            let n1 := wrap 64 (n + d) in
            if (n1 <? n) || (maxVal <? n1) then (maxVal, Some ErrRange)
            else ParseUint_loop base bitSize s' n1
      end
  end.

Definition ParseUint (s : bytes) (base bitSize : Z) : Z * option NumError :=
  match s with
  | [] => (0, Some ErrSyntax)
  | _ => ParseUint_loop base bitSize s 0
  end.

Definition ParseInt (s : bytes) (base bitSize : Z) : Z * option NumError :=
  match s with
  | [] => (0, Some ErrSyntax)
  | c :: s' =>
      let neg := Ascii.eqb c "-" in
      let digits := if Ascii.eqb c "+" || neg then s' else s in
      match ParseUint digits base bitSize with
      | (_, Some ErrSyntax) => (0, Some ErrSyntax)
      | (un, _) =>
          let cutoff := 2 ^ (bitSize - 1) in
          if negb neg && (cutoff <=? un) then (cutoff - 1, Some ErrRange)
          else if neg && (cutoff <? un) then (- cutoff, Some ErrRange)
          else (if neg then - un else un, None)
      end
  end.

(** *** fmt's [%x] verb for an integer *)

Definition hex_char (d : Z) : ascii :=
  if d <? 10 then zbyte (48 + d) else zbyte (97 + d - 10).

Fixpoint hex_digits (fuel : nat) (n : Z) (acc : bytes) : bytes :=
  let acc' := hex_char (n mod 16) :: acc in
  match fuel with
  | O => acc'
  | S fuel' => if n / 16 =? 0 then acc' else hex_digits fuel' (n / 16) acc'
  end.

Definition FormatHex (n : Z) : bytes :=
  let digits := hex_digits (Z.to_nat (Z.log2 (Z.abs n))) (Z.abs n) [] in
  if n <? 0 then "-"%char :: digits else digits.

(** *** html.UnescapeString *)

(** Windows-1252 replacements for the code points 0x80 to 0x9F. *)
Definition replacementTable : list Z :=
  [8364; 129; 8218; 402; 8222; 8230; 8224; 8225;
   710; 8240; 352; 8249; 338; 141; 381; 143;
   144; 8216; 8217; 8220; 8221; 8226; 8211; 8212;
   732; 8482; 353; 8250; 339; 157; 382; 376].

(** The digit loop of a numeric reference; [x] is a rune (int32).
    Returns the value and the number of bytes read, a closing [;]
    included. *)
Fixpoint numeric_loop (hex : bool) (s : bytes) (x : Z) (i : nat) : Z * nat :=
  match s with
  | [] => (x, i)
  | c :: s' =>
      let dig :=
        if is_digit c then Some (zcode c - 48)
        else if hex && between 97 102 c then Some (zcode c - 97 + 10)
        else if hex && between 65 70 c then Some (zcode c - 65 + 10)
        else None in
      match dig with
      | Some d =>
          numeric_loop hex s' (swrap 32 ((if hex then 16 else 10) * x + d)) (S i)
      | None => if Ascii.eqb c ";" then (x, S i) else (x, i)
      end
  end.

Definition longestEntityWithoutSemicolon : nat := 6.

(** Scan of an entity name: letters and digits, then an optional [;]. *)
Fixpoint name_len (s : bytes) : nat :=
  match s with
  | [] => 0
  | c :: s' =>
      if is_alnum c then S (name_len s')
      else if Ascii.eqb c ";" then 1 else 0
  end.

(** The prefixes [name[:j]] for [j] from [maxLen] down to 2. *)
Fixpoint prefix_lookup (T : Tables) (name : bytes) (j : nat)
    : option (bytes * nat) :=
  match j with
  | O | 1%nat => None
  | S j' =>
      match html_entity T (take j name) with
      | Some x => Some (x, S j)
      | None => prefix_lookup T name j'
      end
  end.

(** unescapeEntity on input that starts with [&]: the bytes written and the
    number of input bytes consumed. *)
Definition unescapeEntity (T : Tables) (s : bytes) : bytes * nat :=
  let keep := (["&"%char], 1%nat) in
  match s with
  | _ :: "#"%char :: rest =>
      if Nat.leb (length s) 3 then keep
      else
        let '(hex, digits, i0) :=
          match rest with
          | c :: rest' =>
              if Ascii.eqb c "x" || Ascii.eqb c "X"
              then (true, rest', 3%nat) else (false, rest, 2%nat)
          | [] => (false, rest, 2%nat)
          end in
        let '(x, i) := numeric_loop hex digits 0 i0 in
        if Nat.leb i 3 then keep
        else
          let x :=
            if (128 <=? x) && (x <=? 159)
            then nth (Z.to_nat (x - 128)) replacementTable RuneError
            else if (x =? 0) || ((55296 <=? x) && (x <=? 57343))
                    || (MaxRune <? x)
            then RuneError else x in
          (EncodeRune x, i)
  | _ :: ((_ :: _) as rest) =>
      let n := name_len rest in
      let name := take n rest in
      let whole := (take (S n) s, S n) in
      match n with
      | O => whole
      | _ =>
          match html_entity T name with
          | Some x => (x, S n)
          | None =>
              let maxLen := Nat.min (n - 1) longestEntityWithoutSemicolon in
              match prefix_lookup T name maxLen with
              | Some r => r
              | None => whole
              end
          end
      end
  | _ => keep
  end.

Fixpoint unescape_from (T : Tables) (skip : nat) (s : bytes) : bytes :=
  match s with
  | [] => []
  | c :: s' =>
      match skip with
      | S n => unescape_from T n s'
      | O =>
          if Ascii.eqb c "&"
          then let '(out, used) := unescapeEntity T s in
               out ++ unescape_from T (Nat.pred used) s'
          else c :: unescape_from T 0 s'
      end
  end.

Definition UnescapeString (T : Tables) (s : bytes) : bytes :=
  unescape_from T 0 s.

(** *** url.QueryUnescape *)

Definition unhex (c : ascii) : Z :=
  if is_digit c then zcode c - 48
  else if between 97 102 c then zcode c - 97 + 10
  else if between 65 70 c then zcode c - 65 + 10
  else 0.

(** First pass: every [%] must be followed by two hex digits. *)
Fixpoint escapes_ok (s : bytes) : bool :=
  match s with
  | [] => true
  | c :: s' =>
      if Ascii.eqb c "%" then
        match s' with
        | h1 :: h2 :: _ => is_hex h1 && is_hex h2 && escapes_ok s'
        | _ => false
        end
      else escapes_ok s'
  end.

Fixpoint unescape_query (skip : nat) (s : bytes) : bytes :=
  match s with
  | [] => []
  | c :: s' =>
      match skip with
      | S n => unescape_query n s'
      | O =>
          if Ascii.eqb c "%" then
            match s' with
            | h1 :: h2 :: _ =>
                zbyte (Z.lor (Z.shiftl (unhex h1) 4) (unhex h2))
                  :: unescape_query 2 s'
            | _ => c :: unescape_query 0 s'
            end
          else if Ascii.eqb c "+" then " "%char :: unescape_query 0 s'
          else c :: unescape_query 0 s'
      end
  end.

(** [None] stands for the EscapeError. *)
Definition QueryUnescape (s : bytes) : option bytes :=
  if escapes_ok s then Some (unescape_query 0 s) else None.

End GoLib.

(** ** normalizer.go *)

Module Normalizer.

Import GoLib.

(** [[\r\n]+|\s+] *)
Definition whiteSpacesRegex : regex :=
  alt [plus (Chr (fun c => Ascii.eqb c "013" || Ascii.eqb c "010"));
       plus space].

(** [\\x[0-9a-fA-F]{2}] *)
Definition pattern : regex :=
  seq [ch "\"; ch "x"; times 2 (Chr is_hex)].

Definition replaceHexEscapeSequence (match_ : bytes) : bytes :=
  let code := TrimPrefix match_ (B "\x") in
  match ParseInt code 16 32 with
  | (_, Some _) => match_
  | (value, None) => B "&#x" ++ FormatHex value ++ B ";"
  end.

Definition convertHexEscapeSequencesToEntities (input : bytes) : bytes :=
  ReplaceAllStringFunc pattern input
    (fun match_ => replaceHexEscapeSequence match_).

(** The cutset of the final [strings.Trim]: space, CR, LF and TAB. *)
Definition trimCutset (c : ascii) : bool :=
  Ascii.eqb c " " || Ascii.eqb c "013" || Ascii.eqb c "010"
  || Ascii.eqb c "009".

Definition normalizeDocument (T : Tables) (text : bytes) : bytes :=
  let lowercased := ToLower T text in
  let converted := convertHexEscapeSequencesToEntities lowercased in
  let unescaped := UnescapeString T converted in
  let urlDecoded :=
    match QueryUnescape unescaped with
    | Some d => d
    | None => unescaped
    end in
  let normalized := ReplaceAllString whiteSpacesRegex urlDecoded (B " ") in
  Trim trimCutset normalized.

(** removeTextNodesFromSelection: drop the text nodes among the direct
    children of a node. *)
Definition removeTextNodesFromSelection (children : list Html.Node)
    : list Html.Node :=
  filter (fun c => Html.is_text c = false) children.

Definition strippedTags : list string :=
  ["h1"; "h2"; "h3"; "h4"; "h5"; "h6"; "p"; "span"; "div"; "td"; "th"; "li";
   "a"]%string.

(** [doc.Find("h1, ..., a").Each(removeTextNodesFromSelection)]: every
    element of the document with one of the tags loses its text children;
    its element children are visited in turn. *)
Fixpoint stripTextNodes (n : Html.Node) : Html.Node :=
  match n with
  | Html.TextNode d => Html.TextNode d
  | Html.ElementNode tag attr children =>
      let children' := map stripTextNodes children in
      Html.ElementNode tag attr
        (if Html.tag_in strippedTags tag
         then removeTextNodesFromSelection children'
         else children')
  end.

Definition stripTextContent (T : Tables) (content : bytes) : option bytes :=
  let doc := html_Parse T content in
  Html.Html (stripTextNodes doc).

(** Modelled from the spec: [DOMNormalizer.Apply], declared in a file that
    is not at hand.  Section 4.2: parse the input as HTML, remove all
    direct text-node children of every element with a tag among h1..h6, p,
    span, div, td, th, li, a, and serialise back to HTML. *)
Definition DOMNormalizer_Apply (T : Tables) (content : bytes) : option bytes :=
  let doc := html_Parse T content in
  Html.Html (stripTextNodes doc).

Record DOMNormalizer : Type := { dom_Apply : bytes -> option bytes }.

Definition NewDOMNormalizer (T : Tables) : DOMNormalizer :=
  {| dom_Apply := DOMNormalizer_Apply T |}.

Record Normalizer : Type := {
  dom : DOMNormalizer;
  text : TextNormalizer.TextNormalizer
}.

(** New: regexp.Compile cannot fail on the patterns, which are given here
    in compiled form. *)
Definition New (T : Tables) (dateTimePatterns : list regex) : Normalizer :=
  {| dom := NewDOMNormalizer T;
     text := TextNormalizer.NewTextNormalizer dateTimePatterns |}.

(** The stages of Normalizer.Apply, logged as they are called. *)
Inductive Stage : Type :=
| CallNormalizeDocument
| CallDOMApply
| CallStripTextContent
| CallTextApply.

Definition Stage_eq_dec (a b : Stage) : {a = b} + {a <> b}.
Proof. decide equality. Defined.

(** A computation that logs the calls it makes and may stop early. *)
Definition Logged (A : Type) : Type := list Stage * option A.

Definition call {A} (st : Stage) (r : option A) : Logged A := ([st], r).

Definition bind {A B} (m : Logged A) (f : A -> Logged B) : Logged B :=
  match m with
  | (l, Some a) => let '(l', b) := f a in (l ++ l', b)
  | (l, None) => (l, None)
  end.

Notation "'call!' x ← st , e ; k" := (bind (call st e) (fun x => k))
  (at level 10, x name, st at level 9, e at level 100, k at level 200).

Definition Apply_logged (T : Tables) (n : Normalizer) (text_ : bytes)
    : Logged bytes :=
  call! first ← CallNormalizeDocument, Some (normalizeDocument T text_);
  call! firstpass ← CallDOMApply, dom_Apply (dom n) first;
  call! secondpass ← CallStripTextContent, stripTextContent T firstpass;
  call! thirdpass ← CallTextApply, Some (TextNormalizer.Apply (text n) secondpass);
  call! fourthpass ← CallNormalizeDocument, Some (normalizeDocument T thirdpass);
  ([], Some fourthpass).

(** Normalizer.Apply; [None] is its error return. *)
Definition Apply (T : Tables) (n : Normalizer) (text_ : bytes) : option bytes :=
  snd (Apply_logged T n text_).

(** The pipeline as section 4.4 of the specification words it:
    pre/post-process, DOM normalize, pre/post-process, text normalize,
    pre/post-process.  Both DOM passes of the code count as the DOM
    normalization. *)
Definition Apply_as_specified (T : Tables) (n : Normalizer) (text_ : bytes)
    : option bytes :=
  let first := normalizeDocument T text_ in
  firstpass ← dom_Apply (dom n) first;
  secondpass ← stripTextContent T firstpass;
  let middle := normalizeDocument T secondpass in
  let thirdpass := TextNormalizer.Apply (text n) middle in
  Some (normalizeDocument T thirdpass).

(** Library parts to evaluate the definitions with: they serve texts
    whose runes are ASCII, whose named references are the XML ones and
    which the parser reads as [Html.Parse_fragment] says. *)
Definition plain_library : Tables :=
  {| unicode_ToLower := fun r => r;
     html_entity := fun name =>
       snd <$> find (fun e => bytes_eqb (B (fst e)) name)
         [("amp;", B "&"); ("amp", B "&"); ("lt;", B "<"); ("lt", B "<");
          ("gt;", B ">"); ("gt", B ">"); ("quot;", [Html.dquote]);
          ("quot", [Html.dquote]); ("apos;", B "'")]%string;
     html_Parse := Html.Parse_fragment |}.

End Normalizer.

(** ** The crawler *)

Module Crawler.

Local Open Scope string_scope.
Local Open Scope Z_scope.

(** *** Errors *)

(** Error values: the package's sentinels, the error types of the rod
    library the loop looks for, and everything else.  [Wrap] is an error
    that wraps a cause, as [errors.Wrap] and [fmt.Errorf("%w")] build. *)
Inductive error : Type :=
| ErrNoCrawlingAction
| ErrElementNotVisible
| ErrNoNavigationPossible
| NoPointerEventsError
| InvisibleShapeError
| NavigationError
| CoveredError
| MaxSleepCountError
| ContextCanceled
| OtherError (msg : string)
| Wrap (msg : string) (cause : error).

Fixpoint error_eqb (a b : error) : bool :=
  match a, b with
  | ErrNoCrawlingAction, ErrNoCrawlingAction
  | ErrElementNotVisible, ErrElementNotVisible
  | ErrNoNavigationPossible, ErrNoNavigationPossible
  | NoPointerEventsError, NoPointerEventsError
  | InvisibleShapeError, InvisibleShapeError
  | NavigationError, NavigationError
  | CoveredError, CoveredError
  | MaxSleepCountError, MaxSleepCountError
  | ContextCanceled, ContextCanceled => true
  | OtherError m, OtherError m' => String.eqb m m'
  | Wrap m c, Wrap m' c' => String.eqb m m' && error_eqb c c'
  | _, _ => false
  end.

(** errors.Is: the target is the error or one of its causes. *)
Fixpoint errors_Is (err target : error) : bool :=
  error_eqb err target ||
  match err with
  | Wrap _ cause => errors_Is cause target
  | _ => false
  end.

(** errors.As for the rod and utils error types, which carry no data that
    matters here: the chain holds an error of the type of [kind]. *)
Fixpoint errors_As (err kind : error) : bool :=
  match err with
  | Wrap _ cause => errors_As cause kind
  | _ => error_eqb err kind
  end.

(** What a call can come to: a value, a returned error, or a run-time
    panic (a nil dereference), which unwinds the caller. *)
Inductive res (A : Type) : Type :=
| Val (a : A)
| Fail (e : error)
| Panic.
Arguments Val {A} a.
Arguments Fail {A} e.
Arguments Panic {A}.

(** *** Data model (package types) *)

(** Modelled from the spec: the descriptor types of package types, which
    no file at hand declares (section 3, Data model). *)
Record HTMLElement : Type := {
  TagName : string;
  ID : string;
  Classes : string;
  OuterHTML : string;
  XPath : string;
  CSSSelector : string;
  Attributes : gmap string string;
  TextContent : string;
  Hidden : bool;
  Name : string;
  Type_ : string;
  Value : string
}.

Record HTMLForm : Type := { Elements : list HTMLElement }.

Inductive ActionType : Type :=
| ActionTypeLoadURL
| ActionTypeLeftClick
| ActionTypeLeftClickDown
| ActionTypeFillForm
| ActionTypeOther (name : string).

Record Action : Type := {
  Type__ : ActionType;
  Input : string;
  Element : option HTMLElement;
  Form : option HTMLForm;
  Depth : Z;
  OriginID : string
}.

Definition with_OriginID (a : Action) (origin : string) : Action :=
  {| Type__ := Type__ a; Input := Input a; Element := Element a;
     Form := Form a; Depth := Depth a; OriginID := origin |}.

Record PageState : Type := {
  ps_UniqueID : string;
  ps_URL : string;
  ps_Depth : Z;
  ps_OriginID : string;
  ps_DOM : string
}.

Definition ps_with_OriginID (p : PageState) (origin : string) : PageState :=
  {| ps_UniqueID := ps_UniqueID p; ps_URL := ps_URL p; ps_Depth := ps_Depth p;
     ps_OriginID := origin; ps_DOM := ps_DOM p |}.

(** The options crawler.go reads. *)
Record Options : Type := {
  MaxDepth : Z;
  MaxCrawlDuration : Z;
  MaxFailureCount : Z;
  AutomaticFormFill : bool;
  EnableDiagnostics : bool;
  ScopeValidator : option (string -> bool)
}.

(** *** Live elements and the calls made on them *)

(** A [rod.Element] handle: its identity and what the browser answers to
    the calls the form filling code and crawler.go make on it. *)
Record Elem : Type := {
  el_id : string;
  el_tagName : res string;                  (* Eval(`() => this.tagName`) *)
  el_type : option string;                  (* Attribute("type") *)
  el_click : option error;                  (* Click *)
  el_input : string -> option error;        (* Input *)
  el_select_text : string -> option error;  (* Select by text *)
  el_select_css : string -> option error;   (* Select by CSS selector *)
  el_options : res (list (option string * string * bool));
                                            (* option: value, text, selected *)
  el_scroll : option error;                 (* ScrollIntoView *)
  el_visible : res bool;                    (* Visible *)
  el_interactable : res bool                (* Interactable: a point or nil *)
}.

(** Calls that reach the browser, the pool, the queue, the graph or the
    diagnostics writer, in the order they are made. *)
Inductive Event : Type :=
| EvGetPageFromPool
| EvPutBrowserToPool
| EvGetPageHash
| EvNavigateBack (a : Action) (current : string)
| EvLogAction (a : Action)
| EvExecute (a : Action)
| EvNavigate (url : string)
| EvWaitPageLoad
| EvElementX (xpath : string)
| EvScrollIntoView (el : string)
| EvClick (el : string)
| EvInput (el : string) (value : string)
| EvSelectText (el : string) (value : string)
| EvSelectCSS (el : string) (selector : string)
| EvNewPageState (a : Action)
| EvLogPageState (p : PageState)
| EvFindNavigations
| EvScreenshot
| EvOffer (actionHash : string) (nav : Action)
| EvAddPageState (p : PageState).

(** Fields of a form as handed to the fill-suggestion provider. *)
Inductive FormField : Type :=
| FormInput (name type_ value : string) (attrs : gmap string string)
| FormTextArea (name : string) (attrs : gmap string string)
| FormSelect (name : string) (attrs : gmap string string)
    (options : list (string * string)).

(** The answers of the outside world during one iteration of the loop. *)
Record Env : Type := {
  timer_fired : bool;                         (* <-crawlTimeout is ready *)
  pool_get : option error;                    (* GetPageFromPool *)
  get_page_hash : res string;                 (* getPageHash *)
  navigate_back : res string;                 (* navigateBackToStateOrigin *)
  log_action : option error;                  (* diagnostics.LogAction *)
  page_navigate : option error;               (* Navigate *)
  wait_load : option error;                   (* WaitPageLoadHeurisitics *)
  page_elementX : string -> res Elem;         (* ElementX *)
  suggestions : list FormField -> list (string * string);
                                              (* FormFillSuggestions *)
  placeholder : string;                       (* FormData.Placeholder *)
  new_page_state : res PageState;             (* newPageState *)
  log_page_state : option error;              (* diagnostics.LogPageState *)
  find_navigations : res (list Action);       (* FindNavigations *)
  add_page_state : option error               (* CrawlGraph.AddPageState *)
}.

(** *** Crawler state *)

Record Crawler : Type := {
  options : Options;
  crawlQueue : list Action;
  crawlGraph : list PageState;
  uniqueActions : gset string;
  events : list Event
}.

Definition set_queue (c : Crawler) (q : list Action) : Crawler :=
  {| options := options c; crawlQueue := q; crawlGraph := crawlGraph c;
     uniqueActions := uniqueActions c; events := events c |}.

Definition set_graph (c : Crawler) (g : list PageState) : Crawler :=
  {| options := options c; crawlQueue := crawlQueue c; crawlGraph := g;
     uniqueActions := uniqueActions c; events := events c |}.

Definition set_unique (c : Crawler) (u : gset string) : Crawler :=
  {| options := options c; crawlQueue := crawlQueue c;
     crawlGraph := crawlGraph c; uniqueActions := u; events := events c |}.

Definition emit (e : Event) (c : Crawler) : Crawler :=
  {| options := options c; crawlQueue := crawlQueue c;
     crawlGraph := crawlGraph c; uniqueActions := uniqueActions c;
     events := events c ++ [e] |}.

(** Methods run on the crawler and end with a value, an error or a panic. *)
Definition M (A : Type) : Type := Crawler -> Crawler * res A.

Definition ret {A} (a : A) : M A := fun c => (c, Val a).
Definition fail {A} (e : error) : M A := fun c => (c, Fail e).
Definition panic {A} : M A := fun c => (c, Panic).

Definition bind {A B} (m : M A) (f : A -> M B) : M B :=
  fun c =>
    match m c with
    | (c', Val a) => f a c'
    | (c', Fail e) => (c', Fail e)
    | (c', Panic) => (c', Panic)
    end.

Notation "'do' x <- m ; k" := (bind m (fun x => k))
  (at level 10, x name, m at level 100, k at level 200,
   format "'[v' 'do'  x  <-  m ; '/' k ']'").
Notation "m ;; k" := (bind m (fun _ => k))
  (at level 100, k at level 200, right associativity).

Definition log (e : Event) : M unit := fun c => (emit e c, Val tt).
Definition get : M Crawler := fun c => (c, Val c).

(** A call whose only result is an error or nil. *)
Definition check (r : option error) : M unit :=
  match r with Some e => fail e | None => ret tt end.

(** A call that returns a value and an error. *)
Definition lift {A} (r : res A) : M A := fun c => (c, r).

Definition when (b : bool) (m : M unit) : M unit := if b then m else ret tt.

(** *** Form filling *)

Definition deriveName (e : HTMLElement) : string :=
  match Attributes e !! "name" with
  | Some n => if String.eqb n "" then ID e else n
  | None => ID e
  end.

Definition copyAttrs (src : gmap string string) (skipKeys : list string)
    : gmap string string :=
  filter (fun kv => kv.1 ∉ skipKeys) src.

Definition convertHTMLElementToFormInput (element : HTMLElement) : FormField :=
  FormInput (deriveName element) (Type_ element) (Value element)
    (copyAttrs (Attributes element) ["name"; "value"; "type"]).

Definition convertHTMLElementToFormTextArea (element : HTMLElement) : FormField :=
  FormTextArea (deriveName element) (copyAttrs (Attributes element) ["name"]).

Definition getFieldName (field : HTMLElement) : string := deriveName field.

(** buildFormSelectWithOptions: the options read from the live element, or
    one placeholder option when there are none or the read fails. *)
Definition buildFormSelectWithOptions (env : Env) (field : HTMLElement)
    (element : Elem) : FormField :=
  let selectOptions :=
    match el_options element with
    | Val ((_ :: _) as opts) =>
        map (fun o : option string * string * bool =>
               let '(value, text_, selected) := o in
               (default text_ value, if selected then "selected" else ""))
            opts
    | _ => [(placeholder env, "selected")]
    end in
  FormSelect (deriveName field) (copyAttrs (Attributes field) ["name"])
    selectOptions.

(** The loop state of processForm. *)
Record FormScan : Type := {
  formFields : list FormField;
  submitButton : option Elem;
  elementMap : gmap string Elem
}.

Definition add_field (acc : FormScan) (f : FormField) (fieldName : string)
    (element : Elem) : FormScan :=
  {| formFields := formFields acc ++ [f];
     submitButton := submitButton acc;
     elementMap := if String.eqb fieldName "" then elementMap acc
                   else <[fieldName := element]> (elementMap acc) |}.

Definition set_submit (acc : FormScan) (element : Elem) : FormScan :=
  {| formFields := formFields acc;
     submitButton := Some element;
     elementMap := elementMap acc |}.

Definition scanField (env : Env) (field : HTMLElement) (element : Elem)
    (acc : FormScan) : FormScan :=
  let fieldName := getFieldName field in
  if String.eqb (TagName field) "INPUT" then
    if String.eqb (Type_ field) "submit" || String.eqb (Type_ field) "button"
    then
      match submitButton acc with
      | None => if String.eqb (Type_ field) "submit"
                then set_submit acc element else acc
      | Some _ => acc
      end
    else add_field acc (convertHTMLElementToFormInput field) fieldName element
  else if String.eqb (TagName field) "TEXTAREA" then
    add_field acc (convertHTMLElementToFormTextArea field) fieldName element
  else if String.eqb (TagName field) "SELECT" then
    add_field acc (buildFormSelectWithOptions env field element) fieldName element
  else if String.eqb (TagName field) "BUTTON" then
    match submitButton acc with
    | None => if String.eqb (Type_ field) "submit"
              then set_submit acc element else acc
    | Some _ => acc
    end
  else acc.

Fixpoint scanFields (env : Env) (fields : list HTMLElement) (acc : FormScan)
    : M FormScan :=
  match fields with
  | [] => ret acc
  | field :: rest =>
      if String.eqb (XPath field) "" then scanFields env rest acc
      else
        log (EvElementX (XPath field)) ;;
        match page_elementX env (XPath field) with
        | Val element => scanFields env rest (scanField env field element acc)
        | Fail _ => scanFields env rest acc
        | Panic => panic
        end
  end.

Definition valueSelector (value : string) : string :=
  "[value=" ++ String Html.dquote (value ++ String Html.dquote "]").

(** One round of the callback that applyFormSuggestions iterates with.
    Errors of the element calls are logged, never returned. *)
Definition applySuggestion (elementMap : gmap string Elem)
    (fieldName value : string) : M unit :=
  match elementMap !! fieldName with
  | None => ret tt
  | Some element =>
      if String.eqb value "" then ret tt
      else
        match el_tagName element with
        | Fail _ => ret tt
        | Panic => panic
        | Val tagName =>
            if String.eqb tagName "INPUT" then
              match el_type element with
              | Some inputType =>
                  if String.eqb inputType "checkbox"
                     || String.eqb inputType "radio"
                  then when (String.eqb value "on" || String.eqb value fieldName)
                         (log (EvClick (el_id element)))
                  else log (EvInput (el_id element) value)
              | None => ret tt
              end
            else if String.eqb tagName "TEXTAREA" then
              log (EvInput (el_id element) value)
            else if String.eqb tagName "SELECT" then
              log (EvSelectText (el_id element) value) ;;
              match el_select_text element value with
              | Some _ =>
                  log (EvSelectCSS (el_id element) (valueSelector value))
              | None => ret tt
              end
            else ret tt
        end
  end.

Fixpoint applyFormSuggestions (suggestions_ : list (string * string))
    (elementMap : gmap string Elem) : M unit :=
  match suggestions_ with
  | [] => ret tt
  | (fieldName, value) :: rest =>
      applySuggestion elementMap fieldName value ;;
      applyFormSuggestions rest elementMap
  end.

Definition processForm (env : Env) (form : option HTMLForm) : M unit :=
  do c <- get;
  if negb (AutomaticFormFill (options c)) then ret tt
  else
    match form with
    | None => panic
    | Some form =>
        do scan <- scanFields env (Elements form)
                     {| formFields := []; submitButton := None;
                        elementMap := ∅ |};
        let fillSuggestions := suggestions env (formFields scan) in
        applyFormSuggestions fillSuggestions (elementMap scan) ;;
        match submitButton scan with
        | Some button =>
            log (EvClick (el_id button)) ;; check (el_click button)
        | None => ret tt
        end
    end.

(** *** crawler.go *)

Definition executeCrawlStateAction (env : Env) (action : Action) : M unit :=
  match Type__ action with
  | ActionTypeLoadURL =>
      log (EvNavigate (Input action)) ;;
      check (page_navigate env) ;;
      log EvWaitPageLoad ;;
      check (wait_load env)
  | ActionTypeFillForm => processForm env (Form action)
  | ActionTypeLeftClick | ActionTypeLeftClickDown =>
      match Element action with
      | None => panic
      | Some target =>
          log (EvElementX (XPath target)) ;;
          do element <- lift (page_elementX env (XPath target));
          log (EvScrollIntoView (el_id element)) ;;
          check (el_scroll element) ;;
          do visible <- lift (el_visible element);
          if negb visible then fail ErrElementNotVisible
          else
            match el_interactable element with
            | Panic => panic
            | Fail err =>
                if errors_As err CoveredError then fail ErrElementNotVisible
                else fail err
            | Val false => fail ErrElementNotVisible
            | Val true =>
                log (EvClick (el_id element)) ;;
                check (el_click element) ;;
                log EvWaitPageLoad ;;
                check (wait_load env)
            end
      end
  | ActionTypeOther name => fail (OtherError ("unknown action type: " ++ name))
  end.

(** [(?i)] literals: a letter stands for both of its cases, and [s] also
    for U+017F. *)
Definition ichar (c : ascii) : regex :=
  if Ascii.eqb c "s"
  then alt [Chr (fun x => Ascii.eqb (GoLib.lower_byte x) c);
            lit TextNormalizer.long_s]
  else Chr (fun x => Ascii.eqb (GoLib.lower_byte x) c).

Definition ilit (s : string) : regex := seq (map ichar (B s)).

(** [[\s-]?] *)
Definition sep : regex := opt (Chr (fun c => is_space c || Ascii.eqb c "-")).

Definition logoutPattern : regex :=
  alt [seq [ilit "log"; sep; ilit "out"];
       seq [ilit "sign"; sep; ilit "out"];
       ilit "signout"; ilit "deconnexion";
       seq [ilit "cerrar"; sep; ilit "sesion"];
       ilit "sair"; ilit "abmelden"; ilit "uitloggen"; ilit "ausloggen";
       ilit "exit"; ilit "disconnect"; ilit "terminate";
       seq [ilit "end"; sep; ilit "session"];
       ilit "salir"; ilit "desconectar"; ilit "afmelden"; ilit "wyloguj";
       ilit "logout";
       seq [ilit "sign"; sep; ilit "off"]].

Definition isLogoutPage (element : HTMLElement) : bool :=
  MatchString logoutPattern (B (TextContent element))
  || MatchString logoutPattern (B (default "" (Attributes element !! "href"))).

(** Go's [int] on the 64-bit targets: [consecutiveFailures++]. *)
Definition incr (n : Z) : Z := GoLib.swrap 64 (n + 1).

Definition modify (f : Crawler -> Crawler) : M unit := fun c => (f c, Val tt).

(** queue.Linked.Offer: the linked queue has no capacity, the element goes
    to the back. *)
Definition Offer (a : Action) : M unit :=
  modify (fun c => set_queue c (crawlQueue c ++ [a])).

(** CrawlGraph.AddPageState, a method of package graph: the graph is kept
    as the sequence of page states added to it; the environment tells
    whether the call returns an error. *)
Definition AddPageState (env_answer : option error) (p : PageState) : M unit :=
  log (EvAddPageState p) ;;
  check env_answer ;;
  modify (fun c => set_graph c (crawlGraph c ++ [p])).

(** What one turn of the loop came to. *)
Inductive IterKind : Type :=
| DeadlineReached
| BudgetExhausted
| QueueDrained
| DepthSkipped (a : Action)
| PoolFailed (err : error)
| Ran (a : Action) (r : res unit).

Inductive Control : Type :=
| Continue (consecutiveFailures : Z)
| Return (err : option error)
| Panicked.

(** The result of Crawl; [Running] when the environment list is used up
    before the loop returns. *)
Inductive Result : Type :=
| Returned (err : option error)
| Crashed
| Running.

(** The branches of the loop on the result of crawlFn (lines 242-289). *)
Definition classify (r : res unit) (consecutiveFailures : Z) : Control :=
  match r with
  | Panic => Panicked
  | Val _ => Continue 0
  | Fail err =>
      if error_eqb err ErrNoCrawlingAction then Return None
      else if errors_Is err ErrElementNotVisible
      then Continue (incr consecutiveFailures)
      else if errors_As err NoPointerEventsError
              || errors_As err InvisibleShapeError
      then Continue (incr consecutiveFailures)
      else if errors_As err NavigationError
      then Continue (incr consecutiveFailures)
      else if errors_Is err ErrNoNavigationPossible
      then Continue (incr consecutiveFailures)
      else if errors_As err MaxSleepCountError
      then Continue (incr consecutiveFailures)
      else Continue (incr consecutiveFailures)
  end.

Definition control (k : IterKind) (consecutiveFailures : Z) : Control :=
  match k with
  | DeadlineReached | BudgetExhausted | QueueDrained => Return None
  | DepthSkipped _ => Continue consecutiveFailures
  | PoolFailed err => Return (Some err)
  | Ran _ r => classify r consecutiveFailures
  end.

Section WithActionHash.

(** [Action.Hash] and [emptyPageHash] are declared in files that are not at
    hand; the crawler is stated for any such pair. *)
Variable Hash : Action -> string.
Variable emptyPageHash : string.

(** The loop over the navigations found (lines 382-404). *)
Fixpoint offerNavigations (pageState : PageState) (navigations : list Action)
    : M unit :=
  match navigations with
  | [] => ret tt
  | nav :: rest =>
      do c <- get;
      let actionHash := Hash nav in
      if decide (actionHash ∈ uniqueActions c)
      then offerNavigations pageState rest
      else
        modify (fun c => set_unique c ({[actionHash]} ∪ uniqueActions c)) ;;
        if match Element nav with
           | Some element => isLogoutPage element
           | None => false
           end
        then offerNavigations pageState rest
        else
          let nav := with_OriginID nav (ps_UniqueID pageState) in
          log (EvOffer actionHash nav) ;;
          Offer nav ;;
          offerNavigations pageState rest
  end.

(** crawlFn up to the page state (lines 301-347): align the page with
    the origin of the action, execute the action, capture the state. *)
Definition crawlFn_act (env : Env) (action : Action) : M PageState :=
  log EvGetPageHash ;;
  do currentPageHash <- lift (get_page_hash env);
  do currentPageHash <-
    (if negb (String.eqb (OriginID action) "")
        && negb (String.eqb (OriginID action) currentPageHash)
     then log (EvNavigateBack action currentPageHash) ;;
          lift (navigate_back env)
     else ret currentPageHash);
  do c <- get;
  let diagnostics := EnableDiagnostics (options c) in
  when diagnostics (log (EvLogAction action) ;; check (log_action env)) ;;
  log (EvExecute action) ;;
  executeCrawlStateAction env action ;;
  log (EvNewPageState action) ;;
  do pageState <- lift (new_page_state env);
  when diagnostics
    (log (EvLogPageState pageState) ;; check (log_page_state env)) ;;
  ret (ps_with_OriginID pageState currentPageHash).

(** crawlFn from the scope check on (lines 349-417). *)
Definition crawlFn_harvest (env : Env) (pageState : PageState) : M unit :=
  do c <- get;
  if match ScopeValidator (options c) with
     | Some valid => negb (valid (ps_URL pageState))
     | None => false
     end
  then
    if Nat.eqb (length (crawlQueue c)) 0 then fail ErrNoCrawlingAction
    else ret tt
  else
    log EvFindNavigations ;;
    do navigations <- lift (find_navigations env);
    when (EnableDiagnostics (options c)) (log EvScreenshot) ;;
    offerNavigations pageState navigations ;;
    AddPageState (add_page_state env) pageState ;;
    do c <- get;
    if Nat.eqb (length navigations) 0 && Nat.eqb (length (crawlQueue c)) 0
    then fail ErrNoCrawlingAction
    else ret tt.

Definition crawlFn_body (env : Env) (action : Action) : M unit :=
  do pageState <- crawlFn_act env action;
  crawlFn_harvest env pageState.

(** crawlFn: the deferred PutBrowserToPool runs however the body ends. *)
Definition crawlFn (env : Env) (action : Action) : M unit :=
  fun c =>
    let '(c', r) := crawlFn_body env action c in
    (emit EvPutBrowserToPool c', r).

(** One turn of the [for] loop of Crawl, up to the result of crawlFn. *)
Definition crawl_iter (env : Env) (c : Crawler) (consecutiveFailures : Z)
    : Crawler * IterKind :=
  let opts := options c in
  if (0 <? MaxCrawlDuration opts) && timer_fired env
  then (c, DeadlineReached)
  else if (0 <? MaxFailureCount opts)
          && (MaxFailureCount opts <=? consecutiveFailures)
  then (c, BudgetExhausted)
  else
    match crawlQueue c with
    | [] => (c, QueueDrained)
    | action :: rest =>
        let c := set_queue c rest in
        if (0 <? MaxDepth opts) && (MaxDepth opts <? Depth action)
        then (c, DepthSkipped action)
        else
          let c := emit EvGetPageFromPool c in
          match pool_get env with
          | Some err => (c, PoolFailed err)
          | None =>
              let '(c', r) := crawlFn env action c in
              (c', Ran action r)
          end
    end.

Fixpoint Crawl_loop (envs : list Env) (c : Crawler) (consecutiveFailures : Z)
    : Crawler * Result :=
  match envs with
  | [] => (c, Running)
  | env :: envs' =>
      let '(c', k) := crawl_iter env c consecutiveFailures in
      match control k consecutiveFailures with
      | Continue n => Crawl_loop envs' c' n
      | Return err => (c', Returned err)
      | Panicked => (c', Crashed)
      end
  end.

Definition seedAction (URL : string) : Action :=
  {| Type__ := ActionTypeLoadURL; Input := URL; Element := None; Form := None;
     Depth := 0; OriginID := emptyPageHash |}.

Definition blankState : PageState :=
  {| ps_UniqueID := emptyPageHash; ps_URL := "about:blank"; ps_Depth := 0;
     ps_OriginID := ""; ps_DOM := "" |}.

(** Crawl: [first_add] is the answer to the AddPageState call that installs
    the blank state; [envs] answers the turns of the loop.  The deferred
    drawing of the graph writes a file and is left out. *)
Definition Crawl (first_add : option error) (envs : list Env)
    (c : Crawler) (URL : string) : Crawler * Result :=
  let c := set_graph (set_queue c [seedAction URL]) [] in
  match AddPageState first_add blankState c with
  | (c, Val _) => Crawl_loop envs c 0
  | (c, Fail err) => (c, Returned (Some err))
  | (c, Panic) => (c, Crashed)
  end.

(** crawler.New: a crawler with no action seen yet. *)
Definition New (opts : Options) : Crawler :=
  {| options := opts; crawlQueue := []; crawlGraph := [];
     uniqueActions := ∅; events := [] |}.

End WithActionHash.

(** Modelled from the spec: [Action.Hash] of package types, which is not at
    hand.  Section 3: a stable digest of (type, normalized input or
    selector, originID).  The digest is kept as the tuple written out. *)
Definition Hash_spec (a : Action) : string :=
  (match Type__ a with
   | ActionTypeLoadURL => "load_url"
   | ActionTypeLeftClick => "left_click"
   | ActionTypeLeftClickDown => "left_click_down"
   | ActionTypeFillForm => "fill_form"
   | ActionTypeOther name => name
   end) ++ "|" ++
  (match Element a with
   | Some e => XPath e
   | None => Input a
   end) ++ "|" ++ OriginID a.

End Crawler.

(** ** Vocabulary of the statements about the normalizer *)

Module NormalizerSpec.

Import Html GoLib Normalizer.

(** The byte before the cursor once [cs] has been read. *)
Definition advance (prev : option ascii) (cs : bytes) : option ascii :=
  fold_left (fun _ c => Some c) cs prev.

Definition hex_chars : bytes := B "0123456789abcdefABCDEF".

(** What the rewrite has to do on the escape made of two given digits. *)
Definition escape_ok (c3 c4 : ascii) : bool :=
  let m := "\"%char :: "x"%char :: c3 :: c4 :: [] in
  match ParseInt (TrimPrefix m (B "\x")) 16 32 with
  | (value, None) =>
      (0 <=? value)%Z && (value <? 256)%Z
      && bytes_eqb (replaceHexEscapeSequence m)
           (B "&#x" ++ FormatHex value ++ B ";")
      && negb (bytes_eqb (replaceHexEscapeSequence m) m)
      && (Nat.leb 1 (length (FormatHex value)))
      && (Nat.leb (length (FormatHex value)) 2)
      && forallb (fun c => is_digit c || between 97 102 c) (FormatHex value)
  | (_, Some _) => false
  end.


(** The input of the counterexamples, an e-mail address whose [@] is
    percent-encoded twice, and what the pipeline makes of it. *)
Definition twice_encoded : bytes := B "a%2540b.cc".
Definition once_encoded : bytes := B "a%40b.cc".
Definition once_encoded_document : bytes :=
  B "<html><head></head><body>a%40b.cc</body></html>".
Definition decoded_document : bytes :=
  B "<html><head></head><body>a@b.cc</body></html>".
Definition empty_document : bytes :=
  B "<html><head></head><body></body></html>".

Definition five_calls : list Stage :=
  [CallNormalizeDocument; CallDOMApply; CallStripTextContent; CallTextApply;
   CallNormalizeDocument].

End NormalizerSpec.

(** ** Vocabulary of the statements about the crawler *)

Module CrawlSpec.

Import Crawler.

Local Open Scope Z_scope.


(** The actions a trace shows as executed, as offered to the queue, and
    the hashes under which the offers were registered. *)
Definition executed (evs : list Event) : list Action :=
  omap (fun e => match e with EvExecute a => Some a | _ => None end) evs.

Definition offered (evs : list Event) : list Action :=
  omap (fun e => match e with EvOffer _ a => Some a | _ => None end) evs.


(** Every event that handles an action handles one of depth at most [D]. *)
Definition acts_within (D : Z) (e : Event) : Prop :=
  match e with
  | EvNavigateBack a _ | EvLogAction a | EvExecute a | EvNewPageState a =>
      Depth a <= D
  | _ => True
  end.




(** *** Computations that only add events, and invariants *)

Definition add_events (c : Crawler) (evs : list Event) : Crawler :=
  {| options := options c; crawlQueue := crawlQueue c;
     crawlGraph := crawlGraph c; uniqueActions := uniqueActions c;
     events := events c ++ evs |}.

(** [yields Q R m]: [m] changes the crawler by appending events of class
    [Q] only, and a value it returns satisfies [R]. *)
Definition yields {A} (Q : Event -> Prop) (R : A -> Prop) (m : M A) : Prop :=
  forall c, exists evs,
    (m c).1 = add_events c evs /\ Forall Q evs
    /\ forall a, (m c).2 = Val a -> R a.

Definition anything {A} : A -> Prop := fun _ => True.

Definition inv {A} (Inv : Crawler -> Prop) (m : M A) : Prop :=
  forall c, Inv c -> Inv (m c).1.

(** Calls that reach the page or one of its elements. *)
Definition browser_event (e : Event) : Prop :=
  match e with
  | EvNavigate _ | EvWaitPageLoad | EvElementX _ | EvScrollIntoView _
  | EvClick _ | EvInput _ _ | EvSelectText _ _ | EvSelectCSS _ _ => True
  | _ => False
  end.

(** Events of crawlFn before the scope check, for the action at hand. *)
Definition act_event (action : Action) (e : Event) : Prop :=
  match e with
  | EvGetPageHash | EvLogPageState _ => True
  | EvNavigateBack a _ | EvLogAction a | EvExecute a | EvNewPageState a =>
      a = action
  | _ => browser_event e
  end.

(** No action deeper than [D] has been acted on, under options [o]. *)
Definition shallow (o : Options) (D : Z) (c : Crawler) : Prop :=
  options c = o /\ Forall (acts_within D) (events c).

(** *** Scenarios *)

Local Open Scope string_scope.

Definition no_element : string -> res Elem :=
  fun _ => Fail (OtherError "element not found").

Definition landing : PageState :=
  {| ps_UniqueID := "state-1"; ps_URL := "http://site/"; ps_Depth := 0;
     ps_OriginID := ""; ps_DOM := "<html></html>" |}.

(** A turn in which every call succeeds and the page shows [navigations]. *)
Definition turn (state : PageState) (navigations : list Action) : Env :=
  {| timer_fired := false; pool_get := None;
     get_page_hash := Val "blank"; navigate_back := Val "blank";
     log_action := None; page_navigate := None; wait_load := None;
     page_elementX := no_element; suggestions := fun _ => [];
     placeholder := "placeholder";
     new_page_state := Val state; log_page_state := None;
     find_navigations := Val navigations; add_page_state := None |}.

(** A turn in which the navigation is cancelled with the crawl context. *)
Definition cancelled_turn : Env :=
  {| timer_fired := false; pool_get := None;
     get_page_hash := Val "blank"; navigate_back := Val "blank";
     log_action := None; page_navigate := Some ContextCanceled;
     wait_load := None;
     page_elementX := no_element; suggestions := fun _ => [];
     placeholder := "placeholder";
     new_page_state := Val landing; log_page_state := None;
     find_navigations := Val []; add_page_state := None |}.

(** A turn in which the pool hands out no page. *)
Definition pool_failure : Env :=
  {| timer_fired := false; pool_get := Some (OtherError "no page");
     get_page_hash := Val "blank"; navigate_back := Val "blank";
     log_action := None; page_navigate := None; wait_load := None;
     page_elementX := no_element; suggestions := fun _ => [];
     placeholder := "placeholder";
     new_page_state := Val landing; log_page_state := None;
     find_navigations := Val []; add_page_state := None |}.

Definition plain_options : Options :=
  {| MaxDepth := 0; MaxCrawlDuration := 0; MaxFailureCount := 0;
     AutomaticFormFill := true; EnableDiagnostics := false;
     ScopeValidator := None |}.

Definition with_scope (valid : string -> bool) : Options :=
  {| MaxDepth := 0; MaxCrawlDuration := 0; MaxFailureCount := 0;
     AutomaticFormFill := true; EnableDiagnostics := false;
     ScopeValidator := Some valid |}.

Definition with_limits (maxDepth maxFailureCount : Z) : Options :=
  {| MaxDepth := maxDepth; MaxCrawlDuration := 0;
     MaxFailureCount := maxFailureCount;
     AutomaticFormFill := true; EnableDiagnostics := false;
     ScopeValidator := None |}.

Definition load (url : string) (depth : Z) (origin : string) : Action :=
  {| Type__ := ActionTypeLoadURL; Input := url; Element := None;
     Form := None; Depth := depth; OriginID := origin |}.

(** A crawler in mid-crawl with the given queue. *)
Definition queued (opts : Options) (queue : list Action) : Crawler :=
  {| options := opts; crawlQueue := queue; crawlGraph := [];
     uniqueActions := ∅; events := [] |}.

(** A live INPUT element with the given type attribute, if any. *)
Definition input_element (id : string) (type_ : option string) : Elem :=
  {| el_id := id; el_tagName := Val "INPUT"; el_type := type_;
     el_click := None; el_input := fun _ => None;
     el_select_text := fun _ => None; el_select_css := fun _ => None;
     el_options := Val []; el_scroll := None; el_visible := Val true;
     el_interactable := Val true |}.

End CrawlSpec.

(** ** The headless engine (pkg/engine/headless/headless.go) *)

Module Headless.

(** The fields of navigation.Request, navigation.Response and
    output.Result that headless.go reads or writes; [Other] stands for the
    fields of a response that it leaves alone.  The pointers of a result
    may be nil. *)
Record Request : Type := { URL : string }.

Record Response : Type := { Raw : string; Body : string; Other : string }.

Record Result : Type := {
  Request_ : option Request;
  Response_ : option Response
}.

(** The calls that leave the engine: the response parser, and the output
    writer from the loop over the navigation requests and for the result
    itself. *)
Inductive Event : Type :=
| EvParseResponse (resp : option Response)
| EvWriteNavigation (r : Result)
| EvWriteResult (r : Result).

(** The answers of the outside world during one call of the request
    callback: what the response parser returns, and the error of
    [deduplicator.Set], if any. *)
Record Env : Type := {
  parse_response : list Request;
  dedup_set : string -> option string
}.

Record Headless : Type := {
  deduplicator : gset string;
  trace : list Event
}.

(** New: a fresh deduplicator. *)
Definition New : Headless := {| deduplicator := ∅; trace := [] |}.

Definition emit (e : Event) (h : Headless) : Headless :=
  {| deduplicator := deduplicator h; trace := trace h ++ [e] |}.

Definition remember (url : string) (h : Headless) : Headless :=
  {| deduplicator := {[url]} ∪ deduplicator h; trace := trace h |}.

Section Scope.

(** [*url.URL] with [url.Parse] and [Hostname], and the scope manager's
    [Validate], which returns a verdict and an error. *)
Variable ParsedURL : Type.
Variable url_Parse : string -> option ParsedURL.
Variable Hostname : ParsedURL -> string.

Definition ScopeManager : Type := ParsedURL -> string -> bool * option string.

Definition validateScopeFunc (manager : option ScopeManager) (URL : string)
    : string -> bool :=
  match url_Parse URL with
  | None => fun _ => true
  | Some parsedURL =>
      let rootHostname := Hostname parsedURL in
      fun s =>
        match manager with
        | None => true
        | Some manager =>
            match url_Parse s with
            | None => false
            | Some parsed =>
                match manager parsed rootHostname with
                | (_, Some _) => false
                | (validated, None) => validated
                end
            end
        end
  end.

End Scope.

(** One round of the loop of performAdditionalAnalysis. *)
Definition analyse (env : Env) (acc : Headless * list Result) (resp : Request)
    : Headless * list Result :=
  let '(h, navigationRequests) := acc in
  if decide (URL resp ∈ deduplicator h) then acc
  else
    match dedup_set env (URL resp) with
    | Some _ => acc
    | None =>
        (remember (URL resp) h,
         navigationRequests ++ [{| Request_ := Some resp; Response_ := None |}])
    end.

Definition performAdditionalAnalysis (env : Env) (rr : Result) (h : Headless)
    : Headless * list Result :=
  fold_left (analyse env) (parse_response env)
    (emit (EvParseResponse (Response_ rr)) h, []).

Definition blanked (resp : Response) : Response :=
  {| Raw := ""%string; Body := ""%string; Other := Other resp |}.

(** The RequestCallback that Crawl hands to the crawler; errors of the
    output writer are logged and dropped. *)
Definition RequestCallback (scopeValidator : option (string -> bool))
    (env : Env) (rr : option Result) (h : Headless) : Headless :=
  match rr with
  | None => h
  | Some rr =>
      match Request_ rr with
      | None => h
      | Some request =>
          if match scopeValidator with
             | Some valid => negb (valid (URL request))
             | None => false
             end
          then h
          else
            let '(h, navigationRequests) := performAdditionalAnalysis env rr h in
            let h :=
              fold_left (fun h req => emit (EvWriteNavigation req) h)
                navigationRequests h in
            emit (EvWriteResult {| Request_ := Request_ rr;
                                   Response_ := blanked <$> Response_ rr |}) h
      end
  end.

(** The options of the engine that Crawl copies into the crawler's. *)
Record EngineOptions : Type := {
  opt_MaxDepth : Z;
  opt_CrawlDuration : Z;
  opt_MaxFailureCount : Z;
  opt_AutomaticFormFill : bool;
  opt_EnableDiagnostics : bool
}.

Definition crawlOpts (o : EngineOptions) (scopeValidator : string -> bool)
    : Crawler.Options :=
  {| Crawler.MaxDepth := opt_MaxDepth o;
     Crawler.MaxCrawlDuration := opt_CrawlDuration o;
     Crawler.MaxFailureCount := opt_MaxFailureCount o;
     Crawler.AutomaticFormFill := opt_AutomaticFormFill o;
     Crawler.EnableDiagnostics := opt_EnableDiagnostics o;
     Crawler.ScopeValidator := Some scopeValidator |}.

(** Headless.Crawl: [new_error] is the error of crawler.New, if any (the
    launcher and the diagnostics writer are made there); the calls of the
    debugger are left out.  Returns the crawler, if one was made, and what
    Crawl returns. *)
Definition Crawl {ParsedURL : Type} (url_Parse : string -> option ParsedURL)
    (Hostname : ParsedURL -> string) (manager : option (ScopeManager ParsedURL))
    (Hash : Crawler.Action -> string) (emptyPageHash : string)
    (o : EngineOptions) (new_error first_add : option Crawler.error)
    (envs : list Crawler.Env) (URL : string)
    : option Crawler.Crawler * Crawler.Result :=
  let scopeValidator := validateScopeFunc ParsedURL url_Parse Hostname manager URL in
  match new_error with
  | Some err => (None, Crawler.Returned (Some err))
  | None =>
      let '(c, r) :=
        Crawler.Crawl Hash emptyPageHash first_add envs
          (Crawler.New (crawlOpts o scopeValidator)) URL in
      (Some c, r)
  end.

End Headless.

(** ** The hybrid engine (pkg/engine/hybrid/hybrid.go) *)

Module Hybrid.

(** The fields of navigation.Request that Do reads. *)
Record Request : Type := { URL : string; SkipValidation : bool }.

(** What the queue hands out: a request, or a value of another type. *)
Inductive Item : Type :=
| ItemRequest (req : Request)
| ItemOther.

(** A response as Do looks at it: whether [Resp] and [Reader] are set, and
    what [IsRedirect] says. *)
Record Response : Type := {
  has_Resp : bool;
  has_Reader : bool;
  IsRedirect : bool
}.

(** The options Do reads and the functions it calls on them: [utils.IsURL],
    [ValidatePath] and, for the host name of the session, [ValidateScope],
    which returns a verdict and an error. *)
Record Options : Type := {
  IsURL : string -> bool;
  ValidatePath : string -> bool;
  ValidateScope : string -> bool * option string;
  OnSkipURL : bool;
  Delay : Z;
  DisableRedirects : bool
}.

(** The answers of the outside world while one item is handled: the error
    of the session's context, what [doRequest] returns, and what the
    response parser finds. *)
Record Env : Type := {
  ctx_err : option string;
  do_request : option Response * option string;
  parse_response : list Request
}.

Inductive Event : Type :=
| EvOnSkipURL (url : string)
| EvRateLimitTake
| EvSleep (seconds : Z)
| EvDoRequest (req : Request)
| EvOutput (req : Request) (resp : option Response) (err : option string)
| EvWriteErr (req : Request) (err : string)
| EvEnqueue (reqs : list Request).

(** The body of the loop for one item: the calls made, and the error
    returned if the loop ends here. *)
Definition Do_item (o : Options) (env : Env) (item : Item)
    : list Event * option string :=
  match ctx_err env with
  | Some ctxErr => ([], Some ctxErr)
  | None =>
      match item with
      | ItemOther => ([], None)
      | ItemRequest req =>
          if negb (IsURL o (URL req)) then
            (if OnSkipURL o then [EvOnSkipURL (URL req)] else [], None)
          else if negb (ValidatePath o (URL req)) then ([], None)
          else
            match ValidateScope o (URL req) with
            | (_, Some _) => ([], None)
            | (inScope, None) =>
                if negb (SkipValidation req) && negb inScope then ([], None)
                else
                  let '(resp, err) := do_request env in
                  let before :=
                    [EvRateLimitTake]
                    ++ (if (0 <? Delay o)%Z then [EvSleep (Delay o)] else [])
                    ++ [EvDoRequest req]
                    ++ (if inScope then [EvOutput req resp err] else []) in
                  match err with
                  | Some err => (before ++ [EvWriteErr req err], None)
                  | None =>
                      match resp with
                      | None => (before, None)
                      | Some resp =>
                          if negb (has_Resp resp) || negb (has_Reader resp)
                          then (before, None)
                          else if DisableRedirects o && IsRedirect resp
                          then (before, None)
                          else (before ++ [EvEnqueue (parse_response env)], None)
                      end
                  end
            end
      end
  end.

(** Do over the items that the queue hands out, each with the answers of
    the world at that time; the loop ends when the queue is closed. *)
Fixpoint Do (o : Options) (items : list (Env * Item))
    : list Event * option string :=
  match items with
  | [] => ([], None)
  | (env, item) :: rest =>
      match Do_item o env item with
      | (evs, Some err) => (evs, Some err)
      | (evs, None) =>
          let '(evs', r) := Do o rest in (evs ++ evs', r)
      end
  end.

End Hybrid.

(** ** Vocabulary of the statements about the matcher *)

Module RegexpSpec.

(** The 256 byte values. *)
Definition all_bytes : bytes := map ascii_of_nat (List.seq 0 256).

(** Every byte of class [p] is of class [q]. *)
Definition class_within (p q : ascii -> bool) : bool :=
  forallb (fun c => implb (p c) (q c)) all_bytes.

(** [needs q r]: a sufficient test that every match of [r] holds a byte of
    class [q]. *)
Fixpoint needs (q : ascii -> bool) (r : regex) : bool :=
  match r with
  | Eps | WordB => false
  | Chr p => class_within p q
  | Cat a b => needs q a || needs q b
  | Alt a b => needs q a && needs q b
  | Rep a lo _ => negb (Nat.eqb lo 0) && needs q a
  end.

(** The continuation of [match_here]: any rest of the input will do. *)
Definition accept : cont := fun _ rest => Some rest.

End RegexpSpec.

(** ** Vocabulary of the statements about normalizeDocument *)

Module TextSpec.

Import GoLib Normalizer.

(** Bytes that mark the tokens of the default patterns: each of them has a
    digit, an [@] or a [-] in every match. *)
Definition marker (c : ascii) : bool :=
  is_digit c || Ascii.eqb c "@" || Ascii.eqb c "-".

(** ASCII bytes that lower-casing, the hex-escape rewrite, entity decoding
    and query unescaping hand on as they are. *)
Definition inert (c : ascii) : bool :=
  between 0 127 c && negb (is_upper c) && negb (one_of "\&%+" c).

(** Bytes that reach the query unescape as they came in. *)
Definition untouched (c : ascii) : bool :=
  between 0 127 c && negb (is_upper c) && negb (one_of "\&" c).

Definition word_byte (c : ascii) : bool := inert c && negb (is_space c).

(** As [word_byte], with [%] and [+] admitted. *)
Definition query_byte (c : ascii) : bool :=
  between 0 127 c && negb (is_upper c) && negb (one_of "\&" c)
  && negb (is_space c).

Definition line_break (c : ascii) : bool :=
  Ascii.eqb c "013" || Ascii.eqb c "010".

Definition blank (c : ascii) : bool := is_space c && negb (line_break c).

(** The code point that entity decoding makes of the numeric reference
    with value [v]. *)
Definition reference_rune (v : Z) : Z :=
  if ((128 <=? v) && (v <=? 159))%Z
  then nth (Z.to_nat (v - 128)) replacementTable RuneError
  else if (v =? 0)%Z then RuneError else v.

(** Steps two and three of normalizeDocument on the escape made of two
    given digits. *)
Definition hex_decodes (T : Tables) (h1 h2 : ascii) : bool :=
  bytes_eqb
    (UnescapeString T
       (convertHexEscapeSequencesToEntities
          ("\"%char :: "x"%char :: h1 :: h2 :: [])))
    (EncodeRune (reference_rune (16 * unhex h1 + unhex h2))).

End TextSpec.

(** ** Vocabulary of the statements about the hex escapes *)

Module EscapeSpec.

Import Normalizer.

(** The text starts with a hex escape: a backslash, an [x] and two hex
    digits. *)
Definition starts_escape (s : bytes) : bool :=
  match s with
  | c1 :: c2 :: c3 :: c4 :: _ =>
      Ascii.eqb c1 "\" && Ascii.eqb c2 "x" && is_hex c3 && is_hex c4
  | _ => false
  end.

(** The rewrite of the hex escapes from some place of the text on. *)
Definition convert_from (prev : option ascii) (s : bytes) : bytes :=
  replace_from pattern (fun m => replaceHexEscapeSequence m) 0 prev s.

End EscapeSpec.

(** ** Vocabulary of the statements about the pipeline on prose *)

Module ProseSpec.

Import GoLib Normalizer.

(** Plain prose: ASCII bytes other than NUL, the digits and the bytes
    that mean something to one of the stages: backslash, ampersand,
    percent and plus sign to the decoders, angle brackets and quotes to
    the parser and the renderer, [@] and [-] to the default patterns. *)
Definition prose_byte (c : ascii) : bool :=
  between 1 127 c && negb (one_of "\&%+<>'@-" c)
  && negb (Ascii.eqb c Html.dquote) && negb (is_digit c).

(** Prose in lower case. *)
Definition lower_prose (c : ascii) : bool :=
  prose_byte c && negb (is_upper c).



End ProseSpec.

(** ** Vocabulary of the statements about the DOM transformations *)

Module DomSpec.

Import Html Normalizer.

(** No element with one of the listed tags has a text node among its
    children, anywhere in the tree. *)
Fixpoint stripped (n : Node) : bool :=
  match n with
  | TextNode _ => true
  | ElementNode tag _ children =>
      (if tag_in strippedTags tag
       then forallb (fun c => negb (is_text c)) children
       else true)
      && forallb stripped children
  end.

(** The elements of a tree with their tags and attributes, its text nodes
    left out. *)
Fixpoint skeleton (n : Node) : list Node :=
  match n with
  | TextNode _ => []
  | ElementNode tag attr children =>
      [ElementNode tag attr (flat_map skeleton children)]
  end.

(** The text nodes of a tree in document order; with [outside] only those
    whose parent is none of the listed elements ([listed] tells whether
    the parent of [n] is one). *)
Fixpoint text_of (outside listed : bool) (n : Node) : list bytes :=
  match n with
  | TextNode d => if outside && listed then [] else [d]
  | ElementNode tag _ children =>
      flat_map (text_of outside (tag_in strippedTags tag)) children
  end.

End DomSpec.

(** ** Vocabulary of the statements about the traces of a crawl *)

Module CrawlTraces.

Import Crawler CrawlSpec.

(** The calls to the page pool in a trace. *)
Inductive PoolCall : Type := PoolGet | PoolPut.

Definition pool_calls (evs : list Event) : list PoolCall :=
  omap (fun e => match e with
                 | EvGetPageFromPool => Some PoolGet
                 | EvPutBrowserToPool => Some PoolPut
                 | _ => None
                 end) evs.

(** [k] times a page taken and put back. *)
Definition rounds (k : nat) : list PoolCall :=
  concat (repeat [PoolGet; PoolPut] k).

(** The action has no element, or one that does not look like a logout
    control. *)
Definition not_logout (a : Action) : Prop :=
  match Element a with
  | Some element => isLogoutPage element = false
  | None => True
  end.

Definition logout_free (e : Event) : Prop :=
  match e with
  | EvOffer _ a | EvExecute a => not_logout a
  | _ => True
  end.

(** The URL of the page state passes the scope validator, if there is
    one. *)
Definition in_scope (o : Options) (p : PageState) : Prop :=
  match ScopeValidator o with
  | Some valid => valid (ps_URL p) = true
  | None => True
  end.

(** The graph starts with the blank state and goes on with states in
    scope. *)
Definition rooted (emptyPageHash : string) (o : Options) (c : Crawler) : Prop :=
  options c = o
  /\ exists rest, crawlGraph c = blankState emptyPageHash :: rest
                  /\ Forall (in_scope o) rest.

(** Queue and trace hold no action that looks like a logout. *)
Definition clean (c : Crawler) : Prop :=
  Forall not_logout (crawlQueue c) /\ Forall logout_free (events c).

End CrawlTraces.

(** ** Vocabulary of the statements about the order of the actions *)

Module QueueSpec.

Import Crawler CrawlSpec.

(** [m] changes the crawler by appending events that [P] holds of. *)
Definition emits {A} (P : list Event -> Prop) (m : M A) : Prop :=
  forall c, exists evs, (m c).1 = add_events c evs /\ P evs.

(** Events that are neither an execution nor an offer. *)
Definition silent (e : Event) : Prop :=
  match e with
  | EvExecute _ | EvOffer _ _ => False
  | _ => True
  end.

(** No offer and at most [k] executions, all of them of [action]. *)
Definition runs_at_most (action : Action) (k : nat) (evs : list Event) : Prop :=
  offered evs = []
  /\ exists j, (j <= k)%nat /\ executed evs = repeat action j.

(** The queue holds what is left of the seed and the offers, in their
    order, and the executed actions are among those taken off, in their
    order. *)
Definition in_order (seed : Action) (c : Crawler) : Prop :=
  exists done,
    done ++ crawlQueue c = seed :: offered (events c)
    /\ sublist (executed (events c)) done.

(** The same in the middle of a turn, with the executions fixed. *)
Definition harvesting (seed : Action) (done executions : list Action)
    (c : Crawler) : Prop :=
  done ++ crawlQueue c = seed :: offered (events c)
  /\ executed (events c) = executions.

End QueueSpec.

(** ** Vocabulary of the statements about the errors of a crawl *)

Module QuietSpec.

Import Crawler CrawlSpec.

(** Classes of errors: the package's own sentinel, and all of them. *)
Definition sentinel (e : error) : Prop := e = ErrNoCrawlingAction.

Definition any_error (e : error) : Prop := True.

(** Answers of the outside world that are no error of class [bad]. *)
Definition free_of {A} (bad : error -> Prop) (r : res A) : Prop :=
  forall e, r = Fail e -> ~ bad e.

Definition nil_or_not (bad : error -> Prop) (r : option error) : Prop :=
  forall e, r = Some e -> ~ bad e.

Definition sentinel_free {A} (r : res A) : Prop := free_of sentinel r.

Definition no_sentinel (r : option error) : Prop := nil_or_not sentinel r.

Definition quiet_element (el : Elem) : Prop :=
  no_sentinel (el_click el) /\ no_sentinel (el_scroll el)
  /\ sentinel_free (el_visible el) /\ sentinel_free (el_interactable el).

Definition quiet_submit (scan : FormScan) : Prop :=
  match submitButton scan with
  | Some button => quiet_element button
  | None => True
  end.

(** A turn in which the deadline timer has not fired and no call of the
    browser, the pool, the graph or the diagnostics writer answers with
    the sentinel. *)
Definition quiet (env : Env) : Prop :=
  timer_fired env = false
  /\ sentinel_free (get_page_hash env)
  /\ sentinel_free (navigate_back env)
  /\ no_sentinel (log_action env)
  /\ no_sentinel (page_navigate env)
  /\ no_sentinel (wait_load env)
  /\ (forall xpath, sentinel_free (page_elementX env xpath))
  /\ (forall xpath el, page_elementX env xpath = Val el -> quiet_element el)
  /\ sentinel_free (new_page_state env)
  /\ no_sentinel (log_page_state env)
  /\ sentinel_free (find_navigations env)
  /\ no_sentinel (add_page_state env).

(** [m] returns no error of class [bad], and a value it returns
    satisfies [R]. *)
Definition avoids {A} (bad : error -> Prop) (R : A -> Prop) (m : M A) : Prop :=
  forall c, free_of bad (m c).2 /\ forall a, (m c).2 = Val a -> R a.

(** [m] returns the sentinel only with an empty queue. *)
Definition guarded {A} (m : M A) : Prop :=
  forall c, (m c).2 = Fail ErrNoCrawlingAction -> crawlQueue (m c).1 = [].

End QuietSpec.

(** ** Vocabulary of the statements about forms and clicks *)

Module FormSpec.

Import Crawler CrawlSpec.

Local Open Scope string_scope.

(** The live element [button] was found for a field of the form that is a
    submit control. *)
Definition submit_field (env : Env) (fields : list HTMLElement)
    (button : Elem) : Prop :=
  exists field,
    field ∈ fields
    /\ page_elementX env (XPath field) = Val button
    /\ Type_ field = "submit"
    /\ (TagName field = "INPUT" \/ TagName field = "BUTTON").

Definition submit_from (env : Env) (fields : list HTMLElement)
    (scan : FormScan) : Prop :=
  match submitButton scan with
  | Some button => submit_field env fields button
  | None => True
  end.

(** The element of a click action is ready to be clicked. *)
Definition clickable (element : Elem) : Prop :=
  el_scroll element = None /\ el_visible element = Val true
  /\ el_interactable element = Val true.

(** The element is hidden, or it is covered or has no point to click
    at. *)
Definition blocked (element : Elem) : Prop :=
  el_visible element = Val false
  \/ el_visible element = Val true
     /\ (el_interactable element = Val false
         \/ exists err, el_interactable element = Fail err
                        /\ errors_As err CoveredError = true).

Definition clicks (evs : list Event) : list string :=
  omap (fun e => match e with EvClick el => Some el | _ => None end) evs.

End FormSpec.

(** ** Vocabulary of the statements about the logout pattern *)

Module LogoutSpec.

Import Crawler NormalizerSpec.

(** The words of [logoutPattern] that stand alone, and the pairs that an
    optional [[\s-]] joins. *)
Definition logoutWords : list string :=
  ["signout"; "deconnexion"; "sair"; "abmelden"; "uitloggen"; "ausloggen";
   "exit"; "disconnect"; "terminate"; "salir"; "desconectar"; "afmelden";
   "wyloguj"; "logout"]%string.

Definition logoutPairs : list (string * string) :=
  [("log", "out"); ("sign", "out"); ("cerrar", "sesion"); ("end", "session");
   ("sign", "off")]%string.

Definition separators : bytes := ["009"; "010"; "012"; "013"; " "; "-"]%char.

(** [p] is one of the words, or one of the pairs joined by nothing or by
    one separator. *)
Definition is_logout_phrase (p : bytes) : bool :=
  existsb (fun w => bytes_eqb p (B w)) logoutWords
  || existsb (fun ab : string * string =>
                bytes_eqb p (B (fst ab) ++ B (snd ab))
                || existsb (fun c => bytes_eqb p (B (fst ab) ++ c :: B (snd ab)))
                     separators)
       logoutPairs.

(** [r] matches [w] wherever it stands, whatever follows, if only the rest
    of the pattern matches what follows. *)
Definition accepts (r : regex) (w : bytes) : Prop :=
  forall prev post k,
    (exists rest, k (advance prev w) post = Some rest) ->
    exists rest, run r prev (w ++ post) k = Some rest.

End LogoutSpec.

(** ** Vocabulary of the statements about the headless engine *)

Module HeadlessSpec.

Import Headless.

(** The URLs of the navigation results written. *)
Definition navigation_urls (evs : list Event) : list string :=
  omap (fun e => match e with
                 | EvWriteNavigation r => URL <$> Request_ r
                 | _ => None
                 end) evs.

Definition result_urls (rs : list Result) : list string :=
  omap (fun r => URL <$> Request_ r) rs.

(** What the output writer is given: a navigation result is a request and
    nothing else; a result has a request in scope and a response without
    raw text and body. *)
Definition written_ok (scopeValidator : option (string -> bool)) (e : Event)
    : Prop :=
  match e with
  | EvParseResponse _ => True
  | EvWriteNavigation r => Response_ r = None /\ Request_ r <> None
  | EvWriteResult r =>
      (exists request,
         Request_ r = Some request
         /\ match scopeValidator with
            | Some valid => valid (URL request) = true
            | None => True
            end)
      /\ match Response_ r with
         | Some resp => Raw resp = ""%string /\ Body resp = ""%string
         | None => True
         end
  end.

(** The navigation results written so far have different URLs, all of
    them remembered. *)
Definition deduplicated (scopeValidator : option (string -> bool))
    (h : Headless) : Prop :=
  NoDup (navigation_urls (trace h))
  /\ (forall u, u ∈ navigation_urls (trace h) -> u ∈ deduplicator h)
  /\ Forall (written_ok scopeValidator) (trace h).

(** A sequence of calls of the callback. *)
Definition callbacks (scopeValidator : option (string -> bool))
    (calls : list (Env * option Result)) (h : Headless) : Headless :=
  fold_left (fun h call => RequestCallback scopeValidator call.1 call.2 h)
    calls h.

End HeadlessSpec.

(** ** Vocabulary of the statements about the hybrid engine *)

Module HybridSpec.

Import Hybrid.

(** What the filters of the loop let through: a request is sent only if
    it is a URL on an admitted path whose scope check ran without error
    and said yes, or was waived; it is reported to the output only if the
    check said yes. *)
Definition admitted (o : Options) (e : Event) : Prop :=
  match e with
  | EvDoRequest req =>
      IsURL o (URL req) = true /\ ValidatePath o (URL req) = true
      /\ exists inScope, ValidateScope o (URL req) = (inScope, None)
                         /\ (SkipValidation req = true \/ inScope = true)
  | EvOutput req _ _ => ValidateScope o (URL req) = (true, None)
  | EvOnSkipURL url => IsURL o url = false
  | _ => True
  end.

Definition requests (evs : list Event) : list Request :=
  omap (fun e => match e with EvDoRequest req => Some req | _ => None end) evs.

Definition outputs (evs : list Event) : list Request :=
  omap (fun e => match e with EvOutput req _ _ => Some req | _ => None end) evs.

End HybridSpec.

(** * Properties *)

(** ** The matcher *)

Module RegexpFacts.

(** Whatever the continuation is handed lies at least [min_len r] bytes
    further on. *)
Lemma run_consumes (r : regex) :
  forall prev s k rest,
    run r prev s k = Some rest ->
    exists p' s', k p' s' = Some rest
                  /\ (length s' + min_len r <= length s)%nat.
Proof.
  induction r as [|p|a IHa b IHb|a IHa b IHb|a IHa lo hi|];
    intros prev s k rest H; cbn [run min_len] in *.
  - exists prev, s. split; [assumption|lia].
  - destruct s as [|c s]; [discriminate|].
    destruct (p c); [|discriminate].
    exists (Some c), s. split; [assumption|simpl; lia].
  - destruct (IHa _ _ _ _ H) as (p1 & s1 & H1 & L1).
    destruct (IHb _ _ _ _ H1) as (p2 & s2 & H2 & L2).
    exists p2, s2. split; [assumption|lia].
  - destruct (run a prev s k) as [r|] eqn:Ha.
    + injection H as ->. destruct (IHa _ _ _ _ Ha) as (p1 & s1 & H1 & L1).
      exists p1, s1. split; [assumption|lia].
    + destruct (IHb _ _ _ _ H) as (p1 & s1 & H1 & L1).
      exists p1, s1. split; [assumption|lia].
  - enough (Hrep : forall fuel lo hi prev s,
               rep (run a) fuel lo hi prev s k = Some rest ->
               exists p' s', k p' s' = Some rest
                 /\ (length s' + lo * min_len a <= length s)%nat)
      by (exact (Hrep _ _ _ _ _ H)).
    clear lo hi prev s H.
    induction fuel as [|fuel IHf]; intros lo hi prev s H; cbn [rep] in H.
    + destruct (Nat.eqb_spec lo 0); [|discriminate]. subst lo.
      exists prev, s. split; [assumption|simpl; lia].
    + assert (Hstop : (if Nat.eqb lo 0 then k prev s else None) = Some rest ->
                      exists p' s', k p' s' = Some rest
                        /\ (length s' + lo * min_len a <= length s)%nat).
      { destruct (Nat.eqb_spec lo 0); [|discriminate]. subst lo. intros Hk.
        exists prev, s. split; [assumption|simpl; lia]. }
      match type of H with
      | match ?more with _ => _ end = _ => destruct more as [r|] eqn:Hmore
      end; [|now apply Hstop].
      injection H as ->.
      assert (Hstep : run a prev s
                (fun p' s' =>
                   if Nat.ltb (length s') (length s)
                   then rep (run a) fuel (Nat.pred lo) (Nat.pred <$> hi) p' s' k
                   else None) = Some rest).
      { destruct hi as [[|h]|]; [discriminate|exact Hmore|exact Hmore]. }
      destruct (IHa _ _ _ _ Hstep) as (p1 & s1 & H1 & L1).
      destruct (Nat.ltb (length s1) (length s)); [|discriminate].
      destruct (IHf _ _ _ _ H1) as (p2 & s2 & H2 & L2).
      exists p2, s2. split; [assumption|].
      destruct lo; simpl in *; lia.
  - destruct (xorb _ _); [|discriminate].
    exists prev, s. split; [assumption|lia].
Qed.

(** A match is at least [min_len r] bytes long and does not reach beyond
    the input. *)
Lemma match_here_length (r : regex) (prev : option ascii) (s : bytes)
    (n : nat) :
  match_here r prev s = Some n -> (min_len r <= n <= length s)%nat.
Proof.
  unfold match_here.
  destruct (run r prev s (fun _ rest => Some rest)) as [rest|] eqn:H;
    [|discriminate].
  intros [= <-]. destruct (run_consumes r _ _ _ _ H) as (p' & s' & [= ->] & L).
  lia.
Qed.

(** None of the patterns of the two packages matches the empty string. *)
Lemma patterns_consume :
  Forall (fun r => (1 <= min_len r)%nat)
    (Normalizer.whiteSpacesRegex :: Normalizer.pattern
     :: Crawler.logoutPattern :: TextNormalizer.DefaultTextPatterns).
Proof. repeat constructor. Qed.

End RegexpFacts.

(** ** The hex-escape rewrite *)

Module HexEscapeFacts.

Import GoLib Normalizer NormalizerSpec.

Lemma is_hex_cases (c : ascii) : is_hex c = true -> In c hex_chars.
Proof.
  destruct c as [b0 b1 b2 b3 b4 b5 b6 b7].
  destruct b0, b1, b2, b3, b4, b5, b6, b7; vm_compute; intros H;
    try discriminate H; clear H;
    repeat (first [left; reflexivity | right]).
Qed.

Lemma bytes_eqb_eq (a b : bytes) : bytes_eqb a b = true <-> a = b.
Proof.
  revert b; induction a as [|x a IH]; intros [|y b]; simpl; split;
    try congruence; try discriminate.
  - intros H. apply andb_true_iff in H as [Hx Hab].
    apply Ascii.eqb_eq in Hx. apply IH in Hab. congruence.
  - intros [= -> ->]. rewrite Ascii.eqb_refl. simpl. now apply IH.
Qed.

Lemma escape_ok_all :
  forallb (fun c3 => forallb (escape_ok c3) hex_chars) hex_chars = true.
Proof. vm_compute. reflexivity. Qed.

Lemma escape_ok_hex (c3 c4 : ascii) :
  is_hex c3 = true -> is_hex c4 = true -> escape_ok c3 c4 = true.
Proof.
  intros H3 H4.
  pose proof escape_ok_all as Hall.
  rewrite forallb_forall in Hall.
  specialize (Hall c3 (is_hex_cases c3 H3)).
  rewrite forallb_forall in Hall.
  exact (Hall c4 (is_hex_cases c4 H4)).
Qed.

(** [p{n}] reads exactly [n] bytes of the class or fails. *)
Lemma rep_chr_exact (p : ascii -> bool) (n : nat) :
  forall fuel prev s k,
    (length s <= fuel)%nat ->
    rep (run (Chr p)) fuel n (Some n) prev s k =
    if Nat.leb n (length s) && forallb p (take n s)
    then k (advance prev (take n s)) (drop n s) else None.
Proof.
  induction n as [|n IH]; intros fuel prev s k Hfuel.
  - destruct fuel; simpl; rewrite ?take_0, ?drop_0; reflexivity.
  - destruct fuel as [|fuel].
    + destruct s; [reflexivity | simpl in Hfuel; lia].
    + cbn [rep run fmap option_fmap option_map Nat.pred Nat.eqb].
      destruct s as [|c s]; [reflexivity|].
      cbn [take drop forallb length Nat.leb advance fold_left].
      destruct (p c); [|destruct (Nat.leb n (length s)); reflexivity].
      cbn [andb].
      assert (Hlt : Nat.ltb (length s) (S (length s)) = true)
        by (apply Nat.ltb_lt; lia).
      rewrite Hlt. simpl in Hfuel.
      rewrite IH by lia. unfold advance.
      destruct (Nat.leb n (length s) && forallb p (take n s));
        [|reflexivity].
      destruct (k _ _); reflexivity.
Qed.

(** A match of [pattern] is a backslash, an [x] and two hex digits. *)
Lemma pattern_match_inv (prev : option ascii) (s : bytes) (n : nat) :
  match_here pattern prev s = Some n ->
  exists c3 c4 rest,
    s = "\"%char :: "x"%char :: c3 :: c4 :: rest
    /\ is_hex c3 = true /\ is_hex c4 = true /\ n = 4%nat.
Proof.
  unfold match_here.
  destruct s as [|c1 [|c2 s]].
  - discriminate.
  - unfold pattern; cbn -[Ascii.eqb].
    destruct (Ascii.eqb "\" c1); discriminate.
  - change (run pattern prev (c1 :: c2 :: s) (fun _ rest => Some rest))
      with (if Ascii.eqb "\" c1
            then if Ascii.eqb "x" c2
                 then rep (run (Chr is_hex)) (length s) 2 (Some 2%nat)
                        (Some c2) s (fun _ rest => Some rest)
                 else None
            else None).
    destruct (Ascii.eqb "\" c1) eqn:E1; [|discriminate].
    destruct (Ascii.eqb "x" c2) eqn:E2; [|discriminate].
    rewrite rep_chr_exact by lia.
    destruct s as [|c3 [|c4 rest]]; cbn [length Nat.leb andb]; try discriminate.
    cbn [take forallb drop].
    destruct (is_hex c3) eqn:E3; [|discriminate].
    destruct (is_hex c4) eqn:E4; [|discriminate].
    cbn [andb length]. intros [= <-].
    apply Ascii.eqb_eq in E1, E2. subst c1 c2.
    exists c3, c4, rest. repeat split; try assumption.
    cbn [length drop]. rewrite drop_0. lia.
Qed.

End HexEscapeFacts.

(** C10: every argument that the replace loop hands to
    [replaceHexEscapeSequence], a match of [\\x[0-9a-fA-F]{2}], is parsed by
    ParseInt (base 16, 32 bits) without error to a value below 256; the
    function returns [&#x], one or two lower-case hex digits and [;], which
    is never the match itself. *)
Theorem hex_escape_fallback_unreachable
    (prev : option ascii) (s : bytes) (n : nat) :
  match_here Normalizer.pattern prev s = Some n ->
  let m := take n s in
  exists value : Z,
    GoLib.ParseInt (TrimPrefix m (B "\x")) 16 32 = (value, None)
    /\ (0 <= value < 256)%Z
    /\ Normalizer.replaceHexEscapeSequence m
       = B "&#x" ++ GoLib.FormatHex value ++ B ";"
    /\ Normalizer.replaceHexEscapeSequence m <> m
    /\ (1 <= length (GoLib.FormatHex value) <= 2)%nat
    /\ forallb (fun c => is_digit c || between 97 102 c)
         (GoLib.FormatHex value) = true.
Proof.
  intros Hm.
  destruct (HexEscapeFacts.pattern_match_inv prev s n Hm)
    as (c3 & c4 & rest & -> & H3 & H4 & ->).
  cbn [take].
  pose proof (HexEscapeFacts.escape_ok_hex c3 c4 H3 H4) as Hok.
  unfold NormalizerSpec.escape_ok in Hok.
  destruct (GoLib.ParseInt _ 16 32) as [value [e|]]; [discriminate|].
  exists value.
  repeat match goal with
         | H : _ && _ = true |- _ => apply andb_true_iff in H as [? ?]
         end.
  split; [reflexivity|].
  split; [split; [now apply Z.leb_le | now apply Z.ltb_lt]|].
  split; [now apply HexEscapeFacts.bytes_eqb_eq|].
  split.
  { intros Heq.
    match goal with
    | H : negb (bytes_eqb _ _) = true |- _ =>
        apply negb_true_iff, not_true_iff_false in H; apply H;
        now apply HexEscapeFacts.bytes_eqb_eq
    end. }
  split; [split; now apply Nat.leb_le | assumption].
Qed.

(** The claim at the escape [\x0a] met inside a longer text. *)
Lemma hex_escape_fallback_unreachable_witness :
  match_here Normalizer.pattern (Some "a"%char) (B "\x0a;rest") = Some 4%nat
  /\ exists value : Z,
       GoLib.ParseInt (TrimPrefix (B "\x0a") (B "\x")) 16 32 = (value, None)
       /\ (0 <= value < 256)%Z
       /\ Normalizer.replaceHexEscapeSequence (B "\x0a")
          = B "&#x" ++ GoLib.FormatHex value ++ B ";"
       /\ Normalizer.replaceHexEscapeSequence (B "\x0a") <> B "\x0a"
       /\ (1 <= length (GoLib.FormatHex value) <= 2)%nat
       /\ forallb (fun c => is_digit c || between 97 102 c)
            (GoLib.FormatHex value) = true.
Proof.
  split; [reflexivity|].
  exact (hex_escape_fallback_unreachable
           (Some "a"%char) (B "\x0a;rest") 4 eq_refl).
Defined.

(** The rewrite at work inside normalizeDocument's second step. *)
Example convert_hex_example :
  Normalizer.convertHexEscapeSequencesToEntities (B "a\x41b\xzz\x0a")
  = B "a&#x41;b\xzz&#xa;".
Proof. reflexivity. Qed.

(** ** The text normalizer *)

Module TextFacts.

Import TextNormalizer.

(** The patterns appended to the defaults run after them. *)
Lemma Apply_new (dateTimePatterns : list regex) (text : bytes) :
  Apply (NewTextNormalizer dateTimePatterns) text
  = Apply {| patterns := dateTimePatterns |}
      (Apply {| patterns := DefaultTextPatterns |} text).
Proof. unfold Apply, NewTextNormalizer; cbn [patterns]. apply fold_left_app. Qed.

(** The tokens of the package's own test are erased when they stand
    alone, the phone numbers apart. *)
Example erased_tokens :
  map (fun s => Apply {| patterns := DefaultTextPatterns |} (B s))
    ["test@example.com"; "admin@SITE.ORG"; "192.168.1.1"; "8.8.8.8";
     "550e8400-e29b-41d4-a716-446655440000"; "5 days ago";
     "2 weeks from now"; "10 months ago"; "$19.99"; "€50.00"; "£25.50";
     "¥1000"; "1234567890"; "987-65-4321"; "123-45-6789";
     "2023-12-25 14:30:00"; "12/25/2023 09:15:30"]%string
  = repeat [] 17.
Proof. vm_compute. reflexivity. Qed.

(** After a word byte the plus sign is part of the match. *)
Example phone_after_word :
  Apply {| patterns := DefaultTextPatterns |} (B "tel+1234567890") = B "tel".
Proof. vm_compute. reflexivity. Qed.

(** The same word boundary keeps the first byte of an address that
    starts with one of [.%+-]. *)
Example address_with_leading_sign :
  Apply {| patterns := DefaultTextPatterns |} (B "+tag@example.com") = B "+".
Proof. vm_compute. reflexivity. Qed.

(** The price pattern, written without the leading [\b], takes its
    symbol along. *)
Example price_symbol_erased :
  match_here priceAmounts None (B "$19.99") = Some 6%nat.
Proof. vm_compute. reflexivity. Qed.

End TextFacts.

(** C7 (the code departs from the claim): the phone number [+1234567],
    a plus sign and seven digits with nothing around it, is not erased.
    [\b] cannot hold between the start of the text and [+], so the match
    starts at the first digit and the plus sign stays, under the default
    patterns and whatever date and time patterns follow them. *)
Theorem phone_with_plus_keeps_plus :
  TextNormalizer.Apply {| TextNormalizer.patterns := TextNormalizer.DefaultTextPatterns |}
    (B "+1234567") = B "+"
  /\ Trim is_space (B "+") <> []
  /\ match_here TextNormalizer.phoneNumbers None (B "+1234567") = None
  /\ match_here TextNormalizer.phoneNumbers (Some "+"%char) (B "1234567")
     = Some 7%nat
  /\ forall dateTimePatterns,
       TextNormalizer.Apply (TextNormalizer.NewTextNormalizer dateTimePatterns)
         (B "+1234567")
       = TextNormalizer.Apply {| TextNormalizer.patterns := dateTimePatterns |}
           (B "+").
Proof.
  split; [vm_compute; reflexivity|].
  split; [vm_compute; discriminate|].
  split; [vm_compute; reflexivity|].
  split; [vm_compute; reflexivity|].
  intros dt. rewrite TextFacts.Apply_new. f_equal.
Qed.

(** ** The normalization pipeline *)

Module PipelineFacts.

Import GoLib Html Normalizer NormalizerSpec.







(** The first application to [a%2540b.cc], stage by stage; what reaches
    the parser is within [Parse_fragment]. *)
Lemma first_application :
  normalizeDocument plain_library twice_encoded = once_encoded
  /\ in_fragment once_encoded = true
  /\ DOMNormalizer_Apply plain_library once_encoded
     = Some once_encoded_document
  /\ in_fragment once_encoded_document = true
  /\ stripTextContent plain_library once_encoded_document
     = Some once_encoded_document
  /\ TextNormalizer.Apply (text (New plain_library [])) once_encoded_document
     = once_encoded_document
  /\ normalizeDocument plain_library once_encoded_document = decoded_document.
Proof. vm_compute. repeat split. Qed.

(** The second application, to the result of the first. *)
Lemma second_application :
  normalizeDocument plain_library decoded_document = decoded_document
  /\ in_fragment decoded_document = true
  /\ DOMNormalizer_Apply plain_library decoded_document = Some decoded_document
  /\ stripTextContent plain_library decoded_document = Some decoded_document
  /\ TextNormalizer.Apply (text (New plain_library [])) decoded_document
     = empty_document
  /\ normalizeDocument plain_library empty_document = empty_document.
Proof. vm_compute. repeat split. Qed.

Lemma Apply_twice_encoded :
  Apply_logged plain_library (New plain_library []) twice_encoded
  = (five_calls, Some decoded_document).
Proof. vm_compute. reflexivity. Qed.


Lemma Apply_as_specified_twice_encoded :
  Apply_as_specified plain_library (New plain_library []) twice_encoded
  = Some empty_document.
Proof. vm_compute. reflexivity. Qed.

End PipelineFacts.

(** C1 (as the code has it): whenever Normalizer.Apply succeeds it has
    called, in this order, normalizeDocument, the DOM normalizer,
    stripTextContent, the text normalizer and normalizeDocument.  The
    pre/post-process step runs twice, first and last; between the DOM
    passes and the text normalizer nothing runs. *)
Theorem Apply_runs_two_document_passes
    (T : GoLib.Tables) (n : Normalizer.Normalizer) (x y : bytes) :
  Normalizer.Apply T n x = Some y ->
  fst (Normalizer.Apply_logged T n x) = NormalizerSpec.five_calls
  /\ count_occ Normalizer.Stage_eq_dec (fst (Normalizer.Apply_logged T n x))
       Normalizer.CallNormalizeDocument = 2%nat
  /\ exists firstpass secondpass,
       Normalizer.dom_Apply (Normalizer.dom n) (Normalizer.normalizeDocument T x)
       = Some firstpass
       /\ Normalizer.stripTextContent T firstpass = Some secondpass
       /\ y = Normalizer.normalizeDocument T
                (TextNormalizer.Apply (Normalizer.text n) secondpass).
Proof.
  unfold Normalizer.Apply, Normalizer.Apply_logged, Normalizer.bind,
    Normalizer.call.
  destruct (Normalizer.dom_Apply _ _) as [firstpass|] eqn:Hdom;
    [|discriminate].
  destruct (Normalizer.stripTextContent T firstpass) as [secondpass|] eqn:Hstrip;
    [|discriminate].
  cbn. intros [= <-]. split; [reflexivity|]. split; [reflexivity|].
  exists firstpass, secondpass. auto.
Qed.

Lemma Apply_runs_two_document_passes_witness :
  Normalizer.Apply Normalizer.plain_library
    (Normalizer.New Normalizer.plain_library []) (B "Hello  World")
  = Some (B "<html><head></head><body>hello world</body></html>")
  /\ fst (Normalizer.Apply_logged Normalizer.plain_library
            (Normalizer.New Normalizer.plain_library []) (B "Hello  World"))
     = NormalizerSpec.five_calls.
Proof.
  split; [reflexivity|].
  exact (proj1 (Apply_runs_two_document_passes Normalizer.plain_library
                  (Normalizer.New Normalizer.plain_library [])
                  (B "Hello  World") _ eq_refl)).
Defined.

(** C1, the claim as stated fails: on [a%2540b.cc] the calls are the five
    above, two of them to normalizeDocument, and the result keeps the
    address that a pass between DOM and text normalization would have
    decoded in time for the text normalizer to erase. *)
Lemma three_document_passes_counterexample :
  Normalizer.Apply_logged Normalizer.plain_library
    (Normalizer.New Normalizer.plain_library []) (B "a%2540b.cc")
  = ([Normalizer.CallNormalizeDocument; Normalizer.CallDOMApply;
      Normalizer.CallStripTextContent; Normalizer.CallTextApply;
      Normalizer.CallNormalizeDocument],
     Some (B "<html><head></head><body>a@b.cc</body></html>"))
  /\ Normalizer.Apply_as_specified Normalizer.plain_library
       (Normalizer.New Normalizer.plain_library []) (B "a%2540b.cc")
     = Some (B "<html><head></head><body></body></html>")
  /\ Normalizer.Apply Normalizer.plain_library
       (Normalizer.New Normalizer.plain_library []) (B "a%2540b.cc")
     <> Normalizer.Apply_as_specified Normalizer.plain_library
          (Normalizer.New Normalizer.plain_library []) (B "a%2540b.cc").
Proof.
  split; [exact PipelineFacts.Apply_twice_encoded|].
  split; [exact PipelineFacts.Apply_as_specified_twice_encoded|].
  change (B "a%2540b.cc") with NormalizerSpec.twice_encoded.
  unfold Normalizer.Apply.
  rewrite PipelineFacts.Apply_twice_encoded,
    PipelineFacts.Apply_as_specified_twice_encoded.
  discriminate.
Qed.


(** ** The crawler *)

Module CrawlFacts.

Import Crawler CrawlSpec.

Local Open Scope Z_scope.

Lemma add_events_nil (c : Crawler) : add_events c [] = c.
Proof. destruct c; unfold add_events; simpl. now rewrite app_nil_r. Qed.

Lemma add_events_app (c : Crawler) (e1 e2 : list Event) :
  add_events (add_events c e1) e2 = add_events c (e1 ++ e2).
Proof. unfold add_events; simpl. now rewrite app_assoc. Qed.

Lemma emit_add (c : Crawler) (e : Event) : emit e c = add_events c [e].
Proof. reflexivity. Qed.

Section Yields.

Context {A B : Type} (Q : Event -> Prop).

Lemma yields_ret (R : A -> Prop) (a : A) : R a -> yields Q R (ret a).
Proof.
  intros Ha c. exists []. rewrite add_events_nil.
  repeat split; [constructor|]. now intros a' [= <-].
Qed.

Lemma yields_fail (R : A -> Prop) (e : error) : yields Q R (fail e).
Proof.
  intros c. exists []. rewrite add_events_nil.
  repeat split; [constructor|]. discriminate.
Qed.

Lemma yields_panic (R : A -> Prop) : yields Q R panic.
Proof.
  intros c. exists []. rewrite add_events_nil.
  repeat split; [constructor|]. discriminate.
Qed.

Lemma yields_lift (R : A -> Prop) (r : res A) :
  (forall a, r = Val a -> R a) -> yields Q R (lift r).
Proof.
  intros Hr c. exists []. rewrite add_events_nil.
  repeat split; [constructor|]. exact Hr.
Qed.

Lemma yields_get (R : Crawler -> Prop) : (forall c, R c) -> yields Q R get.
Proof.
  intros HR c. exists []. rewrite add_events_nil.
  repeat split; [constructor|]. intros; apply HR.
Qed.

Lemma yields_bind (R1 : A -> Prop) (R2 : B -> Prop) (m : M A) (f : A -> M B) :
  yields Q R1 m -> (forall a, R1 a -> yields Q R2 (f a)) ->
  yields Q R2 (bind m f).
Proof.
  intros Hm Hf c. unfold bind.
  destruct (Hm c) as (evs & Hc & HQ & HR).
  destruct (m c) as [c1 [a| e|]]; simpl in Hc; subst c1.
  - destruct (Hf a (HR a eq_refl) (add_events c evs))
      as (evs' & Hc' & HQ' & HR').
    exists (evs ++ evs'). rewrite Hc', add_events_app.
    repeat split; [now apply Forall_app|assumption].
  - exists evs. repeat split; [assumption|discriminate].
  - exists evs. repeat split; [assumption|discriminate].
Qed.

End Yields.

Lemma yields_log (Q : Event -> Prop) (R : unit -> Prop) (e : Event) :
  Q e -> R tt -> yields Q R (log e).
Proof.
  intros He Ht c. exists [e]. repeat split; [now constructor|].
  now intros [] _.
Qed.

Lemma yields_check (Q : Event -> Prop) (R : unit -> Prop) (r : option error) :
  R tt -> yields Q R (check r).
Proof.
  intros Ht. destruct r; [apply yields_fail | now apply yields_ret].
Qed.

Lemma yields_weaken {A} (Q Q' : Event -> Prop) (R R' : A -> Prop) (m : M A) :
  yields Q R m -> (forall e, Q e -> Q' e) -> (forall a, R a -> R' a) ->
  yields Q' R' m.
Proof.
  intros Hm HQ HR c. destruct (Hm c) as (evs & Hc & Hevs & Ha).
  exists evs. repeat split; [assumption| |auto].
  eapply Forall_impl; eauto.
Qed.

(** One step of a [yields] derivation along the shape of the program. *)
Ltac yields_step :=
  lazymatch goal with
  | |- yields _ _ (bind (lift ?r) _) =>
      apply (yields_bind _ (fun a => r = Val a));
      [apply yields_lift; auto | intros ? ?]
  | |- yields _ _ (bind _ _) =>
      apply (yields_bind _ anything); [|intros ? _]
  | |- yields _ _ (ret _) => apply yields_ret
  | |- yields _ _ (fail _) => apply yields_fail
  | |- yields _ _ panic => apply yields_panic
  | |- yields _ _ (lift _) => apply yields_lift
  | |- yields _ _ get => apply yields_get
  | |- yields _ _ (log _) => apply yields_log
  | |- yields _ _ (check _) => apply yields_check
  | |- yields _ _ (when ?b _) => destruct b; cbn [when]
  | |- yields _ _ (if ?b then _ else _) => destruct b
  | |- yields _ _ (match ?x with _ => _ end) => destruct x
  end.

Ltac yields_auto :=
  repeat first [yields_step | exact I | progress (unfold anything; auto)].

Lemma applySuggestion_yields elementMap fieldName value :
  yields browser_event anything (applySuggestion elementMap fieldName value).
Proof. unfold applySuggestion. yields_auto. Qed.

Lemma applyFormSuggestions_yields suggestions_ elementMap :
  yields browser_event anything (applyFormSuggestions suggestions_ elementMap).
Proof.
  induction suggestions_ as [|[fieldName value] rest IH]; cbn [applyFormSuggestions].
  - yields_auto.
  - apply (yields_bind _ anything); [apply applySuggestion_yields|].
    intros _ _. exact IH.
Qed.

Lemma scanFields_yields env fields acc :
  yields browser_event anything (scanFields env fields acc).
Proof.
  revert acc; induction fields as [|field rest IH]; intros acc;
    cbn [scanFields].
  - yields_auto.
  - destruct (String.eqb (XPath field) ""); [apply IH|].
    apply (yields_bind _ anything); [yields_auto|]. intros _ _.
    destruct (page_elementX env (XPath field)); [apply IH | apply IH |].
    yields_auto.
Qed.

Lemma processForm_yields env form :
  yields browser_event anything (processForm env form).
Proof.
  unfold processForm.
  apply (yields_bind _ anything); [yields_auto|]. intros c _.
  destruct (negb _); [yields_auto|].
  destruct form as [form|]; [|yields_auto].
  apply (yields_bind _ anything); [apply scanFields_yields|]. intros scan _.
  apply (yields_bind _ anything); [apply applyFormSuggestions_yields|].
  intros _ _. yields_auto.
Qed.

Lemma executeCrawlStateAction_yields env action :
  yields browser_event anything (executeCrawlStateAction env action).
Proof.
  unfold executeCrawlStateAction.
  destruct (Type__ action); try apply processForm_yields; yields_auto.
Qed.

(** *** Invariants *)

Lemma add_events_inv (Inv : Crawler -> Prop) (Q : Event -> Prop) :
  (forall c e, Q e -> Inv c -> Inv (emit e c)) ->
  forall evs c, Forall Q evs -> Inv c -> Inv (add_events c evs).
Proof.
  intros Hstep evs; induction evs as [|e evs IH]; intros c HQ Hc.
  - now rewrite add_events_nil.
  - inversion HQ; subst.
    change (e :: evs) with ([e] ++ evs). rewrite <- add_events_app.
    apply IH; [assumption|]. rewrite <- emit_add. now apply Hstep.
Qed.

Lemma yields_inv {A} (Inv : Crawler -> Prop) (Q : Event -> Prop)
    (R : A -> Prop) (m : M A) :
  yields Q R m ->
  (forall c e, Q e -> Inv c -> Inv (emit e c)) ->
  inv Inv m.
Proof.
  intros Hm Hstep c Hc. destruct (Hm c) as (evs & -> & HQ & _).
  eapply add_events_inv; eauto.
Qed.

Lemma inv_bind {A B} (Inv : Crawler -> Prop) (m : M A) (f : A -> M B) :
  inv Inv m -> (forall a, inv Inv (f a)) -> inv Inv (bind m f).
Proof.
  intros Hm Hf c Hc. unfold bind. specialize (Hm c Hc).
  destruct (m c) as [c1 [a| |]]; simpl in *; auto. now apply Hf.
Qed.

Lemma inv_pure {A} (Inv : Crawler -> Prop) (r : res A) :
  inv Inv (fun c => (c, r)).
Proof. now intros c Hc. Qed.

Lemma inv_lift {A} (Inv : Crawler -> Prop) (r : res A) : inv Inv (lift r).
Proof. apply inv_pure. Qed.

Lemma inv_ret {A} (Inv : Crawler -> Prop) (a : A) : inv Inv (ret a).
Proof. apply inv_pure. Qed.

Lemma inv_fail {A} (Inv : Crawler -> Prop) (e : error) :
  inv Inv (fail e : M A).
Proof. apply inv_pure. Qed.

Lemma inv_get (Inv : Crawler -> Prop) : inv Inv get.
Proof. now intros c Hc. Qed.

Lemma inv_check (Inv : Crawler -> Prop) (r : option error) :
  inv Inv (check r).
Proof. destruct r; [apply inv_fail | apply inv_ret]. Qed.

Lemma inv_modify (Inv : Crawler -> Prop) (f : Crawler -> Crawler) :
  (forall c, Inv c -> Inv (f c)) -> inv Inv (modify f).
Proof. intros Hf c Hc. now apply Hf. Qed.

Lemma inv_log (Inv : Crawler -> Prop) (e : Event) :
  (forall c, Inv c -> Inv (emit e c)) -> inv Inv (log e).
Proof. intros He c Hc. now apply He. Qed.

Lemma browser_act_event action e : browser_event e -> act_event action e.
Proof. destruct e; simpl; tauto. Qed.

(** Up to the page state crawlFn only talks to the page and to the
    diagnostics writer; the state it returns is the captured one, with
    its origin set. *)
Lemma crawlFn_act_yields env action :
  yields (act_event action)
    (fun p => exists captured origin,
                new_page_state env = Val captured
                /\ p = ps_with_OriginID captured origin)
    (crawlFn_act env action).
Proof.
  unfold crawlFn_act.
  assert (Hexec : yields (act_event action) anything
                    (executeCrawlStateAction env action)).
  { eapply yields_weaken; [apply executeCrawlStateAction_yields| |auto].
    apply browser_act_event. }
  apply (yields_bind _ anything); [yields_auto; simpl; auto|]. intros _ _.
  apply (yields_bind _ anything); [yields_auto|]. intros h _.
  apply (yields_bind _ anything); [yields_auto; simpl; auto|]. intros h' _.
  apply (yields_bind _ anything); [yields_auto|]. intros c _.
  apply (yields_bind _ anything); [yields_auto; simpl; auto|]. intros _ _.
  apply (yields_bind _ anything); [yields_auto; simpl; auto|]. intros _ _.
  apply (yields_bind _ anything); [exact Hexec|]. intros _ _.
  apply (yields_bind _ anything); [yields_auto; simpl; auto|]. intros _ _.
  apply (yields_bind _ (fun a => new_page_state env = Val a));
    [apply yields_lift; auto|]. intros captured Hcap.
  apply (yields_bind _ anything); [yields_auto; simpl; auto|]. intros _ _.
  apply yields_ret. eauto.
Qed.

Section WithActionHash.

Variable Hash : Action -> string.
Variable emptyPageHash : string.

(** An invariant that no step of the harvest can break is kept by it. *)
Section Harvest.

Variable Inv : Crawler -> Prop.
Hypothesis Inv_emit :
  forall c e, (e = EvFindNavigations \/ e = EvScreenshot
               \/ exists p, e = EvAddPageState p) ->
              Inv c -> Inv (emit e c).
Hypothesis Inv_graph :
  forall c p, Inv c -> Inv (set_graph c (crawlGraph c ++ [p])).
Hypothesis Inv_offer :
  forall pageState navigations,
    inv Inv (offerNavigations Hash pageState navigations).

Lemma AddPageState_inv answer p : inv Inv (AddPageState answer p).
Proof.
  unfold AddPageState.
  apply inv_bind; [apply inv_log; intros; apply Inv_emit; eauto|]. intros _.
  apply inv_bind; [apply inv_check|]. intros _.
  apply inv_modify. intros; now apply Inv_graph.
Qed.

Lemma harvest_found_inv env pageState diagnostics :
  inv Inv
    (log EvFindNavigations ;;
     do navigations <- lift (find_navigations env);
     when diagnostics (log EvScreenshot) ;;
     offerNavigations Hash pageState navigations ;;
     AddPageState (add_page_state env) pageState ;;
     do c <- get;
     if Nat.eqb (length navigations) 0 && Nat.eqb (length (crawlQueue c)) 0
     then fail ErrNoCrawlingAction
     else ret tt).
Proof.
  apply inv_bind; [apply inv_log; intros; apply Inv_emit; auto|]. intros _.
  apply inv_bind; [apply inv_lift|]. intros navigations.
  apply inv_bind.
  { destruct diagnostics; [|apply inv_ret].
    apply inv_log; intros; apply Inv_emit; auto. }
  intros _.
  apply inv_bind; [apply Inv_offer|]. intros _.
  apply inv_bind; [apply AddPageState_inv|]. intros _.
  apply inv_bind; [apply inv_get|]. intros c.
  destruct (_ && _); [apply inv_fail | apply inv_ret].
Qed.

Lemma crawlFn_harvest_inv env pageState :
  inv Inv (crawlFn_harvest Hash env pageState).
Proof.
  intros c Hc. unfold crawlFn_harvest.
  unfold bind at 1. unfold get at 1. cbv beta iota.
  destruct (match ScopeValidator (options c) with
            | Some valid => negb (valid (ps_URL pageState))
            | None => false
            end).
  - destruct (Nat.eqb _ _); exact Hc.
  - now apply harvest_found_inv.
Qed.

(** crawlFn keeps an invariant that the events of the action and the
    harvest keep. *)
Lemma crawlFn_inv env action :
  (forall c e, act_event action e \/ e = EvPutBrowserToPool ->
               Inv c -> Inv (emit e c)) ->
  inv Inv (crawlFn Hash env action).
Proof.
  intros Hact c Hc. unfold crawlFn.
  assert (Hbody : inv Inv (crawlFn_body Hash env action)).
  { unfold crawlFn_body. apply inv_bind.
    - eapply yields_inv; [apply crawlFn_act_yields|]. intros; apply Hact; auto.
    - intros p. apply crawlFn_harvest_inv. }
  specialize (Hbody c Hc).
  destruct (crawlFn_body Hash env action c) as [c' r]. simpl in *.
  apply Hact; auto.
Qed.

(** One turn of the loop keeps it as well, when dequeuing does. *)
Lemma crawl_iter_inv env c consecutiveFailures :
  (forall c action rest, crawlQueue c = action :: rest ->
                         Inv c -> Inv (set_queue c rest)) ->
  (forall c, Inv c -> Inv (emit EvGetPageFromPool c)) ->
  (forall action rest,
     crawlQueue c = action :: rest ->
     ((0 <? MaxDepth (options c)) && (MaxDepth (options c) <? Depth action)
      = false) ->
     forall c e, act_event action e \/ e = EvPutBrowserToPool ->
                 Inv c -> Inv (emit e c)) ->
  Inv c -> Inv (crawl_iter Hash env c consecutiveFailures).1.
Proof.
  intros Hdeq Hpool Hact Hc. unfold crawl_iter.
  destruct (_ && timer_fired env); [exact Hc|].
  destruct (_ && (_ <=? consecutiveFailures)); [exact Hc|].
  destruct (crawlQueue c) as [|action rest] eqn:Hq; [exact Hc|].
  cbn [options set_queue].
  destruct (_ && (_ <? Depth action)) eqn:Hdepth.
  { simpl. eapply Hdeq; eauto. }
  destruct (pool_get env).
  { simpl. apply Hpool. eapply Hdeq; eauto. }
  pose proof (crawlFn_inv env action (Hact action rest eq_refl Hdepth)
                (emit EvGetPageFromPool (set_queue c rest))) as H.
  destruct (crawlFn Hash env action _) as [c' r]. simpl in *.
  apply H. apply Hpool. eapply Hdeq; eauto.
Qed.

End Harvest.

(** An invariant that looks at neither the queue nor the set of seen
    hashes survives the loop over the navigations. *)
Lemma offerNavigations_inv (Inv : Crawler -> Prop) :
  (forall c u, Inv c -> Inv (set_unique c u)) ->
  (forall c a, Inv c -> Inv (set_queue c (crawlQueue c ++ [a]))) ->
  (forall c h n, Inv c -> Inv (emit (EvOffer h n) c)) ->
  forall pageState navigations,
    inv Inv (offerNavigations Hash pageState navigations).
Proof.
  intros Hu Hq He pageState navigations.
  induction navigations as [|nav rest IH]; cbn [offerNavigations].
  - apply inv_ret.
  - apply inv_bind; [apply inv_get|]. intros c0.
    destruct (decide _); [exact IH|].
    apply inv_bind; [apply inv_modify; intros; apply Hu; assumption|].
    intros _. destruct (match Element nav with Some _ => _ | None => _ end);
      [exact IH|].
    apply inv_bind; [apply inv_log; intros; apply He; assumption|]. intros _.
    apply inv_bind; [|intros _; exact IH].
    apply inv_modify; intros; apply Hq; assumption.
Qed.

(** The loop and Crawl keep an invariant that every turn keeps. *)
Section Loop.

Variable Inv : Crawler -> Prop.
Hypothesis Inv_emit :
  forall c e, (e = EvFindNavigations \/ e = EvScreenshot
               \/ exists p, e = EvAddPageState p) ->
              Inv c -> Inv (emit e c).
Hypothesis Inv_graph : forall c g, Inv c -> Inv (set_graph c g).
Hypothesis Inv_queue : forall c q, Inv c -> Inv (set_queue c q).
Hypothesis Inv_offer :
  forall pageState navigations,
    inv Inv (offerNavigations Hash pageState navigations).
Hypothesis Inv_pool : forall c, Inv c -> Inv (emit EvGetPageFromPool c).
Hypothesis Inv_act :
  forall c0 action,
    Inv c0 ->
    (0 <? MaxDepth (options c0)) && (MaxDepth (options c0) <? Depth action)
    = false ->
    forall c e, act_event action e \/ e = EvPutBrowserToPool ->
                Inv c -> Inv (emit e c).

Lemma crawl_turn_inv env c consecutiveFailures :
  Inv c -> Inv (crawl_iter Hash env c consecutiveFailures).1.
Proof.
  intros Hc. apply crawl_iter_inv; auto.
  intros action rest _ Hdepth. now apply (Inv_act c action).
Qed.

Lemma Crawl_loop_inv envs :
  forall c consecutiveFailures,
    Inv c -> Inv (Crawl_loop Hash envs c consecutiveFailures).1.
Proof.
  induction envs as [|env envs IH]; intros c n Hc; cbn [Crawl_loop];
    [exact Hc|].
  pose proof (crawl_turn_inv env c n Hc) as Hturn.
  destruct (crawl_iter Hash env c n) as [c' k]. simpl in Hturn.
  destruct (control k n); [now apply IH | exact Hturn | exact Hturn].
Qed.

Lemma Crawl_inv first_add envs c URL :
  Inv c -> Inv (Crawl Hash emptyPageHash first_add envs c URL).1.
Proof.
  intros Hc. unfold Crawl.
  pose proof (AddPageState_inv Inv Inv_emit (fun c p => Inv_graph c _)
                first_add (blankState emptyPageHash)
                (set_graph (set_queue c [seedAction emptyPageHash URL]) []))
    as Hadd.
  destruct (AddPageState first_add _ _) as [c1 [[]|e|]]; simpl in Hadd.
  - apply Crawl_loop_inv. apply Hadd. auto.
  - apply Hadd. auto.
  - apply Hadd. auto.
Qed.

End Loop.

(** The options never change. *)
Lemma crawl_iter_options env c consecutiveFailures :
  options (crawl_iter Hash env c consecutiveFailures).1 = options c.
Proof.
  apply (crawl_turn_inv (fun c' => options c' = options c)); auto.
  apply offerNavigations_inv; auto.
Qed.

End WithActionHash.

End CrawlFacts.

(** *** The claims about the loop *)

Module LoopFacts.

Import Crawler CrawlSpec CrawlFacts.

Local Open Scope Z_scope.

Section WithActionHash.

Variable Hash : Action -> string.
Variable emptyPageHash : string.

Lemma not_sentinel (err : error) :
  err <> ErrNoCrawlingAction -> error_eqb err ErrNoCrawlingAction = false.
Proof. destruct err; simpl; congruence. Qed.

Lemma classify_error (err : error) (n : Z) :
  err <> ErrNoCrawlingAction -> classify (Fail err) n = Continue (incr n).
Proof.
  intros H. unfold classify. rewrite (not_sentinel err H).
  repeat match goal with |- context [if ?b then _ else _] => destruct b end;
    reflexivity.
Qed.

(** Where a returned error can come from. *)
Lemma Crawl_loop_error envs :
  forall c n err,
    (Crawl_loop Hash envs c n).2 = Returned (Some err) ->
    exists env, env ∈ envs /\ pool_get env = Some err.
Proof.
  induction envs as [|env envs IH]; intros c n err; cbn [Crawl_loop].
  - discriminate.
  - unfold crawl_iter.
    destruct (_ && timer_fired env); [discriminate|].
    destruct (_ && (_ <=? n)); [discriminate|].
    destruct (crawlQueue c) as [|action rest]; [discriminate|].
    destruct (_ && (_ <? Depth action)).
    { cbn [control]. intros H. destruct (IH _ _ _ H) as (env' & Hin & Hp).
      exists env'. split; [now right|assumption]. }
    destruct (pool_get env) as [e|] eqn:Hpool.
    { cbn [control snd]. intros [= ->]. exists env. split; [now left|assumption]. }
    destruct (crawlFn Hash env action _) as [c' r]. cbn [control].
    destruct r as [[]|e|]; cbn [classify].
    + intros H. destruct (IH _ _ _ H) as (env' & Hin & Hp).
      exists env'. split; [now right|assumption].
    + destruct (error_eqb e ErrNoCrawlingAction) eqn:He; [discriminate|].
      assert (Hc : classify (Fail e) n = Continue (incr n)).
      { apply classify_error. intros ->. discriminate He. }
      unfold classify in Hc. rewrite He in Hc. rewrite Hc.
      intros H. destruct (IH _ _ _ H) as (env' & Hin & Hp).
      exists env'. split; [now right|assumption].
    + discriminate.
Qed.

Lemma Crawl_error first_add envs c URL err :
  (Crawl Hash emptyPageHash first_add envs c URL).2 = Returned (Some err) ->
  first_add = Some err \/ exists env, env ∈ envs /\ pool_get env = Some err.
Proof.
  unfold Crawl, AddPageState, bind, log, check, modify.
  destruct first_add as [e|]; cbn.
  - intros [= ->]. now left.
  - intros H. right. eapply Crawl_loop_error; eauto.
Qed.





End WithActionHash.

End LoopFacts.

(** C2 (as the code has it): an error that crawlFn returns, the
    NO_MORE_ACTIONS sentinel apart, never ends the crawl, whether it is one
    of the kinds the loop looks for or not: the counter of consecutive
    failures goes up by one and the loop goes on.  Crawl returns an error
    only when installing the blank state or getting a page from the pool
    fails. *)
Theorem crawlFn_errors_are_counted
    (Hash : Crawler.Action -> string) (emptyPageHash : string)
    (env : Crawler.Env) (c : Crawler.Crawler) (n : Z)
    (action : Crawler.Action) (err : Crawler.error) :
  (Crawler.crawl_iter Hash env c n).2
  = Crawler.Ran action (Crawler.Fail err) ->
  err <> Crawler.ErrNoCrawlingAction ->
  Crawler.control (Crawler.Ran action (Crawler.Fail err)) n
  = Crawler.Continue (Crawler.incr n)
  /\ (forall envs,
        Crawler.Crawl_loop Hash (env :: envs) c n
        = Crawler.Crawl_loop Hash envs (Crawler.crawl_iter Hash env c n).1
            (Crawler.incr n))
  /\ (forall first_add envs c0 URL e,
        (Crawler.Crawl Hash emptyPageHash first_add envs c0 URL).2
        = Crawler.Returned (Some e) ->
        first_add = Some e
        \/ exists env', env' ∈ envs /\ Crawler.pool_get env' = Some e).
Proof.
  intros Hran Herr.
  assert (Hc : Crawler.control (Crawler.Ran action (Crawler.Fail err)) n
               = Crawler.Continue (Crawler.incr n))
    by (now apply LoopFacts.classify_error).
  split; [exact Hc|]. split.
  - intros envs. cbn [Crawler.Crawl_loop].
    destruct (Crawler.crawl_iter Hash env c n) as [c' k].
    cbn [fst snd] in *. subst k. now rewrite Hc.
  - intros first_add envs c0 URL e He.
    exact (LoopFacts.Crawl_error Hash emptyPageHash first_add envs c0 URL e He).
Qed.

(** A navigation cancelled with the crawl context: the counter goes from 0
    to 1 and the loop goes on. *)
Lemma crawlFn_errors_are_counted_witness :
  let c := CrawlSpec.queued CrawlSpec.plain_options
             [CrawlSpec.load "http://site/" 0 "blank"] in
  let action := CrawlSpec.load "http://site/" 0 "blank" in
  (Crawler.crawl_iter Crawler.Hash_spec CrawlSpec.cancelled_turn c 0).2
  = Crawler.Ran action (Crawler.Fail Crawler.ContextCanceled)
  /\ Crawler.control (Crawler.Ran action (Crawler.Fail Crawler.ContextCanceled)) 0
     = Crawler.Continue 1.
Proof.
  cbv zeta. split; [reflexivity|].
  refine (proj1 (crawlFn_errors_are_counted Crawler.Hash_spec "blank"
                   CrawlSpec.cancelled_turn
                   (CrawlSpec.queued CrawlSpec.plain_options
                      [CrawlSpec.load "http://site/" 0 "blank"])
                   0 (CrawlSpec.load "http://site/" 0 "blank")
                   Crawler.ContextCanceled eq_refl _)).
  discriminate.
Defined.

(** C2, the claim as stated fails: the seed's navigation is cancelled with
    the crawl context, an error of none of the kinds the loop looks for;
    Crawl does not return it, it counts one failure, finds the queue empty
    and returns nil. *)
Lemma cancellation_is_not_returned :
  (Crawler.Crawl Crawler.Hash_spec "blank" None
     [CrawlSpec.cancelled_turn; CrawlSpec.cancelled_turn]
     (Crawler.New CrawlSpec.plain_options) "http://site/").2
  = Crawler.Returned None
  /\ Crawler.classify (Crawler.Fail Crawler.ContextCanceled) 0
     = Crawler.Continue 1
  /\ CrawlSpec.executed
       (Crawler.events
          (Crawler.Crawl Crawler.Hash_spec "blank" None
             [CrawlSpec.cancelled_turn; CrawlSpec.cancelled_turn]
             (Crawler.New CrawlSpec.plain_options) "http://site/").1)
     = [CrawlSpec.load "http://site/" 0 "blank"].
Proof. repeat split. Qed.

Module ScopeFacts.

Import Crawler CrawlSpec CrawlFacts.

(** An out-of-scope state ends the harvest at once. *)
Lemma harvest_out_of_scope Hash env pageState c valid :
  ScopeValidator (options c) = Some valid ->
  valid (ps_URL pageState) = false ->
  crawlFn_harvest Hash env pageState c
  = (c, if Nat.eqb (length (crawlQueue c)) 0
        then Fail ErrNoCrawlingAction else Val tt).
Proof.
  intros Hv Hurl. unfold crawlFn_harvest.
  unfold bind at 1. unfold get at 1. cbv beta iota.
  rewrite Hv, Hurl. cbn [negb]. now destruct (Nat.eqb _ _).
Qed.

End ScopeFacts.

(** C3 (as the code has it): when the scope validator rejects the URL of
    the state an action led to, crawlFn returns before it looks for
    navigations and before it adds the state to the graph.  Graph, queue
    and the set of seen hashes are as they were; all crawlFn did was to
    act on the page, capture the state and put the page back. *)
Theorem out_of_scope_state_is_dropped
    (Hash : Crawler.Action -> string) (env : Crawler.Env)
    (action : Crawler.Action) (c : Crawler.Crawler)
    (valid : string -> bool) (captured : Crawler.PageState) :
  Crawler.ScopeValidator (Crawler.options c) = Some valid ->
  Crawler.new_page_state env = Crawler.Val captured ->
  valid (Crawler.ps_URL captured) = false ->
  let r := Crawler.crawlFn Hash env action c in
  Crawler.crawlGraph r.1 = Crawler.crawlGraph c
  /\ Crawler.crawlQueue r.1 = Crawler.crawlQueue c
  /\ Crawler.uniqueActions r.1 = Crawler.uniqueActions c
  /\ (exists evs,
        Crawler.events r.1
        = Crawler.events c ++ evs ++ [Crawler.EvPutBrowserToPool]
        /\ Forall (CrawlSpec.act_event action) evs)
  /\ (forall p, (Crawler.crawlFn_act env action c).2 = Crawler.Val p ->
                r.2 = if Nat.eqb (length (Crawler.crawlQueue c)) 0
                      then Crawler.Fail Crawler.ErrNoCrawlingAction
                      else Crawler.Val tt).
Proof.
  intros Hv Hcap Hurl. cbv zeta.
  unfold Crawler.crawlFn, Crawler.crawlFn_body, Crawler.bind.
  destruct (CrawlFacts.crawlFn_act_yields env action c)
    as (evs & Hc1 & Hevs & Hval).
  destruct (Crawler.crawlFn_act env action c) as [c1 r1].
  cbn [fst snd] in *. subst c1.
  assert (Hdone :
    let c' := Crawler.emit Crawler.EvPutBrowserToPool
                (CrawlSpec.add_events c evs) in
    Crawler.crawlGraph c' = Crawler.crawlGraph c
    /\ Crawler.crawlQueue c' = Crawler.crawlQueue c
    /\ Crawler.uniqueActions c' = Crawler.uniqueActions c
    /\ exists evs0,
         Crawler.events c'
         = Crawler.events c ++ evs0 ++ [Crawler.EvPutBrowserToPool]
         /\ Forall (CrawlSpec.act_event action) evs0).
  { cbn. repeat split. exists evs. split; [|assumption].
    now rewrite app_assoc. }
  destruct Hdone as (Hg & Hq & Hu & Hev).
  destruct r1 as [p|e|]; cbn [fst snd];
    try (repeat split; try assumption; discriminate).
  destruct (Hval p eq_refl) as (captured' & origin & Hcap' & ->).
  rewrite Hcap in Hcap'. injection Hcap' as <-.
  rewrite (ScopeFacts.harvest_out_of_scope Hash env _ _ valid);
    [|exact Hv|exact Hurl].
  cbn [fst snd]. repeat split; try assumption.
Qed.

Lemma out_of_scope_state_is_dropped_witness :
  let c := CrawlSpec.queued (CrawlSpec.with_scope (fun _ => false))
             [CrawlSpec.load "http://other/" 1 "blank"] in
  let r := Crawler.crawlFn Crawler.Hash_spec
             (CrawlSpec.turn CrawlSpec.landing
                [CrawlSpec.load "http://site/a" 1 ""])
             (CrawlSpec.load "http://site/" 0 "blank") c in
  Crawler.crawlGraph r.1 = Crawler.crawlGraph c
  /\ Crawler.crawlQueue r.1 = Crawler.crawlQueue c
  /\ Crawler.uniqueActions r.1 = Crawler.uniqueActions c
  /\ (exists evs,
        Crawler.events r.1
        = Crawler.events c ++ evs ++ [Crawler.EvPutBrowserToPool]
        /\ Forall (CrawlSpec.act_event (CrawlSpec.load "http://site/" 0 "blank"))
             evs)
  /\ (forall p,
        (Crawler.crawlFn_act
           (CrawlSpec.turn CrawlSpec.landing
              [CrawlSpec.load "http://site/a" 1 ""])
           (CrawlSpec.load "http://site/" 0 "blank") c).2 = Crawler.Val p ->
        r.2 = Crawler.Val tt).
Proof.
  exact (out_of_scope_state_is_dropped Crawler.Hash_spec
           (CrawlSpec.turn CrawlSpec.landing
              [CrawlSpec.load "http://site/a" 1 ""])
           (CrawlSpec.load "http://site/" 0 "blank")
           (CrawlSpec.queued (CrawlSpec.with_scope (fun _ => false))
              [CrawlSpec.load "http://other/" 1 "blank"])
           (fun _ => false) CrawlSpec.landing eq_refl eq_refl eq_refl).
Defined.

(** C3, the claim as stated fails: with a validator that rejects the
    landing page, the seed is executed and its page state captured, and
    Crawl ends with only the blank state in the graph. *)
Lemma out_of_scope_state_missing_from_graph :
  let r := Crawler.Crawl Crawler.Hash_spec "blank" None
             [CrawlSpec.turn CrawlSpec.landing
                [CrawlSpec.load "http://site/a" 1 ""]]
             (Crawler.New (CrawlSpec.with_scope (fun _ => false)))
             "http://site/" in
  r.2 = Crawler.Returned None
  /\ CrawlSpec.executed (Crawler.events r.1)
     = [CrawlSpec.load "http://site/" 0 "blank"]
  /\ Crawler.EvNewPageState (CrawlSpec.load "http://site/" 0 "blank")
     ∈ Crawler.events r.1
  /\ Crawler.crawlGraph r.1 = [Crawler.blankState "blank"]
  /\ Forall (fun p => Crawler.ps_UniqueID p
                      <> Crawler.ps_UniqueID CrawlSpec.landing)
       (Crawler.crawlGraph r.1).
Proof.
  cbv zeta. split; [reflexivity|]. split; [reflexivity|].
  split; [vm_compute; repeat constructor|].
  split; [reflexivity|].
  vm_compute. repeat constructor. discriminate.
Qed.



Module DepthFacts.

Import Crawler CrawlSpec CrawlFacts.

Local Open Scope Z_scope.

Lemma shallow_emit o D c e :
  acts_within D e -> shallow o D c -> shallow o D (emit e c).
Proof.
  intros He [Ho Hevs]. split; [exact Ho|].
  cbn [events emit]. apply Forall_app. split; [exact Hevs|].
  now constructor.
Qed.

Lemma shallow_Crawl Hash emptyPageHash o D first_add envs c URL :
  MaxDepth o = D -> 0 < D ->
  shallow o D c ->
  shallow o D (Crawl Hash emptyPageHash first_add envs c URL).1.
Proof.
  intros HD Hpos. apply Crawl_inv.
  - intros c0 e He. apply shallow_emit.
    destruct He as [->|[->|[p ->]]]; exact I.
  - intros c0 g H; exact H.
  - intros c0 q H; exact H.
  - apply offerNavigations_inv.
    + intros c0 u H; exact H.
    + intros c0 a H; exact H.
    + intros c0 h nav. now apply shallow_emit.
  - intros c0. now apply shallow_emit.
  - intros c0 action [Ho _] Hdepth c1 e He. apply shallow_emit.
    rewrite Ho, HD in Hdepth.
    assert (Hle : Depth action <= D).
    { apply andb_false_iff in Hdepth as [H|H];
        [apply Z.ltb_ge in H | apply Z.ltb_ge in H]; lia. }
    destruct He as [He| ->]; [|exact I].
    destruct e; simpl in He |- *; try exact I; subst; exact Hle.
Qed.

End DepthFacts.

(** C5: with MaxDepth = D > 0, a dequeued action deeper than D is dropped
    in the turn that dequeues it: no event is added, so there is no
    reconstruction, execution, page-state capture or search for
    navigations, and graph and seen hashes are as before.  Over a whole
    crawl no action deeper than D is reconstructed for, logged, executed
    or has its page state captured. *)
Theorem depth_bound
    (Hash : Crawler.Action -> string) (emptyPageHash : string)
    (c : Crawler.Crawler) (D : Z) :
  Crawler.MaxDepth (Crawler.options c) = D ->
  (0 < D)%Z ->
  (forall env n action rest,
     Crawler.crawlQueue c = action :: rest ->
     (D < Crawler.Depth action)%Z ->
     let r := Crawler.crawl_iter Hash env c n in
     Crawler.events r.1 = Crawler.events c
     /\ Crawler.crawlGraph r.1 = Crawler.crawlGraph c
     /\ Crawler.uniqueActions r.1 = Crawler.uniqueActions c
     /\ (r.2 = Crawler.DepthSkipped action /\ Crawler.crawlQueue r.1 = rest
         /\ Crawler.control r.2 n = Crawler.Continue n
         \/ (r.2 = Crawler.DeadlineReached \/ r.2 = Crawler.BudgetExhausted)
            /\ r.1 = c))
  /\ (forall first_add envs URL,
        Forall (CrawlSpec.acts_within D) (Crawler.events c) ->
        Forall (CrawlSpec.acts_within D)
          (Crawler.events
             (Crawler.Crawl Hash emptyPageHash first_add envs c URL).1)).
Proof.
  intros HD Hpos. split.
  - intros env n action rest Hq Hdeep. cbv zeta. unfold Crawler.crawl_iter.
    destruct (_ && Crawler.timer_fired env); [cbn; auto 10|].
    destruct (_ && (_ <=? n)%Z); [cbn; auto 10|].
    rewrite Hq. cbn [Crawler.options Crawler.set_queue]. rewrite HD.
    assert (Hb : ((0 <? D)%Z && (D <? Crawler.Depth action)%Z) = true).
    { apply andb_true_iff. split; now apply Z.ltb_lt. }
    rewrite Hb. cbn. auto 10.
  - intros first_add envs URL Hevs.
    apply (DepthFacts.shallow_Crawl Hash emptyPageHash (Crawler.options c) D
             first_add envs c URL HD Hpos).
    split; [reflexivity|exact Hevs].
Qed.

(** MaxDepth 1: the seed is executed, the navigation of depth 2 that its
    page shows is dropped. *)
Lemma depth_bound_witness :
  let c := Crawler.New (CrawlSpec.with_limits 1 0) in
  let r := Crawler.Crawl Crawler.Hash_spec "blank" None
             [CrawlSpec.turn CrawlSpec.landing
                [CrawlSpec.load "http://site/deep" 2 ""];
              CrawlSpec.turn CrawlSpec.landing [];
              CrawlSpec.turn CrawlSpec.landing []] c "http://site/" in
  Forall (CrawlSpec.acts_within 1) (Crawler.events r.1)
  /\ CrawlSpec.executed (Crawler.events r.1)
     = [CrawlSpec.load "http://site/" 0 "blank"]
  /\ r.2 = Crawler.Returned None.
Proof.
  cbv zeta. split; [|split; reflexivity].
  refine (proj2 (depth_bound Crawler.Hash_spec "blank"
                   (Crawler.New (CrawlSpec.with_limits 1 0)) 1 eq_refl _)
            None _ "http://site/" _).
  - lia.
  - constructor.
Defined.

Module DedupFacts.

Import Crawler CrawlSpec CrawlFacts.

Section WithActionHash.

Variable Hash : Action -> string.




End WithActionHash.

End DedupFacts.




(** processForm takes an INPUT whose DOM type property reads text for a
    field to fill and asks a suggestion for it; the live element has no
    type attribute, and nothing is typed into it. *)
Example untyped_input_in_form :
  let field :=
    {| Crawler.TagName := "INPUT"; Crawler.ID := ""; Crawler.Classes := "";
       Crawler.OuterHTML := ""; Crawler.XPath := "//input";
       Crawler.CSSSelector := "input";
       Crawler.Attributes := {[ "name"%string := "q"%string ]};
       Crawler.TextContent := ""; Crawler.Hidden := false;
       Crawler.Name := "q"; Crawler.Type_ := "text"; Crawler.Value := "" |}%string in
  let env :=
    {| Crawler.timer_fired := false; Crawler.pool_get := None;
       Crawler.get_page_hash := Crawler.Val "blank"%string;
       Crawler.navigate_back := Crawler.Val "blank"%string;
       Crawler.log_action := None; Crawler.page_navigate := None;
       Crawler.wait_load := None;
       Crawler.page_elementX :=
         fun _ => Crawler.Val (CrawlSpec.input_element "//input" None);
       Crawler.suggestions :=
         fun fields =>
           match fields with
           | [Crawler.FormInput name _ _ _] => [(name, "hello"%string)]
           | _ => []
           end;
       Crawler.placeholder := "placeholder"%string;
       Crawler.new_page_state := Crawler.Val CrawlSpec.landing;
       Crawler.log_page_state := None;
       Crawler.find_navigations := Crawler.Val [];
       Crawler.add_page_state := None |} in
  let r := Crawler.processForm env (Some {| Crawler.Elements := [field] |})
             (Crawler.New CrawlSpec.plain_options) in
  r.2 = Crawler.Val tt
  /\ Crawler.events r.1 = [Crawler.EvElementX "//input"].
Proof. repeat split. Qed.

(** C9 (the code departs from the claim): a suggestion for a live INPUT
    element that has no type attribute is passed over; nothing is typed
    into the element and no other call is made on it. *)
Theorem untyped_input_is_not_filled
    (elementMap : gmap string Crawler.Elem) (fieldName value : string)
    (element : Crawler.Elem) (c : Crawler.Crawler) :
  elementMap !! fieldName = Some element ->
  Crawler.el_tagName element = Crawler.Val "INPUT"%string ->
  Crawler.el_type element = None ->
  Crawler.applySuggestion elementMap fieldName value c
  = (c, Crawler.Val tt).
Proof.
  intros Hel Htag Htype. unfold Crawler.applySuggestion.
  rewrite Hel, Htag, Htype. cbn.
  destruct (String.eqb value ""); reflexivity.
Qed.

(** An INPUT named q without a type attribute and the suggestion hello
    for it, beside the same element with the type attribute text. *)
Lemma untyped_input_is_not_filled_witness :
  let c := Crawler.New CrawlSpec.plain_options in
  Crawler.applySuggestion
    {[ "q"%string := CrawlSpec.input_element "//input" None ]}
    "q" "hello" c
  = (c, Crawler.Val tt)
  /\ Crawler.events
       (Crawler.applyFormSuggestions [("q", "hello")]%string
          {[ "q"%string := CrawlSpec.input_element "//input" (Some "text"%string) ]}
          c).1
     = [Crawler.EvInput "//input" "hello"].
Proof.
  cbv zeta. split; [|reflexivity].
  apply (untyped_input_is_not_filled _ "q" "hello"
           (CrawlSpec.input_element "//input" None));
    reflexivity.
Defined.

Module MatcherFacts.
Import RegexpSpec.

Lemma all_bytes_complete (c : ascii) : In c all_bytes.
Proof.
  unfold all_bytes. rewrite <- (ascii_nat_embedding c).
  apply in_map. apply in_seq. pose proof (nat_ascii_bounded c). lia.
Qed.

Lemma class_within_spec (p q : ascii -> bool) (c : ascii) :
  class_within p q = true -> p c = true -> q c = true.
Proof.
  unfold class_within. rewrite forallb_forall. intros H Hp.
  specialize (H c (all_bytes_complete c)). rewrite Hp in H. exact H.
Qed.

(** What a successful run hands to its continuation is a suffix of the
    input, and the bytes read hold one of class [q] when [r] needs one. *)
Lemma run_reads (q : ascii -> bool) (r : regex) :
  forall prev s k rest,
    run r prev s k = Some rest ->
    exists p' pre s', s = pre ++ s' /\ k p' s' = Some rest
                      /\ (needs q r = true -> existsb q pre = true).
Proof.
  induction r as [|p|a IHa b IHb|a IHa b IHb|a IHa lo hi|];
    intros prev s k rest H; cbn [run needs] in *.
  - exists prev, [], s. repeat split; [assumption|discriminate].
  - destruct s as [|c s]; [discriminate|].
    destruct (p c) eqn:Hp; [|discriminate].
    exists (Some c), [c], s. repeat split; [assumption|].
    intros Hw. cbn. now rewrite (class_within_spec p q c Hw Hp).
  - destruct (IHa _ _ _ _ H) as (p1 & pre1 & s1 & -> & H1 & N1).
    destruct (IHb _ _ _ _ H1) as (p2 & pre2 & s2 & -> & H2 & N2).
    exists p2, (pre1 ++ pre2), s2. rewrite <- app_assoc.
    repeat split; [assumption|].
    intros Hn. rewrite existsb_app. apply orb_true_iff in Hn as [Hn|Hn];
      [rewrite (N1 Hn) | rewrite (N2 Hn), orb_true_r]; reflexivity.
  - destruct (run a prev s k) as [r|] eqn:Ha.
    + injection H as ->. destruct (IHa _ _ _ _ Ha) as (p1 & pre1 & s1 & -> & H1 & N1).
      exists p1, pre1, s1. repeat split; [assumption|].
      intros Hn. apply andb_true_iff in Hn as [Hn _]. auto.
    + destruct (IHb _ _ _ _ H) as (p1 & pre1 & s1 & -> & H1 & N1).
      exists p1, pre1, s1. repeat split; [assumption|].
      intros Hn. apply andb_true_iff in Hn as [_ Hn]. auto.
  - enough (Hrep : forall fuel lo hi prev s,
               rep (run a) fuel lo hi prev s k = Some rest ->
               exists p' pre s', s = pre ++ s' /\ k p' s' = Some rest
                 /\ (negb (Nat.eqb lo 0) && needs q a = true
                     -> existsb q pre = true))
      by (exact (Hrep _ _ _ _ _ H)).
    clear lo hi prev s H.
    induction fuel as [|fuel IHf]; intros lo hi prev s H; cbn [rep] in H.
    + destruct (Nat.eqb_spec lo 0); [|discriminate]. subst lo.
      exists prev, [], s. repeat split; [assumption|discriminate].
    + assert (Hstop : (if Nat.eqb lo 0 then k prev s else None) = Some rest ->
                      exists p' pre s', s = pre ++ s' /\ k p' s' = Some rest
                        /\ (negb (Nat.eqb lo 0) && needs q a = true
                            -> existsb q pre = true)).
      { destruct (Nat.eqb_spec lo 0); [|discriminate]. subst lo. intros Hk.
        exists prev, [], s. repeat split; [assumption|discriminate]. }
      match type of H with
      | match ?more with _ => _ end = _ => destruct more as [r|] eqn:Hmore
      end; [|now apply Hstop].
      injection H as ->.
      assert (Hstep : run a prev s
                (fun p' s' =>
                   if Nat.ltb (length s') (length s)
                   then rep (run a) fuel (Nat.pred lo) (Nat.pred <$> hi) p' s' k
                   else None) = Some rest).
      { destruct hi as [[|h]|]; [discriminate|exact Hmore|exact Hmore]. }
      destruct (IHa _ _ _ _ Hstep) as (p1 & pre1 & s1 & -> & H1 & N1).
      destruct (Nat.ltb (length s1) (length (pre1 ++ s1))); [|discriminate].
      destruct (IHf _ _ _ _ H1) as (p2 & pre2 & s2 & -> & H2 & N2).
      exists p2, (pre1 ++ pre2), s2. rewrite <- app_assoc.
      repeat split; [assumption|].
      intros Hn. apply andb_true_iff in Hn as [_ Hn].
      rewrite existsb_app, (N1 Hn). reflexivity.
  - destruct (xorb _ _); [|discriminate].
    exists prev, [], s. repeat split; [assumption|discriminate].
Qed.

(** A match of a pattern that needs a byte of class [q] holds one. *)
Lemma match_here_needs (q : ascii -> bool) (r : regex) prev s n :
  needs q r = true -> match_here r prev s = Some n ->
  existsb q (take n s) = true.
Proof.
  intros Hn. unfold match_here.
  destruct (run r prev s (fun _ rest => Some rest)) as [rest|] eqn:H;
    [|discriminate].
  intros [= <-].
  destruct (run_reads q r _ _ _ _ H) as (p' & pre & s' & -> & [= ->] & N).
  rewrite length_app, Nat.add_sub, take_app_length. auto.
Qed.

(** Text without a byte of class [q] has no match of such a pattern. *)
Lemma no_match_without (q : ascii -> bool) (r : regex) prev s :
  needs q r = true -> existsb q s = false -> match_here r prev s = None.
Proof.
  intros Hn Hs. destruct (match_here r prev s) as [n|] eqn:Hm; [|reflexivity].
  pose proof (match_here_needs q r prev s n Hn Hm) as Hex.
  rewrite <- (take_drop n s), existsb_app, Hex in Hs. discriminate.
Qed.

Lemma replace_from_no_match (r : regex) (f : bytes -> bytes) (s : bytes) :
  forall prev,
    (forall prev' t, suffix t s -> match_here r prev' t = None) ->
    replace_from r f 0 prev s = s.
Proof.
  induction s as [|c s IH]; intros prev H; [reflexivity|].
  cbn [replace_from]. rewrite (H prev (c :: s)) by reflexivity.
  f_equal. apply IH. intros prev' t Ht. apply H.
  now apply suffix_cons_r.
Qed.

(** Replacing the matches by nothing only deletes bytes. *)
Lemma replace_from_sublist (r : regex) (s : bytes) :
  forall skip prev, sublist (replace_from r (fun _ => []) skip prev s) s.
Proof.
  induction s as [|c s IH]; intros skip prev; cbn [replace_from].
  - constructor.
  - destruct skip as [|n]; [|apply sublist_cons, IH].
    destruct (match_here r prev (c :: s)) as [[|n]|].
    + apply sublist_skip, IH.
    + cbn [app]. apply sublist_cons, IH.
    + apply sublist_skip, IH.
Qed.

End MatcherFacts.

Module WhitespaceFacts.

Import GoLib Normalizer RegexpSpec MatcherFacts TextSpec.

Lemma rep_accept_zero step fuel hi prev s :
  exists rest, rep step fuel 0 hi prev s accept = Some rest.
Proof.
  destruct fuel; cbn [rep Nat.eqb]; [eexists; reflexivity|].
  match goal with |- context [match ?m with Some _ => _ | None => _ end] =>
    destruct m end; eexists; reflexivity.
Qed.

Lemma plus_chr_matches (p : ascii -> bool) prev c s :
  p c = true -> exists rest, run (plus (Chr p)) prev (c :: s) accept = Some rest.
Proof.
  intros Hp. unfold plus. cbn [run length rep Nat.eqb]. rewrite Hp.
  assert (Hlt : Nat.ltb (length s) (S (length s)) = true)
    by (apply Nat.ltb_lt; lia).
  rewrite Hlt. cbn [Nat.pred fmap option_fmap option_map].
  match goal with |- context [rep ?step ?f 0 ?hi ?pr ?t accept] =>
    destruct (rep_accept_zero step f hi pr t) as [rest ->] end.
  eexists; reflexivity.
Qed.

Lemma line_break_space c : line_break c = true -> is_space c = true.
Proof.
  unfold line_break, is_space.
  destruct (Ascii.eqb c "013"), (Ascii.eqb c "010"), (Ascii.eqb c "009"),
    (Ascii.eqb c "012"); simpl; congruence.
Qed.

(** At a white-space byte the pattern has a match, of one byte at least. *)
Lemma whiteSpaces_match prev c s :
  is_space c = true ->
  exists n, match_here whiteSpacesRegex prev (c :: s) = Some (S n).
Proof.
  intros Hc.
  assert (Hsome : exists n, match_here whiteSpacesRegex prev (c :: s) = Some n).
  { unfold match_here, whiteSpacesRegex. cbn [alt]. fold accept.
    lazymatch goal with
    | |- context [run (Alt ?a ?b) ?p ?t ?k] =>
        change (run (Alt a b) p t k)
          with (match run a p t k with
                | Some r => Some r
                | None => run b p t k
                end);
        destruct (run a p t k) as [r|]; [eexists; reflexivity|]
    end.
    destruct (plus_chr_matches is_space prev c s Hc) as [rest Hrest].
    unfold space. rewrite Hrest. eexists; reflexivity. }
  destruct Hsome as [n Hn].
  pose proof (RegexpFacts.match_here_length _ _ _ _ Hn) as [Hmin _].
  change (min_len whiteSpacesRegex) with 1%nat in Hmin.
  destruct n; [lia|]. eauto.
Qed.

(** At any other byte it has none. *)
Lemma whiteSpaces_no_match prev c s :
  is_space c = false -> match_here whiteSpacesRegex prev (c :: s) = None.
Proof.
  intros Hc. unfold match_here, whiteSpacesRegex, plus, space.
  cbn [alt run length rep Nat.eqb].
  assert (Hb : Ascii.eqb c "013" || Ascii.eqb c "010" = false).
  { destruct (Ascii.eqb c "013" || Ascii.eqb c "010") eqn:E; [|reflexivity].
    now rewrite (line_break_space c E) in Hc. }
  rewrite Hb, Hc. reflexivity.
Qed.

(** After the replacement the only white space left is the blank. *)
Lemma whiteSpaces_replaced (s : bytes) :
  forall skip prev,
    Forall (fun c => is_space c = true -> c = " "%char)
      (replace_from whiteSpacesRegex (fun _ => B " ") skip prev s).
Proof.
  induction s as [|c s IH]; intros skip prev; cbn [replace_from];
    [constructor|].
  destruct skip as [|n]; [|apply IH].
  destruct (is_space c) eqn:Hc.
  - destruct (whiteSpaces_match prev c s Hc) as [n ->].
    apply Forall_app. split; [|apply IH]. repeat constructor.
  - rewrite (whiteSpaces_no_match prev c s Hc).
    constructor; [congruence|apply IH].
Qed.

(** *** strings.Trim *)

Lemma TrimLeft_suffix cut s : exists pre, s = pre ++ TrimLeft cut s.
Proof.
  induction s as [|c s [pre IH]]; [exists []; reflexivity|].
  cbn [TrimLeft]. destruct (cut c).
  - exists (c :: pre). cbn. now f_equal.
  - exists []. reflexivity.
Qed.

Lemma TrimLeft_head cut s c : head (TrimLeft cut s) = Some c -> cut c = false.
Proof.
  induction s as [|x s IH]; [discriminate|].
  cbn [TrimLeft]. destruct (cut x) eqn:Hx; [exact IH|].
  cbn. now intros [= <-].
Qed.

Lemma TrimLeft_id cut s :
  match s with c :: _ => cut c = false | [] => True end -> TrimLeft cut s = s.
Proof. destruct s as [|c s]; [reflexivity|]. cbn. now intros ->. Qed.

Lemma last_rev {A} (l : list A) : last (rev l) = head l.
Proof. destruct l as [|a l]; [reflexivity|]. cbn [rev]. apply last_snoc. Qed.

Lemma head_rev {A} (l : list A) : head (rev l) = last l.
Proof. now rewrite <- (last_rev (rev l)), rev_involutive. Qed.

Lemma head_app_l {A} (l k : list A) a : head l = Some a -> head (l ++ k) = Some a.
Proof. destruct l; [discriminate|]. exact id. Qed.

(** What is left after trimming has no byte of the cutset at either end
    and is a segment of the input. *)
Lemma Trim_ends cut s c :
  (head (Trim cut s) = Some c \/ last (Trim cut s) = Some c) -> cut c = false.
Proof.
  unfold Trim, TrimRight. intros [H|H].
  - set (u := TrimLeft cut s) in *.
    destruct (TrimLeft_suffix cut (rev u)) as [pre Hpre].
    set (w := TrimLeft cut (rev u)) in *.
    assert (Hu : u = rev w ++ rev pre).
    { rewrite <- (rev_involutive u), Hpre, rev_app_distr. reflexivity. }
    apply (TrimLeft_head cut s). fold u. rewrite Hu. now apply head_app_l.
  - rewrite last_rev in H. now apply TrimLeft_head in H.
Qed.

Lemma Trim_segment cut s : exists pre post, s = pre ++ Trim cut s ++ post.
Proof.
  unfold Trim, TrimRight.
  destruct (TrimLeft_suffix cut s) as [pre Hpre].
  set (u := TrimLeft cut s) in *.
  destruct (TrimLeft_suffix cut (rev u)) as [post Hpost].
  set (w := TrimLeft cut (rev u)) in *.
  exists pre, (rev post). rewrite <- rev_app_distr, <- Hpost, rev_involutive.
  exact Hpre.
Qed.

Lemma Trim_id cut s :
  match s with c :: _ => cut c = false | [] => True end ->
  match last s with Some c => cut c = false | None => True end ->
  Trim cut s = s.
Proof.
  intros Hh Hl. unfold Trim, TrimRight. rewrite (TrimLeft_id cut s Hh).
  rewrite TrimLeft_id; [apply rev_involutive|].
  rewrite <- head_rev in Hl. destruct (rev s); [exact I|exact Hl].
Qed.

End WhitespaceFacts.

(** normalizeDocument, whatever text and library tables it is given,
    returns a text whose only white-space bytes are blanks (no tab, line
    feed, form feed or carriage return is left) and which neither starts
    nor ends with a blank. *)
Theorem normalizeDocument_white_space (T : GoLib.Tables) (text : bytes) :
  let r := Normalizer.normalizeDocument T text in
  Forall (fun c => is_space c = true -> c = " "%char) r
  /\ head r <> Some " "%char
  /\ last r <> Some " "%char.
Proof.
  cbv zeta. unfold Normalizer.normalizeDocument.
  set (urlDecoded := match GoLib.QueryUnescape _ with Some d => d | None => _ end).
  assert (Hrep := WhitespaceFacts.whiteSpaces_replaced urlDecoded 0 None).
  fold (ReplaceAllStringFunc Normalizer.whiteSpacesRegex urlDecoded (fun _ => B " ")) in Hrep.
  fold (ReplaceAllString Normalizer.whiteSpacesRegex urlDecoded (B " ")) in Hrep.
  set (normalized := ReplaceAllString _ _ _) in *.
  split; [|split].
  - destruct (WhitespaceFacts.Trim_segment Normalizer.trimCutset normalized)
      as (pre & post & Hseg).
    rewrite Hseg in Hrep. apply Forall_app in Hrep as [_ Hrep].
    now apply Forall_app in Hrep as [Hrep _].
  - intros H. now pose proof (WhitespaceFacts.Trim_ends _ _ _ (or_introl H)).
  - intros H. now pose proof (WhitespaceFacts.Trim_ends _ _ _ (or_intror H)).
Qed.

Module DocumentFacts.

Import GoLib Normalizer NormalizerSpec RegexpSpec MatcherFacts TextSpec WhitespaceFacts.

Lemma existsb_suffix {A} (q : A -> bool) (t s : list A) :
  suffix t s -> existsb q s = false -> existsb q t = false.
Proof.
  intros [k ->]. rewrite existsb_app. now intros [_ H]%orb_false_iff.
Qed.

(** A pattern that needs a byte the text does not have replaces nothing. *)
Lemma replace_without (q : ascii -> bool) (r : regex) (f : bytes -> bytes)
    (s : bytes) prev :
  needs q r = true -> existsb q s = false -> replace_from r f 0 prev s = s.
Proof.
  intros Hn Hs. apply replace_from_no_match. intros prev' t Ht.
  apply (no_match_without q); [exact Hn|]. now apply (existsb_suffix q t s).
Qed.

Lemma ToLower_ascii_lower (T : Tables) (s : bytes) :
  forallb (between 0 127) s = true ->
  forallb (fun c => negb (is_upper c)) s = true ->
  ToLower T s = s.
Proof.
  intros Ha Hu. unfold ToLower. rewrite Ha. clear Ha.
  induction s as [|c s IH]; [reflexivity|].
  cbn [forallb map] in *. apply andb_true_iff in Hu as [Hc Hs].
  rewrite (IH Hs). unfold lower_byte.
  now destruct (is_upper c).
Qed.

Lemma convertHex_without_backslash (s : bytes) :
  existsb (Ascii.eqb "\") s = false ->
  convertHexEscapeSequencesToEntities s = s.
Proof.
  intros Hs. unfold convertHexEscapeSequencesToEntities, ReplaceAllStringFunc.
  apply (replace_without (Ascii.eqb "\")); [vm_compute; reflexivity|exact Hs].
Qed.

Lemma UnescapeString_without_ampersand (T : Tables) (s : bytes) :
  existsb (Ascii.eqb "&") s = false -> UnescapeString T s = s.
Proof.
  unfold UnescapeString. induction s as [|c s IH]; [reflexivity|].
  cbn [existsb unescape_from]. intros [Hc Hs]%orb_false_iff.
  rewrite Ascii.eqb_sym in Hc. rewrite Hc. f_equal. exact (IH Hs).
Qed.

Lemma QueryUnescape_plain (s : bytes) :
  existsb (fun c => Ascii.eqb c "%" || Ascii.eqb c "+") s = false ->
  QueryUnescape s = Some s.
Proof.
  intros Hs. unfold QueryUnescape.
  assert (H : escapes_ok s = true /\ unescape_query 0 s = s).
  { induction s as [|c s IH]; [split; reflexivity|].
    cbn [existsb escapes_ok unescape_query] in *.
    apply orb_false_iff in Hs as [Hc Hs].
    apply orb_false_iff in Hc as [Hp Hq]. rewrite Hp, Hq.
    destruct (IH Hs) as [H1 H2]. split; [exact H1|now f_equal]. }
  destruct H as [-> ->]. reflexivity.
Qed.

(** On such text normalizeDocument is query unescaping, the white-space
    replacement and the trim. *)
Lemma normalizeDocument_untouched (T : Tables) (s : bytes) :
  forallb untouched s = true ->
  normalizeDocument T s
  = Trim trimCutset
      (ReplaceAllString whiteSpacesRegex
         (match QueryUnescape s with Some d => d | None => s end) (B " ")).
Proof.
  intros Hs. unfold normalizeDocument.
  assert (H : forallb (between 0 127) s = true
              /\ forallb (fun c => negb (is_upper c)) s = true
              /\ existsb (Ascii.eqb "\") s = false
              /\ existsb (Ascii.eqb "&") s = false).
  { induction s as [|c s IH]; [repeat split|].
    cbn [forallb existsb] in *. apply andb_true_iff in Hs as [Hc Hs].
    destruct (IH Hs) as (H1 & H2 & H3 & H4). rewrite H1, H2, H3, H4.
    unfold untouched, one_of in Hc. cbn [B list_ascii_of_string existsb] in Hc.
    rewrite (Ascii.eqb_sym "\" c), (Ascii.eqb_sym "&" c).
    destruct (between 0 127 c), (is_upper c), (Ascii.eqb c "\"),
      (Ascii.eqb c "&"); try discriminate Hc; repeat split. }
  destruct H as (H1 & H2 & H3 & H4).
  rewrite (ToLower_ascii_lower T s H1 H2), (convertHex_without_backslash s H3),
    (UnescapeString_without_ampersand T s H4).
  reflexivity.
Qed.

Lemma inert_untouched c : inert c = true -> untouched c = true.
Proof.
  unfold inert, untouched, one_of. cbn [B list_ascii_of_string existsb].
  destruct (between 0 127 c), (is_upper c), (Ascii.eqb c "\"),
    (Ascii.eqb c "&"); simpl; congruence.
Qed.

Lemma inert_plain c :
  inert c = true -> Ascii.eqb c "%" || Ascii.eqb c "+" = false.
Proof.
  unfold inert, one_of. cbn [B list_ascii_of_string existsb].
  destruct (between 0 127 c), (is_upper c), (Ascii.eqb c "\"),
    (Ascii.eqb c "&"), (Ascii.eqb c "%"), (Ascii.eqb c "+"); simpl; congruence.
Qed.

Lemma normalizeDocument_inert (T : Tables) (s : bytes) :
  forallb inert s = true ->
  normalizeDocument T s
  = Trim trimCutset (ReplaceAllString whiteSpacesRegex s (B " ")).
Proof.
  intros Hs. rewrite normalizeDocument_untouched.
  - rewrite QueryUnescape_plain; [reflexivity|].
    induction s as [|c s IH]; [reflexivity|].
    cbn [forallb existsb] in *. apply andb_true_iff in Hs as [Hc Hs].
    now rewrite (inert_plain c Hc), (IH Hs).
  - rewrite forallb_forall in *. intros c Hc. apply inert_untouched; auto.
Qed.

(** *** Greedy runs of one class *)

Lemma rep_greedy (p : ascii -> bool) (l : bytes) :
  forall fuel lo prev rest,
    forallb p l = true ->
    match rest with c :: _ => p c = false | [] => True end ->
    (lo <= length l)%nat -> (length l <= fuel)%nat ->
    rep (run (Chr p)) fuel lo None prev (l ++ rest) accept = Some rest.
Proof.
  induction l as [|c l IH]; intros fuel lo prev rest Hl Hrest Hlo Hfuel.
  - cbn [length] in Hlo. assert (lo = 0%nat) as -> by lia.
    cbn [app]. destruct fuel; cbn [rep Nat.eqb run]; [reflexivity|].
    destruct rest as [|c rest]; [reflexivity|]. now rewrite Hrest.
  - destruct fuel as [|fuel]; [cbn in Hfuel; lia|].
    cbn [forallb] in Hl. apply andb_true_iff in Hl as [Hc Hl].
    cbn [app rep run]. rewrite Hc.
    assert (Hlt : Nat.ltb (length (l ++ rest)) (length (c :: l ++ rest)) = true)
      by (apply Nat.ltb_lt; cbn; lia).
    rewrite Hlt. cbn [fmap option_fmap option_map].
    change (fun (prev0 : option ascii) (s0 : bytes) (k0 : cont) =>
              match s0 with
              | [] => None
              | c0 :: s' => if p c0 then k0 (Some c0) s' else None
              end) with (run (Chr p)).
    rewrite IH; try assumption; [reflexivity| |].
    + cbn in Hlo. lia.
    + cbn in Hfuel. lia.
Qed.

Lemma plus_greedy (p : ascii -> bool) (c : ascii) (l rest : bytes) prev :
  forallb p (c :: l) = true ->
  match rest with c :: _ => p c = false | [] => True end ->
  run (plus (Chr p)) prev ((c :: l) ++ rest) accept = Some rest.
Proof.
  intros Hl Hrest. unfold plus.
  change (run (Rep (Chr p) 1 None) prev ((c :: l) ++ rest) accept)
    with (rep (run (Chr p)) (length ((c :: l) ++ rest)) 1 None prev
            ((c :: l) ++ rest) accept).
  apply rep_greedy; try assumption; [cbn; lia|rewrite length_app; lia].
Qed.

Lemma plus_fails (p : ascii -> bool) (c : ascii) (s : bytes) prev k :
  p c = false -> run (plus (Chr p)) prev (c :: s) k = None.
Proof. intros Hc. unfold plus. cbn [run length rep Nat.eqb]. now rewrite Hc. Qed.

Lemma whiteSpaces_alt prev s k :
  run whiteSpacesRegex prev s k
  = match run (plus (Chr line_break)) prev s k with
    | Some r => Some r
    | None => run (plus (Chr is_space)) prev s k
    end.
Proof. reflexivity. Qed.

Lemma match_length (r : regex) prev (l rest : bytes) :
  run r prev (l ++ rest) accept = Some rest ->
  match_here r prev (l ++ rest) = Some (length l).
Proof.
  unfold match_here. fold accept. intros ->. f_equal.
  rewrite length_app. lia.
Qed.

(** A run of line breaks is one match, whatever white space follows it. *)
Lemma line_breaks_match prev c l rest :
  forallb line_break (c :: l) = true ->
  match rest with c :: _ => line_break c = false | [] => True end ->
  match_here whiteSpacesRegex prev ((c :: l) ++ rest) = Some (length (c :: l)).
Proof.
  intros Hl Hrest. apply match_length. rewrite whiteSpaces_alt.
  now rewrite plus_greedy.
Qed.

(** White space that does not start with a line break is one match up to
    the next byte that is no white space. *)
Lemma blanks_match prev c l rest :
  line_break c = false ->
  forallb is_space (c :: l) = true ->
  match rest with c :: _ => is_space c = false | [] => True end ->
  match_here whiteSpacesRegex prev ((c :: l) ++ rest) = Some (length (c :: l)).
Proof.
  intros Hc Hl Hrest. apply match_length. rewrite whiteSpaces_alt.
  cbn [app]. rewrite (plus_fails line_break c _ prev accept Hc).
  now apply (plus_greedy is_space c l rest).
Qed.

(** *** The replace loop over a concatenation *)

Lemma replace_skip (r : regex) (f : bytes -> bytes) (l rest : bytes) :
  forall prev,
    replace_from r f (length l) prev (l ++ rest)
    = replace_from r f 0 (advance prev l) rest.
Proof.
  induction l as [|c l IH]; intros prev; [reflexivity|].
  cbn [length app replace_from]. rewrite IH. reflexivity.
Qed.

Lemma replace_match (r : regex) (f : bytes -> bytes) prev c l rest :
  match_here r prev ((c :: l) ++ rest) = Some (length (c :: l)) ->
  replace_from r f 0 prev ((c :: l) ++ rest)
  = f (c :: l) ++ replace_from r f 0 (advance prev (c :: l)) rest.
Proof.
  intros Hm. cbn [app replace_from]. cbn [app] in Hm. rewrite Hm.
  cbn [length]. rewrite replace_skip.
  change (take (S (length l)) (c :: l ++ rest))
    with (c :: take (length l) (l ++ rest)).
  rewrite take_app_length. reflexivity.
Qed.

Lemma replace_pass (f : bytes -> bytes) (x rest : bytes) :
  forall prev,
    forallb (fun c => negb (is_space c)) x = true ->
    replace_from whiteSpacesRegex f 0 prev (x ++ rest)
    = x ++ replace_from whiteSpacesRegex f 0 (advance prev x) rest.
Proof.
  induction x as [|c x IH]; intros prev Hx; [reflexivity|].
  cbn [forallb] in Hx. apply andb_true_iff in Hx as [Hc Hx].
  apply negb_true_iff in Hc.
  cbn [app replace_from]. rewrite (whiteSpaces_no_match prev c _ Hc).
  rewrite IH by assumption. reflexivity.
Qed.

Lemma word_not_space (x : bytes) :
  forallb word_byte x = true ->
  forallb (fun c => negb (is_space c)) x = true /\ forallb inert x = true.
Proof.
  induction x as [|c x IH]; [split; reflexivity|].
  cbn [forallb]. intros [Hc Hx]%andb_true_iff.
  destruct (IH Hx) as [-> ->]. unfold word_byte in Hc.
  apply andb_true_iff in Hc as [-> ->]. split; reflexivity.
Qed.

Lemma space_inert c : is_space c = true -> inert c = true.
Proof.
  unfold is_space. intros H.
  repeat (apply orb_true_iff in H as [H|H]);
    apply Ascii.eqb_eq in H; subst c; reflexivity.
Qed.

Lemma trimCutset_space c : is_space c = false -> trimCutset c = false.
Proof.
  unfold is_space, trimCutset.
  destruct (Ascii.eqb c "009"), (Ascii.eqb c "010"), (Ascii.eqb c "012"),
    (Ascii.eqb c "013"), (Ascii.eqb c " "); simpl; congruence.
Qed.

Lemma Trim_words (x mid y : bytes) :
  x <> [] -> y <> [] ->
  forallb (fun c => negb (is_space c)) x = true ->
  forallb (fun c => negb (is_space c)) y = true ->
  Trim trimCutset (x ++ mid ++ y) = x ++ mid ++ y.
Proof.
  intros Hx Hy Fx Fy. apply Trim_id.
  - destruct x as [|c x]; [contradiction|]. cbn [app forallb] in *.
    apply andb_true_iff in Fx as [Hc _]. apply negb_true_iff in Hc.
    now apply trimCutset_space.
  - rewrite app_assoc, last_app.
    destruct (last y) as [c|] eqn:Hl.
    + apply trimCutset_space. apply last_Some in Hl as [l' ->].
      rewrite forallb_app in Fy. apply andb_true_iff in Fy as [_ Fy].
      cbn in Fy. rewrite andb_true_r in Fy. now apply negb_true_iff.
    + apply last_None in Hl. contradiction.
Qed.

Lemma Trim_no_space (s : bytes) :
  forallb (fun c => negb (is_space c)) s = true -> Trim trimCutset s = s.
Proof.
  intros Hs. rewrite forallb_forall in Hs.
  assert (H : forall c, In c s -> trimCutset c = false).
  { intros c Hc. apply trimCutset_space, negb_true_iff, Hs, Hc. }
  apply Trim_id.
  - destruct s as [|c s]; [exact I|]. apply H. now left.
  - destruct (last s) as [d|] eqn:Hl; [|exact I].
    apply H. apply last_Some in Hl as [l' ->]. apply in_or_app. right. now left.
Qed.

Lemma hex_decodes_all (T : Tables) :
  forallb (fun h1 => forallb (hex_decodes T h1) hex_chars) hex_chars = true.
Proof. vm_compute. reflexivity. Qed.

End DocumentFacts.

Module SpacingFacts.

Import GoLib Normalizer NormalizerSpec RegexpSpec MatcherFacts TextSpec
  WhitespaceFacts DocumentFacts.

Lemma blank_space c : blank c = true -> is_space c = true.
Proof. unfold blank. now intros [H _]%andb_true_iff. Qed.

Lemma blank_no_break c : blank c = true -> line_break c = false.
Proof. unfold blank. intros [_ H]%andb_true_iff. now apply negb_true_iff. Qed.

Lemma forallb_impl {A} (p q : A -> bool) (l : list A) :
  (forall a, p a = true -> q a = true) ->
  forallb p l = true -> forallb q l = true.
Proof. rewrite !forallb_forall. auto. Qed.

Lemma head_word_no_space (y : bytes) :
  forallb word_byte y = true ->
  match y with c :: _ => is_space c = false | [] => True end.
Proof.
  destruct y as [|c y]; [trivial|]. cbn [forallb].
  intros [Hc _]%andb_true_iff. unfold word_byte in Hc.
  apply andb_true_iff in Hc as [_ Hc]. now apply negb_true_iff.
Qed.

Lemma head_word_no_break (y : bytes) :
  forallb word_byte y = true ->
  match y with c :: _ => line_break c = false | [] => True end.
Proof.
  intros Hy. pose proof (head_word_no_space y Hy) as H.
  destruct y as [|c y]; [trivial|].
  destruct (line_break c) eqn:E; [|reflexivity].
  now rewrite (line_break_space c E) in H.
Qed.

(** The replacement on a word, line breaks, blanks and a word. *)
Lemma replace_breaks_blanks (x y : bytes) (b : ascii) (breaks : bytes)
    (c : ascii) (blanks : bytes) :
  forallb word_byte x = true -> forallb word_byte y = true ->
  forallb line_break (b :: breaks) = true ->
  forallb blank (c :: blanks) = true ->
  ReplaceAllString whiteSpacesRegex
    (x ++ (b :: breaks) ++ (c :: blanks) ++ y) (B " ")
  = x ++ B "  " ++ y.
Proof.
  intros Hx Hy Hb Hc.
  destruct (word_not_space x Hx) as [Sx _].
  destruct (word_not_space y Hy) as [Sy _].
  unfold ReplaceAllString, ReplaceAllStringFunc.
  rewrite replace_pass by exact Sx.
  rewrite replace_match.
  2:{ apply line_breaks_match; [exact Hb|].
      cbn [app]. apply blank_no_break.
      cbn [forallb] in Hc. now apply andb_true_iff in Hc as [Hc _]. }
  rewrite replace_match.
  2:{ apply blanks_match.
      - cbn [forallb] in Hc. apply andb_true_iff in Hc as [Hc _].
        now apply blank_no_break.
      - revert Hc. apply forallb_impl, blank_space.
      - now apply head_word_no_space. }
  rewrite <- (app_nil_r y) at 1. rewrite replace_pass by exact Sy.
  cbn [replace_from]. rewrite app_nil_r. reflexivity.
Qed.

(** The same with the blanks first: one match. *)
Lemma replace_blanks_breaks (x y : bytes) (b : ascii) (breaks : bytes)
    (c : ascii) (blanks : bytes) :
  forallb word_byte x = true -> forallb word_byte y = true ->
  forallb line_break (b :: breaks) = true ->
  forallb blank (c :: blanks) = true ->
  ReplaceAllString whiteSpacesRegex
    (x ++ (c :: blanks) ++ (b :: breaks) ++ y) (B " ")
  = x ++ B " " ++ y.
Proof.
  intros Hx Hy Hb Hc.
  destruct (word_not_space x Hx) as [Sx _].
  destruct (word_not_space y Hy) as [Sy _].
  unfold ReplaceAllString, ReplaceAllStringFunc.
  rewrite replace_pass by exact Sx.
  rewrite (app_assoc (c :: blanks)).
  change ((c :: blanks) ++ b :: breaks) with (c :: (blanks ++ b :: breaks)).
  rewrite replace_match.
  2:{ apply blanks_match.
      - cbn [forallb] in Hc. apply andb_true_iff in Hc as [Hc _].
        now apply blank_no_break.
      - change (c :: blanks ++ b :: breaks) with ((c :: blanks) ++ b :: breaks).
        rewrite forallb_app. apply andb_true_iff. split.
        + revert Hc. apply forallb_impl, blank_space.
        + revert Hb. apply forallb_impl, line_break_space.
      - now apply head_word_no_space. }
  rewrite <- (app_nil_r y) at 1. rewrite replace_pass by exact Sy.
  cbn [replace_from]. rewrite app_nil_r. reflexivity.
Qed.

Lemma spaced_inert (x y mid : bytes) :
  forallb word_byte x = true -> forallb word_byte y = true ->
  forallb is_space mid = true ->
  forallb inert (x ++ mid ++ y) = true.
Proof.
  intros Hx Hy Hm.
  destruct (word_not_space x Hx) as [_ Ix].
  destruct (word_not_space y Hy) as [_ Iy].
  rewrite !forallb_app, Ix, Iy, andb_true_r. cbn [andb].
  revert Hm. apply forallb_impl, space_inert.
Qed.

End SpacingFacts.

(** White space is not always collapsed to one blank: between two words
    (of lower-case ASCII without [\ & % +]) a run of line breaks followed
    by blanks or tabs becomes two blanks, the alternative [[\r\n]+] of the
    pattern being tried first; the same bytes with the blanks first become
    one. *)
Theorem line_breaks_before_blanks_leave_two_spaces
    (T : GoLib.Tables) (x y breaks blanks : bytes) :
  x <> [] -> y <> [] -> breaks <> [] -> blanks <> [] ->
  forallb TextSpec.word_byte x = true ->
  forallb TextSpec.word_byte y = true ->
  forallb TextSpec.line_break breaks = true ->
  forallb TextSpec.blank blanks = true ->
  Normalizer.normalizeDocument T (x ++ breaks ++ blanks ++ y)
  = x ++ B "  " ++ y
  /\ Normalizer.normalizeDocument T (x ++ blanks ++ breaks ++ y)
     = x ++ B " " ++ y.
Proof.
  intros Nx Ny Nb Nc Hx Hy Hb Hc.
  destruct breaks as [|b breaks]; [contradiction|].
  destruct blanks as [|c blanks]; [contradiction|].
  destruct (DocumentFacts.word_not_space x Hx) as [Sx _].
  destruct (DocumentFacts.word_not_space y Hy) as [Sy _].
  assert (Sb : forallb is_space (b :: breaks) = true)
    by (revert Hb; apply SpacingFacts.forallb_impl, WhitespaceFacts.line_break_space).
  assert (Sc : forallb is_space (c :: blanks) = true)
    by (revert Hc; apply SpacingFacts.forallb_impl, SpacingFacts.blank_space).
  split.
  - rewrite DocumentFacts.normalizeDocument_inert.
    + rewrite SpacingFacts.replace_breaks_blanks by assumption.
      now apply DocumentFacts.Trim_words.
    + rewrite (app_assoc (b :: breaks)).
      apply SpacingFacts.spaced_inert; try assumption.
      rewrite forallb_app, Sb, Sc. reflexivity.
  - rewrite DocumentFacts.normalizeDocument_inert.
    + rewrite SpacingFacts.replace_blanks_breaks by assumption.
      now apply DocumentFacts.Trim_words.
    + rewrite (app_assoc (c :: blanks)).
      apply SpacingFacts.spaced_inert; try assumption.
      rewrite forallb_app, Sb, Sc. reflexivity.
Qed.

(** A line feed and a blank between two words, in both orders. *)
Lemma line_breaks_before_blanks_leave_two_spaces_witness :
  Normalizer.normalizeDocument Normalizer.plain_library
    (B "a" ++ ["010"%char] ++ B " " ++ B "b") = B "a  b"
  /\ Normalizer.normalizeDocument Normalizer.plain_library
       (B "a" ++ B " " ++ ["010"%char] ++ B "b") = B "a b".
Proof.
  apply (line_breaks_before_blanks_leave_two_spaces Normalizer.plain_library
           (B "a") (B "b") ["010"%char] (B " "));
    first [discriminate | reflexivity].
Defined.

(** Steps two and three of normalizeDocument together decode a hex escape
    [\xHH] as the character reference [&#xHH;], not as the byte HH: what
    comes out is the UTF-8 encoding of the code point HH, with the
    Windows-1252 replacements for 80 to 9F and U+FFFD for 00. *)
Theorem hex_escape_decodes_to_code_point
    (T : GoLib.Tables) (h1 h2 : ascii) :
  is_hex h1 = true -> is_hex h2 = true ->
  GoLib.UnescapeString T
    (Normalizer.convertHexEscapeSequencesToEntities
       ("\"%char :: "x"%char :: h1 :: h2 :: []))
  = GoLib.EncodeRune
      (TextSpec.reference_rune (16 * GoLib.unhex h1 + GoLib.unhex h2)).
Proof.
  intros H1 H2.
  pose proof (DocumentFacts.hex_decodes_all T) as Hall.
  rewrite forallb_forall in Hall.
  specialize (Hall h1 (HexEscapeFacts.is_hex_cases h1 H1)).
  rewrite forallb_forall in Hall.
  specialize (Hall h2 (HexEscapeFacts.is_hex_cases h2 H2)).
  now apply HexEscapeFacts.bytes_eqb_eq.
Qed.

(** [\xe9] becomes the two bytes of U+00E9. *)
Lemma hex_escape_decodes_to_code_point_witness :
  GoLib.UnescapeString Normalizer.plain_library
    (Normalizer.convertHexEscapeSequencesToEntities (B "\xe9"))
  = ["195"; "169"]%char.
Proof.
  exact (hex_escape_decodes_to_code_point Normalizer.plain_library
           "e"%char "9"%char eq_refl eq_refl).
Defined.

(** On lower-case ASCII text without backslash, ampersand and white space
    normalizeDocument comes down to the query unescape: with one percent
    sign that is not followed by two hex digits the text is returned as it
    is, every well-formed escape and every plus sign in it undecoded;
    otherwise the escapes are decoded and each plus sign becomes a blank
    before the white-space steps. *)
Theorem malformed_percent_keeps_text_undecoded
    (T : GoLib.Tables) (text : bytes) :
  forallb TextSpec.query_byte text = true ->
  Normalizer.normalizeDocument T text
  = if GoLib.escapes_ok text
    then Trim Normalizer.trimCutset
           (ReplaceAllString Normalizer.whiteSpacesRegex
              (GoLib.unescape_query 0 text) (B " "))
    else text.
Proof.
  intros Hq. rewrite DocumentFacts.normalizeDocument_untouched.
  - unfold GoLib.QueryUnescape. destruct (GoLib.escapes_ok text); [reflexivity|].
    assert (Hs : forallb (fun c => negb (is_space c)) text = true).
    { revert Hq. apply SpacingFacts.forallb_impl. intros c Hc.
      unfold TextSpec.query_byte in Hc.
      now apply andb_true_iff in Hc as [_ Hc]. }
    unfold ReplaceAllString, ReplaceAllStringFunc.
    rewrite <- (app_nil_r text) at 1.
    rewrite DocumentFacts.replace_pass by exact Hs.
    cbn [replace_from]. rewrite app_nil_r.
    now apply DocumentFacts.Trim_no_space.
  - revert Hq. apply SpacingFacts.forallb_impl. intros c Hc.
    unfold TextSpec.query_byte in Hc. unfold TextSpec.untouched.
    now apply andb_true_iff in Hc as [Hc _].
Qed.

(** [%+o] is no escape, so [%21] and the plus sign stay; without the first
    percent sign both are decoded. *)
Lemma malformed_percent_keeps_text_undecoded_witness :
  Normalizer.normalizeDocument Normalizer.plain_library (B "50%+off%21")
  = B "50%+off%21"
  /\ Normalizer.normalizeDocument Normalizer.plain_library (B "50+off%21")
     = B "50 off!".
Proof.
  split; [|reflexivity].
  exact (malformed_percent_keeps_text_undecoded Normalizer.plain_library
           (B "50%+off%21") eq_refl).
Defined.

Module ErasureFacts.

Import TextNormalizer RegexpSpec MatcherFacts TextSpec.

Lemma Apply_sublist (ps : list regex) :
  forall text,
    sublist (fold_left (fun text pattern => ReplaceAllString pattern text [])
               ps text) text.
Proof.
  induction ps as [|p ps IH]; intros text; cbn [fold_left]; [reflexivity|].
  etransitivity; [apply IH|]. apply replace_from_sublist.
Qed.

Lemma Apply_without (q : ascii -> bool) (ps : list regex) (text : bytes) :
  forallb (needs q) ps = true -> existsb q text = false ->
  fold_left (fun text pattern => ReplaceAllString pattern text []) ps text
  = text.
Proof.
  intros Hps Ht. induction ps as [|p ps IH]; [reflexivity|].
  cbn [forallb fold_left] in *. apply andb_true_iff in Hps as [Hp Hps].
  unfold ReplaceAllString at 2, ReplaceAllStringFunc.
  rewrite (DocumentFacts.replace_without q p _ text None Hp Ht). now apply IH.
Qed.

Lemma defaults_need_marker : forallb (needs marker) DefaultTextPatterns = true.
Proof. vm_compute. reflexivity. Qed.

End ErasureFacts.

(** TextNormalizer.Apply only deletes: whatever the patterns, the result
    is the input with some bytes left out, the others in their order. *)
Theorem text_normalizer_only_deletes
    (n : TextNormalizer.TextNormalizer) (text : bytes) :
  sublist (TextNormalizer.Apply n text) text.
Proof. apply ErasureFacts.Apply_sublist. Qed.

(** Text without a digit, an [@] and a [-] is beyond the reach of the
    default patterns: they leave it as it is, so that the normalizer built
    by NewTextNormalizer does to it what the appended date and time
    patterns do. *)
Theorem text_without_markers_is_kept
    (dateTimePatterns : list regex) (text : bytes) :
  existsb TextSpec.marker text = false ->
  TextNormalizer.Apply
    {| TextNormalizer.patterns := TextNormalizer.DefaultTextPatterns |} text
  = text
  /\ TextNormalizer.Apply (TextNormalizer.NewTextNormalizer dateTimePatterns) text
     = TextNormalizer.Apply {| TextNormalizer.patterns := dateTimePatterns |} text.
Proof.
  intros Ht.
  assert (H : TextNormalizer.Apply
                {| TextNormalizer.patterns := TextNormalizer.DefaultTextPatterns |}
                text = text).
  { apply (ErasureFacts.Apply_without TextSpec.marker);
      [apply ErasureFacts.defaults_need_marker|exact Ht]. }
  split; [exact H|]. now rewrite TextFacts.Apply_new, H.
Qed.

Lemma text_without_markers_is_kept_witness :
  TextNormalizer.Apply (TextNormalizer.NewTextNormalizer [])
    (B "Contact us for support. Exit") = B "Contact us for support. Exit".
Proof.
  exact (proj2 (text_without_markers_is_kept []
                  (B "Contact us for support. Exit") eq_refl)).
Defined.

Module ProseFacts.

Import GoLib Html Normalizer NormalizerSpec RegexpSpec MatcherFacts TextSpec
  WhitespaceFacts DocumentFacts SpacingFacts ProseSpec.




Lemma lower_prose_space : lower_prose " " = true.
Proof. reflexivity. Qed.






(** *** The white-space replacement on text without line breaks *)








(** *** A document of body text through the stages *)





Section Parser.

Variable T : Tables.
Hypothesis parser :
  forall s, in_fragment s = true -> html_Parse T s = Parse_fragment s.






End Parser.

End ProseFacts.



Module EscapeFacts.

Import GoLib Normalizer NormalizerSpec RegexpSpec MatcherFacts EscapeSpec.

Lemma pattern_matches prev c3 c4 rest :
  is_hex c3 = true -> is_hex c4 = true ->
  match_here pattern prev ("\"%char :: "x"%char :: c3 :: c4 :: rest) = Some 4%nat.
Proof.
  intros H3 H4. unfold match_here.
  change (run pattern prev ("\"%char :: "x"%char :: c3 :: c4 :: rest)
            (fun _ rest => Some rest))
    with (rep (run (Chr is_hex)) (length (c3 :: c4 :: rest)) 2 (Some 2%nat)
            (Some "x"%char) (c3 :: c4 :: rest) (fun _ rest => Some rest)).
  rewrite HexEscapeFacts.rep_chr_exact by apply le_n.
  cbn [length Nat.leb take forallb andb drop advance]. rewrite H3, H4. cbn [andb].
  f_equal. cbn [length drop]. rewrite ?drop_0. lia.
Qed.

(** The pattern matches exactly where the text starts with an escape. *)
Lemma match_here_pattern prev s :
  match_here pattern prev s = if starts_escape s then Some 4%nat else None.
Proof.
  destruct (starts_escape s) eqn:Hs.
  - destruct s as [|c1 [|c2 [|c3 [|c4 rest]]]]; try discriminate.
    cbn [starts_escape] in Hs.
    apply andb_true_iff in Hs as [Hs H4]. apply andb_true_iff in Hs as [Hs H3].
    apply andb_true_iff in Hs as [H1 H2].
    apply Ascii.eqb_eq in H1, H2. subst. now apply pattern_matches.
  - destruct (match_here pattern prev s) as [n|] eqn:Hm; [|reflexivity].
    destruct (HexEscapeFacts.pattern_match_inv prev s n Hm)
      as (c3 & c4 & rest & -> & H3 & H4 & _).
    cbn [starts_escape] in Hs. now rewrite H3, H4 in Hs.
Qed.

(** What replaces an escape starts with an ampersand and has no
    backslash. *)
Lemma replacement_shape c3 c4 :
  is_hex c3 = true -> is_hex c4 = true ->
  exists digits,
    replaceHexEscapeSequence ("\"%char :: "x"%char :: c3 :: c4 :: [])
    = "&"%char :: "#"%char :: "x"%char :: digits ++ [";"%char]
    /\ forallb (fun c => is_digit c || between 97 102 c) digits = true.
Proof.
  intros H3 H4. pose proof (HexEscapeFacts.escape_ok_hex c3 c4 H3 H4) as Hok.
  unfold escape_ok in Hok.
  destruct (ParseInt _ 16 32) as [value [e|]]; [discriminate|].
  repeat match goal with
         | H : _ && _ = true |- _ => apply andb_true_iff in H as [? ?]
         end.
  exists (FormatHex value). split; [|assumption].
  now apply HexEscapeFacts.bytes_eqb_eq.
Qed.

Lemma convert_unmatched prev c s :
  starts_escape (c :: s) = false ->
  convert_from prev (c :: s) = c :: convert_from (Some c) s.
Proof.
  intros Hs. unfold convert_from. cbn [replace_from].
  now rewrite match_here_pattern, Hs.
Qed.

Lemma convert_matched prev c3 c4 rest :
  is_hex c3 = true -> is_hex c4 = true ->
  convert_from prev ("\"%char :: "x"%char :: c3 :: c4 :: rest)
  = replaceHexEscapeSequence ("\"%char :: "x"%char :: c3 :: c4 :: [])
    ++ convert_from (Some c4) rest.
Proof.
  intros H3 H4. unfold convert_from. cbn [replace_from].
  rewrite (pattern_matches prev c3 c4 rest H3 H4). reflexivity.
Qed.

Lemma starts_escape_cases s :
  starts_escape s = true ->
  exists c3 c4 rest,
    s = "\"%char :: "x"%char :: c3 :: c4 :: rest
    /\ is_hex c3 = true /\ is_hex c4 = true.
Proof.
  destruct s as [|c1 [|c2 [|c3 [|c4 rest]]]]; try discriminate.
  cbn [starts_escape]. intros Hs.
  apply andb_true_iff in Hs as [Hs H4]. apply andb_true_iff in Hs as [Hs H3].
  apply andb_true_iff in Hs as [H1 H2].
  apply Ascii.eqb_eq in H1, H2. subst. exists c3, c4, rest. auto.
Qed.

(** A byte of the result other than an ampersand is a byte of the input
    at which no escape starts. *)
Lemma convert_head prev s d out :
  convert_from prev s = d :: out -> d <> "&"%char ->
  exists s', s = d :: s' /\ starts_escape s = false
             /\ out = convert_from (Some d) s'.
Proof.
  intros Hout Hd. destruct (starts_escape s) eqn:Hs.
  - destruct (starts_escape_cases s Hs) as (c3 & c4 & rest & -> & H3 & H4).
    rewrite (convert_matched prev c3 c4 rest H3 H4) in Hout.
    destruct (replacement_shape c3 c4 H3 H4) as (digits & Hrep & _).
    rewrite Hrep in Hout. cbn [app] in Hout. injection Hout as <- _.
    contradiction.
  - destruct s as [|c s]; [discriminate|].
    rewrite (convert_unmatched prev c s Hs) in Hout.
    injection Hout as <- <-. eauto.
Qed.

Lemma hex_not_ampersand c : is_hex c = true -> c <> "&"%char.
Proof. intros H ->. discriminate H. Qed.

(** No escape starts at an unmatched byte of the result. *)
Lemma convert_unmatched_clear prev c s :
  starts_escape (c :: s) = false ->
  starts_escape (c :: convert_from prev s) = false.
Proof.
  intros Hs. destruct (starts_escape (c :: convert_from prev s)) eqn:Hout;
    [|reflexivity].
  exfalso.
  destruct (starts_escape_cases _ Hout) as (c3 & c4 & rest & Heq & H3 & H4).
  injection Heq as -> Heq.
  destruct (convert_head prev s _ _ Heq) as (s1 & -> & _ & Heq1);
    [discriminate|].
  symmetry in Heq1.
  destruct (convert_head _ s1 _ _ Heq1 (hex_not_ampersand c3 H3))
    as (s2 & -> & _ & Heq2).
  symmetry in Heq2.
  destruct (convert_head _ s2 _ _ Heq2 (hex_not_ampersand c4 H4))
    as (s3 & -> & _ & _).
  cbn [starts_escape] in Hs. rewrite H3, H4 in Hs. discriminate.
Qed.

Lemma suffix_cons_cases {A} (t l : list A) (a : A) :
  suffix t (a :: l) -> t = a :: l \/ suffix t l.
Proof.
  destruct t as [|x t]; [right; apply suffix_nil|apply suffix_cons_inv].
Qed.

Lemma suffix_app_cases {A} (t l1 l2 : list A) :
  suffix t (l1 ++ l2) ->
  suffix t l2 \/ exists k x, t = (x :: k) ++ l2 /\ suffix (x :: k) l1.
Proof.
  revert t. induction l1 as [|a l1 IH]; intros t Ht; [now left|].
  cbn [app] in Ht. apply suffix_cons_cases in Ht as [->|Ht].
  - right. exists l1, a. split; reflexivity.
  - destruct (IH t Ht) as [H|(k & x & -> & Hk)]; [now left|].
    right. exists k, x. split; [reflexivity|now apply suffix_cons_r].
Qed.

(** After the rewrite no escape is left. *)
Lemma convert_clear (n : nat) :
  forall s prev,
    (length s <= n)%nat ->
    forall t, suffix t (convert_from prev s) -> starts_escape t = false.
Proof.
  induction n as [|n IH]; intros s prev Hlen t Ht.
  - destruct s; [|cbn in Hlen; lia].
    apply suffix_nil_inv in Ht. now subst.
  - destruct (starts_escape s) eqn:Hs.
    + destruct (starts_escape_cases s Hs) as (c3 & c4 & rest & -> & H3 & H4).
      rewrite (convert_matched prev c3 c4 rest H3 H4) in Ht.
      apply suffix_app_cases in Ht as [Ht|(k & x & -> & Hk)].
      * apply (IH rest (Some c4)); [cbn in Hlen; lia|exact Ht].
      * destruct (replacement_shape c3 c4 H3 H4) as (digits & Hrep & Hdig).
        rewrite Hrep in Hk.
        assert (Hx : x <> "\"%char).
        { assert (Hin : x ∈ "&"%char :: "#"%char :: "x"%char :: digits ++ [";"%char]).
          { destruct Hk as [pre ->]. apply elem_of_app. right. now left. }
          intros ->.
          repeat (apply elem_of_cons in Hin as [Hin|Hin]; [discriminate|]).
          apply elem_of_app in Hin as [Hin|Hin].
          - rewrite forallb_forall in Hdig.
            apply list_elem_of_In in Hin. now specialize (Hdig _ Hin).
          - apply list_elem_of_singleton in Hin. discriminate. }
        cbn [app].
        destruct (k ++ convert_from (Some c4) rest) as [|c2 [|c3' [|c4' r]]];
          try reflexivity.
        cbn [starts_escape].
        destruct (Ascii.eqb_spec x "\"); [contradiction|reflexivity].
    + destruct s as [|c s].
      { apply suffix_nil_inv in Ht. now subst. }
      rewrite (convert_unmatched prev c s Hs) in Ht.
      apply suffix_cons_cases in Ht as [->|Ht].
      * now apply convert_unmatched_clear.
      * apply (IH s (Some c)); [cbn in Hlen; lia|exact Ht].
Qed.

Lemma match_from_none (r : regex) (s : bytes) :
  forall prev,
    (forall prev' t, suffix t s -> match_here r prev' t = None) ->
    match_from r prev s = false.
Proof.
  induction s as [|c s IH]; intros prev H; cbn [match_from].
  - now rewrite (H prev []).
  - rewrite (H prev (c :: s)) by reflexivity. apply IH.
    intros prev' t Ht. apply H. now apply suffix_cons_r.
Qed.

End EscapeFacts.

(** One pass of convertHexEscapeSequencesToEntities rewrites every hex
    escape: its result holds no match of the pattern, none left over and
    none put together from the pieces, so that a second pass changes
    nothing. *)
Theorem hex_conversion_leaves_no_escape (input : bytes) :
  MatchString Normalizer.pattern
    (Normalizer.convertHexEscapeSequencesToEntities input) = false
  /\ Normalizer.convertHexEscapeSequencesToEntities
       (Normalizer.convertHexEscapeSequencesToEntities input)
     = Normalizer.convertHexEscapeSequencesToEntities input.
Proof.
  assert (Hclear : forall prev' t,
            suffix t (Normalizer.convertHexEscapeSequencesToEntities input) ->
            match_here Normalizer.pattern prev' t = None).
  { intros prev' t Ht. rewrite EscapeFacts.match_here_pattern.
    now rewrite (EscapeFacts.convert_clear (length input) input None (le_n _) t Ht). }
  split.
  - now apply EscapeFacts.match_from_none.
  - unfold Normalizer.convertHexEscapeSequencesToEntities at 1.
    unfold ReplaceAllStringFunc. now apply MatcherFacts.replace_from_no_match.
Qed.

Module DomFacts.

Import Html Normalizer DomSpec.

(** Induction on trees: the property holds for the children. *)
Lemma Node_induction (P : Node -> Prop) :
  (forall d, P (TextNode d)) ->
  (forall tag attr children,
     Forall P children -> P (ElementNode tag attr children)) ->
  forall n, P n.
Proof.
  intros Htext Helem.
  fix IH 1. intros [d|tag attr children]; [apply Htext|].
  apply Helem. induction children as [|c cs IHcs]; constructor;
    [apply IH|exact IHcs].
Qed.

Lemma remove_no_text (cs : list Node) :
  forallb (fun c => negb (is_text c)) (removeTextNodesFromSelection cs) = true.
Proof.
  unfold removeTextNodesFromSelection.
  induction cs as [|c cs IH]; [reflexivity|].
  rewrite filter_cons. destruct (decide (is_text c = false)) as [Hc|Hc];
    [|exact IH].
  cbn [forallb]. now rewrite Hc, IH.
Qed.

Lemma remove_keeps (P : Node -> bool) (cs : list Node) :
  forallb P cs = true -> forallb P (removeTextNodesFromSelection cs) = true.
Proof.
  unfold removeTextNodesFromSelection.
  induction cs as [|c cs IH]; [reflexivity|].
  cbn [forallb]. intros [Hc Hcs]%andb_true_iff.
  rewrite filter_cons. destruct (decide (is_text c = false)); [|auto].
  cbn [forallb]. now rewrite Hc, IH.
Qed.

Lemma remove_twice (cs : list Node) :
  forallb (fun c => negb (is_text c)) cs = true ->
  removeTextNodesFromSelection cs = cs.
Proof.
  unfold removeTextNodesFromSelection.
  induction cs as [|c cs IH]; [reflexivity|].
  cbn [forallb]. intros [Hc Hcs]%andb_true_iff.
  rewrite filter_cons. apply negb_true_iff in Hc.
  destruct (decide (is_text c = false)); [|contradiction].
  now rewrite IH.
Qed.

Lemma strip_is_text (n : Node) : is_text (stripTextNodes n) = is_text n.
Proof. now destruct n. Qed.

Lemma stripTextNodes_stripped (n : Node) : stripped (stripTextNodes n) = true.
Proof.
  induction n as [d|tag attr children IH] using Node_induction; [reflexivity|].
  cbn [stripTextNodes stripped].
  assert (Hall : forallb stripped (map stripTextNodes children) = true).
  { induction IH as [|c cs Hc _ IHcs]; [reflexivity|].
    cbn [map forallb]. now rewrite Hc, IHcs. }
  destruct (tag_in strippedTags tag).
  - now rewrite remove_no_text, remove_keeps.
  - now rewrite Hall.
Qed.

Lemma map_remove (cs : list Node) :
  map stripTextNodes (removeTextNodesFromSelection cs)
  = removeTextNodesFromSelection (map stripTextNodes cs).
Proof.
  unfold removeTextNodesFromSelection.
  induction cs as [|c cs IH]; [reflexivity|].
  cbn [map]. rewrite !filter_cons, strip_is_text.
  destruct (decide (is_text c = false)); [cbn [map]; now rewrite IH|exact IH].
Qed.

Lemma stripTextNodes_idempotent (n : Node) :
  stripTextNodes (stripTextNodes n) = stripTextNodes n.
Proof.
  induction n as [d|tag attr children IH] using Node_induction; [reflexivity|].
  cbn [stripTextNodes].
  assert (Hmap : map stripTextNodes (map stripTextNodes children)
                 = map stripTextNodes children).
  { induction IH as [|c cs Hc _ IHcs]; [reflexivity|].
    cbn [map]. now rewrite Hc, IHcs. }
  destruct (tag_in strippedTags tag).
  - rewrite map_remove, Hmap. f_equal.
    apply remove_twice, remove_no_text.
  - now rewrite Hmap.
Qed.

Lemma skeleton_remove (cs : list Node) :
  flat_map skeleton (removeTextNodesFromSelection cs) = flat_map skeleton cs.
Proof.
  unfold removeTextNodesFromSelection.
  induction cs as [|c cs IH]; [reflexivity|].
  rewrite filter_cons. destruct (decide (is_text c = false)) as [Hc|Hc].
  - cbn [flat_map]. now rewrite IH.
  - destruct c; [|contradiction]. exact IH.
Qed.

Lemma stripTextNodes_skeleton (n : Node) :
  skeleton (stripTextNodes n) = skeleton n.
Proof.
  induction n as [d|tag attr children IH] using Node_induction; [reflexivity|].
  cbn [stripTextNodes skeleton].
  assert (Hmap : flat_map skeleton (map stripTextNodes children)
                 = flat_map skeleton children).
  { induction IH as [|c cs Hc _ IHcs]; [reflexivity|].
    cbn [map flat_map]. now rewrite Hc, IHcs. }
  destruct (tag_in strippedTags tag); [rewrite skeleton_remove|];
    now rewrite Hmap.
Qed.

(** Under a listed element only the text of the element children is
    left. *)
Lemma text_remove (outside : bool) (cs : list Node) :
  flat_map (text_of outside true) (removeTextNodesFromSelection cs)
  = flat_map (fun c => if is_text c then [] else text_of outside true c) cs.
Proof.
  unfold removeTextNodesFromSelection.
  induction cs as [|c cs IH]; [reflexivity|].
  rewrite filter_cons. destruct (decide (is_text c = false)) as [Hc|Hc].
  - cbn [flat_map]. now rewrite IH, Hc.
  - destruct c; [|contradiction]. cbn [flat_map is_text app]. exact IH.
Qed.

Lemma stripTextNodes_text (n : Node) :
  forall outside listed,
    text_of outside listed (stripTextNodes n)
    = if is_text n then text_of outside listed n else text_of true listed n.
Proof.
  induction n as [d|tag attr children IH] using Node_induction;
    intros outside listed; [reflexivity|].
  cbn [stripTextNodes text_of is_text].
  destruct (tag_in strippedTags tag).
  - rewrite text_remove.
    induction IH as [|c cs Hc _ IHcs]; [reflexivity|].
    cbn [map flat_map]. rewrite IHcs, strip_is_text, Hc.
    now destruct c.
  - induction IH as [|c cs Hc _ IHcs]; [reflexivity|].
    cbn [map flat_map]. rewrite IHcs, Hc.
    destruct c; [|reflexivity]. cbn [is_text text_of andb].
    rewrite andb_false_r. reflexivity.
Qed.

End DomFacts.

(** After the pass of stripTextContent over a parsed document no element
    with one of the tags h1 to h6, p, span, div, td, th, li, a has a text
    node among its children, at any depth, and a second pass changes
    nothing. *)
Theorem strip_leaves_no_text_under_listed_tags (doc : Html.Node) :
  DomSpec.stripped (Normalizer.stripTextNodes doc) = true
  /\ Normalizer.stripTextNodes (Normalizer.stripTextNodes doc)
     = Normalizer.stripTextNodes doc.
Proof.
  split; [apply DomFacts.stripTextNodes_stripped
         |apply DomFacts.stripTextNodes_idempotent].
Qed.

(** The pass removes text nodes and nothing else: every element stays where
    it is with its tag and attributes, and the text left in an element
    tree is exactly the text that stood directly under elements with none
    of the listed tags (text in [b], [pre], [button] or [body], also inside
    a listed element, is kept). *)
Theorem strip_keeps_elements_and_other_text
    (tag : bytes) (attr : list (bytes * bytes)) (children : list Html.Node) :
  let doc := Html.ElementNode tag attr children in
  DomSpec.skeleton (Normalizer.stripTextNodes doc) = DomSpec.skeleton doc
  /\ DomSpec.text_of false false (Normalizer.stripTextNodes doc)
     = DomSpec.text_of true false doc.
Proof.
  cbv zeta. split; [apply DomFacts.stripTextNodes_skeleton|].
  now rewrite DomFacts.stripTextNodes_text.
Qed.

Module TraceFacts.

Import Crawler CrawlSpec CrawlFacts CrawlTraces.

Section WithActionHash.

Variable Hash : Action -> string.
Variable emptyPageHash : string.

(** The body of crawlFn keeps an invariant that its events, the growth of
    the graph and the loop over the navigations keep. *)
Lemma crawlFn_body_inv (Inv : Crawler -> Prop) env action :
  (forall c e, (e = EvFindNavigations \/ e = EvScreenshot
                \/ exists p, e = EvAddPageState p) ->
               Inv c -> Inv (emit e c)) ->
  (forall c p, Inv c -> Inv (set_graph c (crawlGraph c ++ [p]))) ->
  (forall pageState navigations,
     inv Inv (offerNavigations Hash pageState navigations)) ->
  (forall c e, act_event action e -> Inv c -> Inv (emit e c)) ->
  inv Inv (crawlFn_body Hash env action).
Proof.
  intros Hemit Hgraph Hoffer Hact. unfold crawlFn_body. apply inv_bind.
  - eapply yields_inv; [apply crawlFn_act_yields|exact Hact].
  - intros p. now apply (crawlFn_harvest_inv Hash Inv).
Qed.

(** What every turn keeps, the loop and Crawl keep. *)
Lemma Crawl_loop_keeps (P : Crawler -> Prop) :
  (forall env c n, P c -> P (crawl_iter Hash env c n).1) ->
  forall envs c n, P c -> P (Crawl_loop Hash envs c n).1.
Proof.
  intros Hturn envs. induction envs as [|env envs IH]; intros c n Hc;
    cbn [Crawl_loop]; [exact Hc|].
  specialize (Hturn env c n Hc).
  destruct (crawl_iter Hash env c n) as [c' k]. cbn [fst] in Hturn.
  destruct (control k n); [now apply IH|exact Hturn|exact Hturn].
Qed.

Lemma Crawl_start first_add c URL :
  let c0 := set_graph (set_queue c [seedAction emptyPageHash URL]) [] in
  AddPageState first_add (blankState emptyPageHash) c0
  = match first_add with
    | Some err => (emit (EvAddPageState (blankState emptyPageHash)) c0, Fail err)
    | None =>
        (set_graph (emit (EvAddPageState (blankState emptyPageHash)) c0)
           [blankState emptyPageHash], Val tt)
    end.
Proof. destruct first_add; reflexivity. Qed.

(** *** The page pool *)

Lemma pool_calls_app e1 e2 :
  pool_calls (e1 ++ e2) = pool_calls e1 ++ pool_calls e2.
Proof. apply omap_app. Qed.

Lemma pool_calls_emit c e :
  pool_calls (events (emit e c)) = pool_calls (events c) ++ pool_calls [e].
Proof. cbn [events emit]. apply pool_calls_app. Qed.

Lemma pool_calls_quiet (L : list PoolCall) c e :
  pool_calls [e] = [] ->
  pool_calls (events c) = L -> pool_calls (events (emit e c)) = L.
Proof. intros He Hc. now rewrite pool_calls_emit, He, app_nil_r. Qed.

Lemma act_event_no_pool action e : act_event action e -> pool_calls [e] = [].
Proof. destruct e; simpl; try reflexivity; contradiction. Qed.

(** The body of crawlFn makes no call to the pool. *)
Lemma crawlFn_body_pool env action c :
  pool_calls (events (crawlFn_body Hash env action c).1) = pool_calls (events c).
Proof.
  apply (crawlFn_body_inv (fun c' => pool_calls (events c') = pool_calls (events c)));
    [| | | |reflexivity].
  - intros c0 e He. apply pool_calls_quiet.
    destruct He as [->|[->|[p ->]]]; reflexivity.
  - intros c0 p H; exact H.
  - apply offerNavigations_inv.
    + intros c0 u H; exact H.
    + intros c0 a H; exact H.
    + intros c0 h nav. now apply pool_calls_quiet.
  - intros c0 e He. apply pool_calls_quiet. now apply (act_event_no_pool action).
Qed.

(** One turn: nothing, a failed call, or a page taken and put back. *)
Lemma crawl_iter_pool env c n :
  pool_calls (events (crawl_iter Hash env c n).1)
  = pool_calls (events c)
    ++ match (crawl_iter Hash env c n).2 with
       | Ran _ _ => [PoolGet; PoolPut]
       | PoolFailed _ => [PoolGet]
       | _ => []
       end.
Proof.
  unfold crawl_iter.
  destruct (_ && timer_fired env); [now rewrite app_nil_r|].
  destruct (_ && (_ <=? n)%Z); [now rewrite app_nil_r|].
  destruct (crawlQueue c) as [|action rest]; [now rewrite app_nil_r|].
  destruct (_ && (_ <? Depth action)%Z); [cbn; now rewrite app_nil_r|].
  destruct (pool_get env); [cbn [fst snd]; now rewrite pool_calls_emit|].
  unfold crawlFn.
  pose proof (crawlFn_body_pool env action
                (emit EvGetPageFromPool
                   (set_queue c rest))) as Hbody.
  destruct (crawlFn_body Hash env action _) as [c' r]. cbn [fst snd] in *.
  rewrite pool_calls_emit, Hbody, pool_calls_emit. cbn [events set_queue].
  rewrite <- app_assoc. reflexivity.
Qed.

Lemma rounds_S k : rounds (S k) = rounds k ++ [PoolGet; PoolPut].
Proof.
  induction k as [|k IH]; [reflexivity|].
  change (rounds (S (S k))) with ([PoolGet; PoolPut] ++ rounds (S k)).
  rewrite IH at 1. rewrite app_assoc. reflexivity.
Qed.

Lemma Crawl_loop_pool envs :
  forall c n k,
    pool_calls (events c) = rounds k ->
    exists k',
      match (Crawl_loop Hash envs c n).2 with
      | Returned (Some err) =>
          pool_calls (events (Crawl_loop Hash envs c n).1) = rounds k' ++ [PoolGet]
          /\ exists env, env ∈ envs /\ pool_get env = Some err
      | _ => pool_calls (events (Crawl_loop Hash envs c n).1) = rounds k'
      end.
Proof.
  induction envs as [|env envs IH]; intros c n k Hc; cbn [Crawl_loop].
  - exists k. exact Hc.
  - pose proof (crawl_iter_pool env c n) as Hturn.
    assert (Hfail : forall err, (crawl_iter Hash env c n).2 = PoolFailed err ->
                                pool_get env = Some err).
    { intros err. unfold crawl_iter.
      destruct (_ && timer_fired env); [discriminate|].
      destruct (_ && (_ <=? n)%Z); [discriminate|].
      destruct (crawlQueue c) as [|action rest]; [discriminate|].
      destruct (_ && (_ <? Depth action)%Z); [discriminate|].
      destruct (pool_get env); [now intros [= ->]|].
      destruct (crawlFn Hash env action _). discriminate. }
    destruct (crawl_iter Hash env c n) as [c' kind]. cbn [fst snd] in *.
    rewrite Hc in Hturn.
    assert (Hnext : forall n' k', pool_calls (events c') = rounds k' ->
              exists k'0,
                match (Crawl_loop Hash envs c' n').2 with
                | Returned (Some err) =>
                    pool_calls (events (Crawl_loop Hash envs c' n').1)
                    = rounds k'0 ++ [PoolGet]
                    /\ exists env0, env0 ∈ env :: envs /\ pool_get env0 = Some err
                | _ => pool_calls (events (Crawl_loop Hash envs c' n').1)
                       = rounds k'0
                end).
    { intros n' k' Hk'. destruct (IH c' n' k' Hk') as [k2 H2]. exists k2.
      destruct ((Crawl_loop Hash envs c' n').2) as [[err|]| |]; try exact H2.
      destruct H2 as [H2 (env0 & Hin & Hp)]. split; [exact H2|].
      exists env0. split; [now right|exact Hp]. }
    destruct kind as [| | |a|err|a r]; cbn [control].
    + exists k. cbn [fst snd]. now rewrite Hturn, app_nil_r.
    + exists k. cbn [fst snd]. now rewrite Hturn, app_nil_r.
    + exists k. cbn [fst snd]. now rewrite Hturn, app_nil_r.
    + apply (Hnext n k). now rewrite Hturn, app_nil_r.
    + exists k. cbn [fst snd]. split; [exact Hturn|].
      exists env. split; [now left|now apply Hfail].
    + rewrite <- rounds_S in Hturn.
      destruct (classify r n) as [n'|[err|]|] eqn:Hcl.
      * now apply (Hnext n' (S k)).
      * exfalso. destruct r as [[]|e|]; cbn [classify] in Hcl;
          try discriminate.
        repeat match type of Hcl with
               | (if ?b then _ else _) = _ => destruct b
               end; discriminate.
      * exists (S k). exact Hturn.
      * exists (S k). exact Hturn.
Qed.

End WithActionHash.

End TraceFacts.

(** Pages do not leak from the pool: over a whole crawl every call of
    GetPageFromPool is followed by the PutBrowserToPool of crawlFn before
    the next one is made or Crawl returns, however crawlFn ends, with an
    error or a panic; the one exception is a GetPageFromPool that fails,
    after which Crawl returns that error at once. *)
Theorem pages_go_back_to_the_pool
    (Hash : Crawler.Action -> string) (emptyPageHash : string)
    (opts : Crawler.Options) (first_add : option Crawler.error)
    (envs : list Crawler.Env) (URL : string) :
  let r := Crawler.Crawl Hash emptyPageHash first_add envs
             (Crawler.New opts) URL in
  exists k,
    CrawlTraces.pool_calls (Crawler.events r.1) = CrawlTraces.rounds k
    \/ (CrawlTraces.pool_calls (Crawler.events r.1)
        = CrawlTraces.rounds k ++ [CrawlTraces.PoolGet]
        /\ exists env err,
             env ∈ envs /\ Crawler.pool_get env = Some err
             /\ r.2 = Crawler.Returned (Some err)).
Proof.
  cbv zeta. unfold Crawler.Crawl. rewrite TraceFacts.Crawl_start.
  destruct first_add as [err|].
  - exists 0%nat. left. reflexivity.
  - match goal with |- context [Crawler.Crawl_loop Hash envs ?c0 ?n0] =>
      destruct (TraceFacts.Crawl_loop_pool Hash envs c0 n0 0%nat eq_refl)
        as [k Hk];
      destruct (Crawler.Crawl_loop Hash envs c0 n0) as [c' res]
    end.
    cbn [fst snd] in *. exists k.
    destruct res as [[err|]| |]; try (left; exact Hk).
    destruct Hk as [Hk (env & Hin & Hp)]. right. split; [exact Hk|].
    exists env, err. auto.
Qed.

Module FilterFacts.

Import Crawler CrawlSpec CrawlFacts CrawlTraces TraceFacts.

Section WithActionHash.

Variable Hash : Action -> string.
Variable emptyPageHash : string.

Lemma clean_emit c e : logout_free e -> clean c -> clean (emit e c).
Proof.
  intros He [Hq Hev]. split; [exact Hq|].
  cbn [events emit]. apply Forall_app. split; [exact Hev|now constructor].
Qed.

Lemma offerNavigations_clean pageState navigations :
  inv clean (offerNavigations Hash pageState navigations).
Proof.
  induction navigations as [|nav rest IH]; cbn [offerNavigations].
  - apply inv_ret.
  - intros c Hc. unfold bind at 1. unfold get at 1. cbv beta iota.
    destruct (decide (Hash nav ∈ uniqueActions c)); [now apply IH|].
    unfold bind at 1. unfold modify at 1. cbv beta iota.
    assert (Hc' : clean (set_unique c ({[Hash nav]} ∪ uniqueActions c)))
      by exact Hc.
    destruct (match Element nav with
              | Some element => isLogoutPage element
              | None => false
              end) eqn:Hlogout; [now apply IH|].
    unfold bind at 1. unfold log at 1. cbv beta iota.
    unfold bind at 1. unfold Offer, modify. cbv beta iota.
    assert (Hnav : not_logout (with_OriginID nav (ps_UniqueID pageState))).
    { unfold not_logout. cbn [with_OriginID Element].
      destruct (Element nav); [exact Hlogout|exact I]. }
    apply IH. destruct Hc as [Hq Hev]. split.
    + cbn [crawlQueue set_queue emit set_unique].
      apply Forall_app. split; [exact Hq|now constructor].
    + cbn [events set_queue emit set_unique].
      apply Forall_app. split; [exact Hev|now constructor].
Qed.

Lemma crawl_iter_clean env c n : clean c -> clean (crawl_iter Hash env c n).1.
Proof.
  intros Hc. apply (crawl_iter_inv Hash clean); try exact Hc.
  - intros c0 e He. apply clean_emit.
    destruct He as [->|[->|[p ->]]]; exact I.
  - intros c0 p H; exact H.
  - apply offerNavigations_clean.
  - intros c0 action rest Hq [Hqueue Hev]. split; [|exact Hev].
    cbn [crawlQueue set_queue]. rewrite Hq in Hqueue.
    now inversion Hqueue.
  - intros c0. now apply clean_emit.
  - intros action rest Hq _ c0 e He. apply clean_emit.
    destruct Hc as [Hqueue _]. rewrite Hq in Hqueue.
    assert (Ha : not_logout action) by (now inversion Hqueue).
    destruct He as [He| ->]; [|exact I].
    destruct e; simpl in He |- *; try exact I;
      first [contradiction | now subst].
Qed.

(** *** The graph *)

Lemma rooted_same o c c' :
  options c' = options c -> crawlGraph c' = crawlGraph c ->
  rooted emptyPageHash o c -> rooted emptyPageHash o c'.
Proof. unfold rooted. now intros -> ->. Qed.

Lemma rooted_emit o c e : rooted emptyPageHash o c -> rooted emptyPageHash o (emit e c).
Proof. now apply rooted_same. Qed.

Lemma AddPageState_rooted o answer p :
  in_scope o p -> inv (rooted emptyPageHash o) (AddPageState answer p).
Proof.
  intros Hp. unfold AddPageState.
  apply inv_bind; [apply inv_log; intros; now apply rooted_emit|]. intros _.
  apply inv_bind; [apply inv_check|]. intros _.
  apply inv_modify. intros c [Ho (rest & Hg & Hrest)]. split; [exact Ho|].
  exists (rest ++ [p]). cbn [crawlGraph set_graph]. rewrite Hg. split; [reflexivity|].
  apply Forall_app. split; [exact Hrest|now constructor].
Qed.

Lemma harvest_found_rooted o env pageState diagnostics :
  in_scope o pageState ->
  inv (rooted emptyPageHash o)
    (log EvFindNavigations ;;
     do navigations <- lift (find_navigations env);
     when diagnostics (log EvScreenshot) ;;
     offerNavigations Hash pageState navigations ;;
     AddPageState (add_page_state env) pageState ;;
     do c <- get;
     if Nat.eqb (length navigations) 0 && Nat.eqb (length (crawlQueue c)) 0
     then fail ErrNoCrawlingAction
     else ret tt).
Proof.
  intros Hp.
  apply inv_bind; [apply inv_log; intros; now apply rooted_emit|]. intros _.
  apply inv_bind; [apply inv_lift|]. intros navigations.
  apply inv_bind.
  { destruct diagnostics; [|apply inv_ret].
    apply inv_log; intros; now apply rooted_emit. }
  intros _.
  apply inv_bind.
  { apply offerNavigations_inv.
    - intros c u H; exact H.
    - intros c a H; exact H.
    - intros c h nav H. now apply rooted_emit. }
  intros _.
  apply inv_bind; [now apply AddPageState_rooted|]. intros _.
  apply inv_bind; [apply inv_get|]. intros c.
  destruct (_ && _); [apply inv_fail | apply inv_ret].
Qed.

Lemma crawlFn_harvest_rooted o env pageState :
  inv (rooted emptyPageHash o) (crawlFn_harvest Hash env pageState).
Proof.
  intros c Hc. unfold crawlFn_harvest.
  unfold bind at 1. unfold get at 1. cbv beta iota.
  destruct (match ScopeValidator (options c) with
            | Some valid => negb (valid (ps_URL pageState))
            | None => false
            end) eqn:Hscope.
  - destruct (Nat.eqb _ _); exact Hc.
  - apply harvest_found_rooted; [|exact Hc].
    destruct Hc as [Ho _]. unfold in_scope. rewrite <- Ho.
    destruct (ScopeValidator (options c)); [|exact I].
    now apply negb_false_iff.
Qed.

Lemma crawl_iter_rooted o env c n :
  rooted emptyPageHash o c -> rooted emptyPageHash o (crawl_iter Hash env c n).1.
Proof.
  intros Hc. unfold crawl_iter.
  destruct (_ && timer_fired env); [exact Hc|].
  destruct (_ && (_ <=? n)%Z); [exact Hc|].
  destruct (crawlQueue c) as [|action rest]; [exact Hc|].
  assert (Hc1 : rooted emptyPageHash o (set_queue c rest)) by exact Hc.
  destruct (_ && (_ <? Depth action)%Z); [exact Hc1|].
  apply (rooted_emit o _ EvGetPageFromPool) in Hc1.
  destruct (pool_get env); [exact Hc1|].
  unfold crawlFn.
  assert (Hbody : inv (rooted emptyPageHash o) (crawlFn_body Hash env action)).
  { unfold crawlFn_body. apply inv_bind.
    - eapply yields_inv; [apply crawlFn_act_yields|].
      intros c0 e _. apply rooted_emit.
    - intros p. apply crawlFn_harvest_rooted. }
  specialize (Hbody _ Hc1).
  destruct (crawlFn_body Hash env action _) as [c' r]. cbn [fst] in *.
  now apply rooted_emit.
Qed.

End WithActionHash.

End FilterFacts.

(** The logout filter holds for the whole crawl: no navigation whose
    element matches the logout pattern, in its text or its href, is offered
    to the queue, none is in the queue when Crawl returns, and none is
    executed. *)
Theorem logout_controls_are_never_queued
    (Hash : Crawler.Action -> string) (emptyPageHash : string)
    (opts : Crawler.Options) (first_add : option Crawler.error)
    (envs : list Crawler.Env) (URL : string) :
  let r := Crawler.Crawl Hash emptyPageHash first_add envs
             (Crawler.New opts) URL in
  Forall CrawlTraces.logout_free (Crawler.events r.1)
  /\ Forall CrawlTraces.not_logout (Crawler.crawlQueue r.1).
Proof.
  cbv zeta. unfold Crawler.Crawl. rewrite TraceFacts.Crawl_start.
  destruct first_add as [err|].
  - split; repeat constructor.
  - match goal with |- context [Crawler.Crawl_loop Hash envs ?c0 ?n0] =>
      assert (H0 : CrawlTraces.clean c0) by (split; repeat constructor);
      pose proof (TraceFacts.Crawl_loop_keeps Hash CrawlTraces.clean
                    (FilterFacts.crawl_iter_clean Hash) envs c0 n0 H0)
        as [Hq Hev]
    end.
    split; [exact Hev|exact Hq].
Qed.

(** The graph of a crawl starts with the blank state and goes on with
    page states whose URL the scope validator accepts, if one is
    configured: no state out of scope is ever added.  When installing the
    blank state fails the graph is empty and Crawl returns that error. *)
Theorem graph_is_rooted_and_in_scope
    (Hash : Crawler.Action -> string) (emptyPageHash : string)
    (opts : Crawler.Options) (first_add : option Crawler.error)
    (envs : list Crawler.Env) (URL : string) :
  let r := Crawler.Crawl Hash emptyPageHash first_add envs
             (Crawler.New opts) URL in
  match first_add with
  | None =>
      exists rest,
        Crawler.crawlGraph r.1 = Crawler.blankState emptyPageHash :: rest
        /\ Forall (CrawlTraces.in_scope opts) rest
  | Some err =>
      Crawler.crawlGraph r.1 = [] /\ r.2 = Crawler.Returned (Some err)
  end.
Proof.
  cbv zeta. unfold Crawler.Crawl. rewrite TraceFacts.Crawl_start.
  destruct first_add as [err|]; [split; reflexivity|].
  match goal with |- context [Crawler.Crawl_loop Hash envs ?c0 ?n0] =>
    assert (H0 : CrawlTraces.rooted emptyPageHash opts c0)
      by (split; [reflexivity|exists []; split; [reflexivity|constructor]]);
    pose proof (TraceFacts.Crawl_loop_keeps Hash
                  (CrawlTraces.rooted emptyPageHash opts)
                  (FilterFacts.crawl_iter_rooted Hash emptyPageHash opts)
                  envs c0 n0 H0) as [_ H]
  end.
  exact H.
Qed.

Module SeenFacts.

Import Crawler CrawlSpec CrawlFacts.

Section WithActionHash.

Variable Hash : Action -> string.

(** One navigation of the loop. *)
Lemma offerNavigations_cons pageState nav rest c :
  offerNavigations Hash pageState (nav :: rest) c
  = if decide (Hash nav ∈ uniqueActions c)
    then offerNavigations Hash pageState rest c
    else
      let c1 := set_unique c ({[Hash nav]} ∪ uniqueActions c) in
      if match Element nav with
         | Some element => isLogoutPage element
         | None => false
         end
      then offerNavigations Hash pageState rest c1
      else
        let nav' := with_OriginID nav (ps_UniqueID pageState) in
        let c2 := emit (EvOffer (Hash nav) nav') c1 in
        offerNavigations Hash pageState rest
          (set_queue c2 (crawlQueue c2 ++ [nav'])).
Proof.
  cbn [offerNavigations]. unfold bind at 1. unfold get. cbv beta iota zeta.
  destruct (decide (Hash nav ∈ uniqueActions c)); [reflexivity|].
  unfold bind at 1. unfold modify at 1. cbv beta iota.
  destruct (match Element nav with
            | Some element => isLogoutPage element
            | None => false
            end); [reflexivity|].
  unfold bind at 1. unfold log at 1. cbv beta iota.
  unfold bind at 1. unfold Offer, modify. cbv beta iota. reflexivity.
Qed.

(** The loop over the navigations, as a whole. *)
Lemma offerNavigations_result pageState navigations :
  forall c,
    let r := offerNavigations Hash pageState navigations c in
    r.2 = Val tt
    /\ uniqueActions r.1
       = uniqueActions c ∪ list_to_set (map Hash navigations)
    /\ exists new,
         crawlQueue r.1 = crawlQueue c ++ new
         /\ offered (events r.1) = offered (events c) ++ new
         /\ Forall (fun a => exists nav,
                      nav ∈ navigations
                      /\ a = with_OriginID nav (ps_UniqueID pageState)
                      /\ Hash nav ∉ uniqueActions c) new.
Proof.
  induction navigations as [|nav rest IH]; intros c; cbv zeta.
  - cbn. repeat split; [now rewrite (right_id_L ∅ (∪))|]. exists [].
    rewrite !app_nil_r.
    repeat split. constructor.
  - rewrite offerNavigations_cons.
    destruct (decide (Hash nav ∈ uniqueActions c)) as [Hseen|Hnew].
    { destruct (IH c) as (Hr & Hu & new & Hq & Hoff & Hall).
      split; [exact Hr|]. split.
      - rewrite Hu. cbn [map list_to_set].
        rewrite (assoc_L (∪)), (comm_L (∪) (uniqueActions c) {[Hash nav]}).
        rewrite (subseteq_union_1_L {[Hash nav]} (uniqueActions c));
          [reflexivity|now apply singleton_subseteq_l].
      - exists new. repeat split; try assumption.
        eapply Forall_impl; [exact Hall|].
        intros a (nav0 & Hin & Ha & Hf). exists nav0.
        split; [now right|auto]. }
    cbv zeta.
    destruct (match Element nav with
              | Some element => isLogoutPage element
              | None => false
              end).
    { destruct (IH (set_unique c ({[Hash nav]} ∪ uniqueActions c)))
        as (Hr & Hu & new & Hq & Hoff & Hall).
      split; [exact Hr|]. split.
      - rewrite Hu. cbn [map list_to_set uniqueActions set_unique].
        now rewrite (comm_L (∪) {[Hash nav]}), <- (assoc_L (∪)).
      - exists new. repeat split; try assumption.
        eapply Forall_impl; [exact Hall|].
        intros a (nav0 & Hin & Ha & Hf). exists nav0. split; [now right|].
        split; [exact Ha|]. cbn [uniqueActions set_unique] in Hf.
        intros Hin'. apply Hf. apply elem_of_union. now right. }
    match goal with
    | |- context [offerNavigations Hash pageState rest ?c2] =>
        destruct (IH c2) as (Hr & Hu & new & Hq & Hoff & Hall)
    end.
    split; [exact Hr|]. split.
    + rewrite Hu. cbn [map list_to_set uniqueActions set_unique set_queue emit].
      now rewrite (comm_L (∪) {[Hash nav]}), <- (assoc_L (∪)).
    + exists (with_OriginID nav (ps_UniqueID pageState) :: new). repeat split.
      * rewrite Hq. cbn [crawlQueue set_queue emit set_unique].
        now rewrite <- app_assoc.
      * rewrite Hoff. unfold offered.
        cbn [events set_queue emit set_unique]. rewrite omap_app.
        cbn. now rewrite <- app_assoc.
      * constructor.
        -- exists nav. split; [now left|]. split; [reflexivity|exact Hnew].
        -- eapply Forall_impl; [exact Hall|].
           intros a (nav0 & Hin & Ha & Hf). exists nav0. split; [now right|].
           split; [exact Ha|].
           cbn [uniqueActions set_unique set_queue emit] in Hf.
           intros Hin'. apply Hf. apply elem_of_union. now right.
Qed.

End WithActionHash.

End SeenFacts.

(** The loop over the navigations of a page never fails and remembers
    every navigation it has looked at, also those it does not offer:
    afterwards uniqueActions holds, beside what it held, the hashes of all
    navigations of the page, those of logout controls included.  What is
    appended to the queue are navigations of the page whose hash was not
    known before, with the page state as origin, in the order of the
    offers. *)
Theorem navigations_seen_are_remembered
    (Hash : Crawler.Action -> string) (pageState : Crawler.PageState)
    (navigations : list Crawler.Action) (c : Crawler.Crawler) :
  let r := Crawler.offerNavigations Hash pageState navigations c in
  r.2 = Crawler.Val tt
  /\ Crawler.uniqueActions r.1
     = Crawler.uniqueActions c ∪ list_to_set (map Hash navigations)
  /\ exists new,
       Crawler.crawlQueue r.1 = Crawler.crawlQueue c ++ new
       /\ CrawlSpec.offered (Crawler.events r.1)
          = CrawlSpec.offered (Crawler.events c) ++ new
       /\ Forall (fun a => exists nav,
                    nav ∈ navigations
                    /\ a = Crawler.with_OriginID nav
                             (Crawler.ps_UniqueID pageState)
                    /\ Hash nav ∉ Crawler.uniqueActions c) new.
Proof.
  destruct (SeenFacts.offerNavigations_result Hash pageState navigations c)
    as (Hr & Hu & Hnew).
  cbv zeta. auto.
Qed.

Module QueueFacts.

Import Crawler CrawlSpec CrawlFacts CrawlTraces TraceFacts QueueSpec.

Lemma silent_events (evs : list Event) :
  Forall silent evs -> offered evs = [] /\ executed evs = [].
Proof.
  induction 1 as [|e evs He _ [IHo IHe]]; [split; reflexivity|].
  unfold offered, executed in *. cbn [omap list_omap].
  destruct e; try contradiction; cbn; auto.
Qed.

Lemma emits_silent {A} action (R : A -> Prop) (m : M A) :
  yields silent R m -> emits (runs_at_most action 0) m.
Proof.
  intros Hm c. destruct (Hm c) as (evs & Hc & Hevs & _).
  exists evs. split; [exact Hc|].
  destruct (silent_events evs Hevs) as [Ho He].
  split; [exact Ho|]. exists 0%nat. split; [lia|exact He].
Qed.

Lemma emits_bind {A B} action (j k : nat) (m : M A) (f : A -> M B) :
  emits (runs_at_most action j) m ->
  (forall a, emits (runs_at_most action k) (f a)) ->
  emits (runs_at_most action (j + k)) (bind m f).
Proof.
  intros Hm Hf c. unfold bind.
  destruct (Hm c) as (evs & Hc & Ho & j' & Hj & He).
  destruct (m c) as [c1 [a|e|]]; cbn [fst] in Hc; subst c1.
  - destruct (Hf a (add_events c evs)) as (evs' & Hc' & Ho' & k' & Hk & He').
    exists (evs ++ evs'). rewrite Hc', add_events_app. split; [reflexivity|].
    unfold runs_at_most, offered, executed in *.
    rewrite !omap_app, Ho, Ho', He, He'.
    split; [reflexivity|]. exists (j' + k')%nat. split; [lia|].
    now rewrite repeat_app.
  - exists evs. split; [reflexivity|]. split; [exact Ho|].
    exists j'. split; [lia|exact He].
  - exists evs. split; [reflexivity|]. split; [exact Ho|].
    exists j'. split; [lia|exact He].
Qed.

Lemma emits_execute action :
  emits (runs_at_most action 1) (log (EvExecute action)).
Proof.
  intros c. exists [EvExecute action]. split; [reflexivity|].
  split; [reflexivity|]. exists 1%nat. split; [lia|reflexivity].
Qed.

Lemma browser_silent e : browser_event e -> silent e.
Proof. destruct e; simpl; tauto. Qed.

(** Up to the page state crawlFn executes the action at most once and
    offers nothing. *)
Lemma crawlFn_act_runs env action :
  emits (runs_at_most action 1) (crawlFn_act env action).
Proof.
  unfold crawlFn_act.
  apply (emits_bind action 0 1);
    [apply (emits_silent action anything); yields_auto; exact I|]. intros _.
  apply (emits_bind action 0 1);
    [apply (emits_silent action anything); yields_auto|]. intros h.
  apply (emits_bind action 0 1);
    [apply (emits_silent action anything); yields_auto; exact I|]. intros h'.
  apply (emits_bind action 0 1);
    [apply (emits_silent action anything); yields_auto|]. intros c.
  apply (emits_bind action 0 1);
    [apply (emits_silent action anything); yields_auto; exact I|]. intros _.
  apply (emits_bind action 1 0); [apply emits_execute|]. intros _.
  apply (emits_silent action anything).
  apply (yields_bind _ anything).
  { eapply yields_weaken; [apply executeCrawlStateAction_yields| |auto].
    apply browser_silent. }
  intros _ _. yields_auto; exact I.
Qed.

Section WithActionHash.

Variable Hash : Action -> string.
Variable emptyPageHash : string.

Lemma harvesting_emit seed done E c e :
  silent e -> harvesting seed done E c -> harvesting seed done E (emit e c).
Proof.
  intros He [Hq Hex]. unfold harvesting, offered, executed in *.
  cbn [events emit crawlQueue]. rewrite !omap_app.
  destruct (silent_events [e]) as [Ho He']; [now constructor|].
  unfold offered, executed in *. now rewrite Ho, He', !app_nil_r.
Qed.

Lemma offerNavigations_harvesting seed done E pageState navigations :
  inv (harvesting seed done E) (offerNavigations Hash pageState navigations).
Proof.
  induction navigations as [|nav rest IH]; cbn [offerNavigations].
  - apply inv_ret.
  - intros c Hc. unfold bind at 1. unfold get at 1. cbv beta iota.
    destruct (decide (Hash nav ∈ uniqueActions c)); [now apply IH|].
    unfold bind at 1. unfold modify at 1. cbv beta iota.
    assert (Hc' : harvesting seed done E
                    (set_unique c ({[Hash nav]} ∪ uniqueActions c)))
      by exact Hc.
    destruct (match Element nav with
              | Some element => isLogoutPage element
              | None => false
              end); [now apply IH|].
    unfold bind at 1. unfold log at 1. cbv beta iota.
    unfold bind at 1. unfold Offer, modify. cbv beta iota.
    apply IH. destruct Hc as [Hq Hex]. unfold harvesting, offered, executed in *.
    cbn [events crawlQueue set_queue emit set_unique].
    rewrite !omap_app. cbn [omap list_omap mbind option_bind app].
    rewrite app_nil_r, app_assoc, Hq. split; [reflexivity|exact Hex].
Qed.

Lemma crawlFn_harvest_harvesting seed done E env pageState :
  inv (harvesting seed done E) (crawlFn_harvest Hash env pageState).
Proof.
  apply (crawlFn_harvest_inv Hash (harvesting seed done E)).
  - intros c e He. apply harvesting_emit.
    destruct He as [->|[->|[p ->]]]; exact I.
  - intros c p H; exact H.
  - apply offerNavigations_harvesting.
Qed.

Lemma in_order_emit seed c e :
  silent e -> in_order seed c -> in_order seed (emit e c).
Proof.
  intros He (done & Hq & Hex). exists done.
  destruct (harvesting_emit seed done _ c e He (conj Hq eq_refl)) as [Hq' Hex'].
  split; [exact Hq'|]. now rewrite Hex'.
Qed.

Lemma repeat_sublist {A} (a : A) j : (j <= 1)%nat -> sublist (repeat a j) [a].
Proof.
  intros Hj. destruct j as [|[|j]]; [|reflexivity|lia].
  apply sublist_nil_l.
Qed.

(** One turn keeps the order. *)
Lemma crawl_iter_in_order seed env c n :
  in_order seed c -> in_order seed (crawl_iter Hash env c n).1.
Proof.
  intros Hc. unfold crawl_iter.
  destruct (_ && timer_fired env); [exact Hc|].
  destruct (_ && (_ <=? n)%Z); [exact Hc|].
  destruct (crawlQueue c) as [|action rest] eqn:Hqueue; [exact Hc|].
  destruct Hc as (done & Hq & Hex). rewrite Hqueue in Hq.
  assert (Hq1 : (done ++ [action]) ++ rest = seed :: offered (events c))
    by (now rewrite <- app_assoc).
  assert (Hc1 : in_order seed (set_queue c rest)).
  { exists (done ++ [action]). split; [exact Hq1|].
    now apply sublist_inserts_r. }
  destruct (_ && (_ <? Depth action)%Z); [exact Hc1|].
  destruct (pool_get env); [now apply in_order_emit|].
  unfold crawlFn.
  set (c2 := emit EvGetPageFromPool (set_queue c rest)).
  assert (Hbody : in_order seed (crawlFn_body Hash env action c2).1).
  { unfold crawlFn_body, bind.
    destruct (crawlFn_act_runs env action c2) as (evs & Hact & Ho & j & Hj & He).
    destruct (crawlFn_act env action c2) as [c3 r]. cbn [fst] in Hact. subst c3.
    assert (H3 : harvesting seed (done ++ [action])
                   (executed (events c) ++ repeat action j)
                   (add_events c2 evs)).
    { unfold harvesting, offered, executed in *.
      cbn [events crawlQueue add_events c2 emit set_queue].
      rewrite !omap_app, Ho, He. cbn [omap list_omap mbind option_bind].
      rewrite !app_nil_r. split; [exact Hq1|reflexivity]. }
    assert (Hsub : sublist (executed (events c) ++ repeat action j)
                     (done ++ [action])).
    { apply sublist_app; [exact Hex|now apply repeat_sublist]. }
    destruct r as [p|e|].
    - pose proof (crawlFn_harvest_harvesting seed _ _ env p _ H3) as [Hq4 Hex4].
      exists (done ++ [action]). split; [exact Hq4|]. now rewrite Hex4.
    - destruct H3 as [Hq3 Hex3]. exists (done ++ [action]).
      split; [exact Hq3|]. cbn [fst]. now rewrite Hex3.
    - destruct H3 as [Hq3 Hex3]. exists (done ++ [action]).
      split; [exact Hq3|]. cbn [fst]. now rewrite Hex3. }
  destruct (crawlFn_body Hash env action c2) as [c' r]. cbn [fst] in *.
  now apply in_order_emit.
Qed.

End WithActionHash.

End QueueFacts.

(** The queue is first in, first out, over a whole crawl: at the end the
    actions taken off the queue followed by those still in it are the seed
    and then the offered navigations in the order of the offers, and the
    executed actions are among those taken off, in that order, each
    executed at most once for each time it was queued. *)
Theorem actions_are_executed_in_queue_order
    (Hash : Crawler.Action -> string) (emptyPageHash : string)
    (opts : Crawler.Options) (first_add : option Crawler.error)
    (envs : list Crawler.Env) (URL : string) :
  let r := Crawler.Crawl Hash emptyPageHash first_add envs
             (Crawler.New opts) URL in
  exists done,
    done ++ Crawler.crawlQueue r.1
    = Crawler.seedAction emptyPageHash URL
      :: CrawlSpec.offered (Crawler.events r.1)
    /\ sublist (CrawlSpec.executed (Crawler.events r.1)) done.
Proof.
  cbv zeta. unfold Crawler.Crawl. rewrite TraceFacts.Crawl_start.
  destruct first_add as [err|].
  - exists []. split; [reflexivity|constructor].
  - match goal with |- context [Crawler.Crawl_loop Hash envs ?c0 ?n0] =>
      assert (H0 : QueueSpec.in_order (Crawler.seedAction emptyPageHash URL) c0)
        by (exists []; split; [reflexivity|constructor]);
      exact (TraceFacts.Crawl_loop_keeps Hash _
               (QueueFacts.crawl_iter_in_order Hash
                  (Crawler.seedAction emptyPageHash URL)) envs c0 n0 H0)
    end.
Qed.

Module QuietFacts.

Import Crawler CrawlSpec CrawlFacts CrawlTraces TraceFacts QuietSpec.

Section Avoids.

Context {A B : Type} (bad : error -> Prop).

Lemma avoids_ret (R : A -> Prop) (a : A) : R a -> avoids bad R (ret a).
Proof. intros Ha c. split; [discriminate|]. now intros a' [= <-]. Qed.

Lemma avoids_fail (R : A -> Prop) (e : error) :
  ~ bad e -> avoids bad R (fail e).
Proof. intros He c. split; [|discriminate]. now intros e' [= <-]. Qed.

Lemma avoids_panic (R : A -> Prop) : avoids bad R panic.
Proof. intros c. split; discriminate. Qed.

Lemma avoids_lift (R : A -> Prop) (r : res A) :
  free_of bad r -> (forall a, r = Val a -> R a) -> avoids bad R (lift r).
Proof. intros Hr HR c. split; [exact Hr|exact HR]. Qed.

Lemma avoids_get (R : Crawler -> Prop) : (forall c, R c) -> avoids bad R get.
Proof. intros HR c. split; [discriminate|]. intros; apply HR. Qed.

Lemma avoids_bind (R1 : A -> Prop) (R2 : B -> Prop) (m : M A) (f : A -> M B) :
  avoids bad R1 m -> (forall a, R1 a -> avoids bad R2 (f a)) ->
  avoids bad R2 (bind m f).
Proof.
  intros Hm Hf c. unfold bind. destruct (Hm c) as [Hne HR].
  destruct (m c) as [c1 [a|e|]]; cbn [snd] in *.
  - apply Hf. now apply HR.
  - split; [|discriminate]. intros e' [= <-]. now apply Hne.
  - split; discriminate.
Qed.

End Avoids.

Lemma avoids_log bad (R : unit -> Prop) (e : Event) :
  R tt -> avoids bad R (log e).
Proof. intros Ht c. split; [discriminate|]. now intros []. Qed.

Lemma avoids_check bad (R : unit -> Prop) (r : option error) :
  nil_or_not bad r -> R tt -> avoids bad R (check r).
Proof.
  intros Hr Ht. destruct r as [e|]; [|now apply avoids_ret].
  apply avoids_fail. now apply Hr.
Qed.

Lemma avoids_modify bad (R : unit -> Prop) f : R tt -> avoids bad R (modify f).
Proof. intros Ht c. split; [discriminate|]. now intros []. Qed.

Lemma not_sentinel_visible : ~ sentinel ErrElementNotVisible.
Proof. discriminate. Qed.

(** One step of an [avoids] derivation along the shape of the program. *)
Ltac avoids_step :=
  lazymatch goal with
  | |- avoids _ _ (bind _ _) => apply (avoids_bind _ anything); [|intros ? _]
  | |- avoids _ _ (ret _) => apply avoids_ret
  | |- avoids _ _ panic => apply avoids_panic
  | |- avoids _ _ get => apply avoids_get
  | |- avoids _ _ (log _) => apply avoids_log
  | |- avoids _ _ (when ?b _) => destruct b; cbn [when]
  | |- avoids _ _ (if ?b then _ else _) => destruct b
  | |- avoids _ _ (match ?x with _ => _ end) => destruct x
  end.

Ltac avoids_auto :=
  repeat first [avoids_step | exact I | progress (unfold anything; auto)].

Lemma applySuggestion_avoids bad elementMap fieldName value :
  avoids bad anything (applySuggestion elementMap fieldName value).
Proof. unfold applySuggestion. avoids_auto. Qed.

Lemma applyFormSuggestions_avoids bad suggestions_ elementMap :
  avoids bad anything (applyFormSuggestions suggestions_ elementMap).
Proof.
  induction suggestions_ as [|[fieldName value] rest IH];
    cbn [applyFormSuggestions].
  - avoids_auto.
  - apply (avoids_bind _ anything); [apply applySuggestion_avoids|].
    intros _ _. exact IH.
Qed.

Lemma scanField_submit env field element acc :
  quiet_element element -> quiet_submit acc ->
  quiet_submit (scanField env field element acc).
Proof.
  intros Hel Hacc. unfold scanField, quiet_submit in *.
  destruct (submitButton acc) as [b|] eqn:Hb;
    repeat match goal with
           | |- context [if ?b then _ else _] => destruct b
           end;
    cbn [submitButton add_field set_submit]; rewrite ?Hb; auto.
Qed.

Lemma scanFields_avoids env fields :
  quiet env ->
  forall acc, quiet_submit acc ->
              avoids sentinel quiet_submit (scanFields env fields acc).
Proof.
  intros Henv. induction fields as [|field rest IH]; intros acc Hacc;
    cbn [scanFields].
  - now apply avoids_ret.
  - destruct (String.eqb (XPath field) ""); [now apply IH|].
    apply (avoids_bind _ anything); [now apply avoids_log|]. intros _ _.
    destruct (page_elementX env (XPath field)) as [element|e|] eqn:Hel.
    + apply IH. apply scanField_submit; [|exact Hacc].
      destruct Henv as (_ & _ & _ & _ & _ & _ & _ & Hq & _). eapply Hq; eauto.
    + now apply IH.
    + apply avoids_panic.
Qed.

Lemma processForm_avoids env form :
  quiet env -> avoids sentinel anything (processForm env form).
Proof.
  intros Henv. unfold processForm.
  apply (avoids_bind _ anything); [now apply avoids_get|]. intros c _.
  destruct (negb _); [now apply avoids_ret|].
  destruct form as [form|]; [|apply avoids_panic].
  apply (avoids_bind _ quiet_submit); [apply scanFields_avoids; [exact Henv|exact I]|].
  intros scan Hscan.
  apply (avoids_bind _ anything); [apply applyFormSuggestions_avoids|].
  intros _ _. unfold quiet_submit in Hscan.
  destruct (submitButton scan) as [button|]; [|now apply avoids_ret].
  apply (avoids_bind _ anything); [now apply avoids_log|]. intros _ _.
  apply avoids_check; [|exact I]. apply Hscan.
Qed.

Lemma executeCrawlStateAction_avoids env action :
  quiet env -> avoids sentinel anything (executeCrawlStateAction env action).
Proof.
  intros Henv. pose proof Henv as Hq.
  destruct Hq as (_ & _ & _ & _ & Hnav & Hwait & Hx & Hel & _).
  unfold executeCrawlStateAction.
  assert (Hclick : forall target,
    avoids sentinel anything
      (log (EvElementX (XPath target)) ;;
       do element <- lift (page_elementX env (XPath target));
       log (EvScrollIntoView (el_id element)) ;;
       check (el_scroll element) ;;
       do visible <- lift (el_visible element);
       if negb visible then fail ErrElementNotVisible
       else
         match el_interactable element with
         | Panic => panic
         | Fail err =>
             if errors_As err CoveredError then fail ErrElementNotVisible
             else fail err
         | Val false => fail ErrElementNotVisible
         | Val true =>
             log (EvClick (el_id element)) ;;
             check (el_click element) ;;
             log EvWaitPageLoad ;;
             check (wait_load env)
         end)).
  { intros target.
    apply (avoids_bind _ anything); [now apply avoids_log|]. intros _ _.
    apply (avoids_bind _ (fun element => quiet_element element)).
    { apply avoids_lift; [apply Hx|]. intros el Hval. eapply Hel; eauto. }
    intros element (Hc & Hs & Hv & Hi).
    apply (avoids_bind _ anything); [now apply avoids_log|]. intros _ _.
    apply (avoids_bind _ anything); [now apply avoids_check|]. intros _ _.
    apply (avoids_bind _ anything); [now apply avoids_lift|]. intros visible _.
    destruct (negb visible); [apply avoids_fail, not_sentinel_visible|].
    destruct (el_interactable element) as [[|]|err|] eqn:Hint.
    - apply (avoids_bind _ anything); [now apply avoids_log|]. intros _ _.
      apply (avoids_bind _ anything); [now apply avoids_check|]. intros _ _.
      apply (avoids_bind _ anything); [now apply avoids_log|]. intros _ _.
      now apply avoids_check.
    - apply avoids_fail, not_sentinel_visible.
    - destruct (errors_As err CoveredError);
        [apply avoids_fail, not_sentinel_visible|].
      apply avoids_fail. now apply Hi.
    - apply avoids_panic. }
  destruct (Type__ action).
  - apply (avoids_bind _ anything); [now apply avoids_log|]. intros _ _.
    apply (avoids_bind _ anything); [now apply avoids_check|]. intros _ _.
    apply (avoids_bind _ anything); [now apply avoids_log|]. intros _ _.
    now apply avoids_check.
  - destruct (Element action); [apply Hclick|apply avoids_panic].
  - destruct (Element action); [apply Hclick|apply avoids_panic].
  - now apply processForm_avoids.
  - apply avoids_fail. discriminate.
Qed.

Lemma crawlFn_act_avoids env action :
  quiet env -> avoids sentinel anything (crawlFn_act env action).
Proof.
  intros Henv. pose proof Henv as Hq.
  destruct Hq as (_ & Hhash & Hback & Hlog & _ & _ & _ & _ & Hnew & Hlogp & _).
  unfold crawlFn_act.
  apply (avoids_bind _ anything); [now apply avoids_log|]. intros _ _.
  apply (avoids_bind _ anything); [now apply avoids_lift|]. intros h _.
  apply (avoids_bind _ anything).
  { destruct (_ && _); [|now apply avoids_ret].
    apply (avoids_bind _ anything); [now apply avoids_log|]. intros _ _.
    now apply avoids_lift. }
  intros h' _.
  apply (avoids_bind _ anything); [now apply avoids_get|]. intros c _.
  apply (avoids_bind _ anything).
  { destruct (EnableDiagnostics (options c)); cbn [when];
      [|now apply avoids_ret].
    apply (avoids_bind _ anything); [now apply avoids_log|]. intros _ _.
    now apply avoids_check. }
  intros _ _.
  apply (avoids_bind _ anything); [now apply avoids_log|]. intros _ _.
  apply (avoids_bind _ anything); [now apply executeCrawlStateAction_avoids|].
  intros _ _.
  apply (avoids_bind _ anything); [now apply avoids_log|]. intros _ _.
  apply (avoids_bind _ anything); [now apply avoids_lift|]. intros p _.
  apply (avoids_bind _ anything).
  { destruct (EnableDiagnostics (options c)); cbn [when];
      [|now apply avoids_ret].
    apply (avoids_bind _ anything); [now apply avoids_log|]. intros _ _.
    now apply avoids_check. }
  intros _ _. now apply avoids_ret.
Qed.

(** *** The sentinel of crawlFn *)

Lemma guarded_bind {A B} (R : A -> Prop) (m : M A) (f : A -> M B) :
  avoids sentinel R m -> (forall a, guarded (f a)) -> guarded (bind m f).
Proof.
  intros Hm Hf c. unfold bind. destruct (Hm c) as [Hne _].
  destruct (m c) as [c1 [a|e|]]; cbn [fst snd] in *.
  - apply Hf.
  - intros [= ->]. now destruct (Hne _ eq_refl).
  - discriminate.
Qed.

Section WithActionHash.

Variable Hash : Action -> string.
Variable emptyPageHash : string.

Lemma offerNavigations_avoids bad pageState navigations :
  avoids bad anything (offerNavigations Hash pageState navigations).
Proof.
  induction navigations as [|nav rest IH]; cbn [offerNavigations].
  - now apply avoids_ret.
  - apply (avoids_bind _ anything); [now apply avoids_get|]. intros c _.
    destruct (decide _); [exact IH|].
    apply (avoids_bind _ anything); [now apply avoids_modify|]. intros _ _.
    destruct (match Element nav with Some _ => _ | None => _ end); [exact IH|].
    apply (avoids_bind _ anything); [now apply avoids_log|]. intros _ _.
    apply (avoids_bind _ anything); [now apply avoids_modify|]. intros _ _.
    exact IH.
Qed.

Lemma empty_queue (q : list Action) : Nat.eqb (length q) 0 = true -> q = [].
Proof. now destruct q. Qed.

Lemma AddPageState_avoids answer p :
  no_sentinel answer -> avoids sentinel anything (AddPageState answer p).
Proof.
  intros Ha. unfold AddPageState.
  apply (avoids_bind _ anything); [now apply avoids_log|]. intros _ _.
  apply (avoids_bind _ anything); [now apply avoids_check|]. intros _ _.
  now apply avoids_modify.
Qed.

Lemma harvest_found_guarded env pageState diagnostics :
  quiet env ->
  guarded
    (log EvFindNavigations ;;
     do navigations <- lift (find_navigations env);
     when diagnostics (log EvScreenshot) ;;
     offerNavigations Hash pageState navigations ;;
     AddPageState (add_page_state env) pageState ;;
     do c <- get;
     if Nat.eqb (length navigations) 0 && Nat.eqb (length (crawlQueue c)) 0
     then fail ErrNoCrawlingAction
     else ret tt).
Proof.
  intros Henv.
  destruct Henv as (_ & _ & _ & _ & _ & _ & _ & _ & _ & _ & Hfind & Hadd).
  apply (guarded_bind anything); [now apply avoids_log|]. intros _.
  apply (guarded_bind anything); [now apply avoids_lift|]. intros navigations.
  apply (guarded_bind anything).
  { destruct diagnostics; cbn [when]; [now apply avoids_log|now apply avoids_ret]. }
  intros _.
  apply (guarded_bind anything); [apply offerNavigations_avoids|]. intros _.
  apply (guarded_bind anything); [now apply AddPageState_avoids|]. intros _.
  intros c. unfold bind, get. cbv beta iota.
  destruct (Nat.eqb (length navigations) 0); cbn [andb]; [|discriminate].
  destruct (Nat.eqb (length (crawlQueue c)) 0) eqn:Hq; [|discriminate].
  intros _. now apply empty_queue.
Qed.

Lemma crawlFn_harvest_cases env pageState c :
  crawlFn_harvest Hash env pageState c
  = if match ScopeValidator (options c) with
       | Some valid => negb (valid (ps_URL pageState))
       | None => false
       end
    then
      (c, if Nat.eqb (length (crawlQueue c)) 0
          then Fail ErrNoCrawlingAction else Val tt)
    else
      (log EvFindNavigations ;;
       do navigations <- lift (find_navigations env);
       when (EnableDiagnostics (options c)) (log EvScreenshot) ;;
       offerNavigations Hash pageState navigations ;;
       AddPageState (add_page_state env) pageState ;;
       do c <- get;
       if Nat.eqb (length navigations) 0 && Nat.eqb (length (crawlQueue c)) 0
       then fail ErrNoCrawlingAction
       else ret tt) c.
Proof.
  unfold crawlFn_harvest. unfold bind at 1. unfold get at 1. cbv beta iota.
  destruct (match ScopeValidator (options c) with
            | Some valid => negb (valid (ps_URL pageState))
            | None => false
            end); [|reflexivity].
  now destruct (Nat.eqb _ _).
Qed.

Lemma crawlFn_harvest_guarded env pageState :
  quiet env -> guarded (crawlFn_harvest Hash env pageState).
Proof.
  intros Henv c. rewrite crawlFn_harvest_cases.
  destruct (match ScopeValidator (options c) with
            | Some valid => negb (valid (ps_URL pageState))
            | None => false
            end).
  - cbn [fst snd].
    destruct (Nat.eqb (length (crawlQueue c)) 0) eqn:Hq; [|discriminate].
    intros _. now apply empty_queue.
  - now apply harvest_found_guarded.
Qed.

(** With answers free of the sentinel crawlFn returns it with an empty
    queue only. *)
Lemma crawlFn_guarded env action :
  quiet env -> guarded (crawlFn Hash env action).
Proof.
  intros Henv c. unfold crawlFn.
  assert (Hbody : guarded (crawlFn_body Hash env action)).
  { unfold crawlFn_body. apply (guarded_bind anything).
    - now apply crawlFn_act_avoids.
    - intros p. now apply crawlFn_harvest_guarded. }
  specialize (Hbody c).
  destruct (crawlFn_body Hash env action c) as [c' r]. exact Hbody.
Qed.

Lemma sentinel_eqb (e : error) :
  error_eqb e ErrNoCrawlingAction = true -> e = ErrNoCrawlingAction.
Proof. destruct e; simpl; congruence. Qed.

Lemma classify_return (r : res unit) n err :
  classify r n = Return err -> r = Fail ErrNoCrawlingAction /\ err = None.
Proof.
  destruct r as [[]|e|]; cbn [classify]; try discriminate.
  destruct (error_eqb e ErrNoCrawlingAction) eqn:He.
  - intros [= <-]. now rewrite (sentinel_eqb e He).
  - repeat match goal with
           | |- (if ?b then _ else _) = _ -> _ => destruct b
           end; discriminate.
Qed.

(** A quiet turn without failure budget returns nil with an empty queue
    only. *)
Lemma crawl_iter_drained env c n :
  quiet env -> (MaxFailureCount (options c) <= 0)%Z ->
  control (crawl_iter Hash env c n).2 n = Return None ->
  crawlQueue (crawl_iter Hash env c n).1 = [].
Proof.
  intros Henv Hbudget. unfold crawl_iter.
  destruct Henv as [Htimer Henv']. rewrite Htimer, andb_false_r.
  assert (Henv : quiet env) by (split; assumption).
  assert (Hb : (0 <? MaxFailureCount (options c))%Z = false)
    by (apply Z.ltb_ge; lia).
  rewrite Hb. cbn [andb].
  destruct (crawlQueue c) as [|action rest] eqn:Hq; [intros _; exact Hq|].
  destruct (_ && (_ <? Depth action)%Z); [discriminate|].
  destruct (pool_get env); [discriminate|].
  pose proof (crawlFn_guarded env action Henv
                (emit EvGetPageFromPool (set_queue c rest))) as Hg.
  destruct (crawlFn Hash env action _) as [c' r]. cbn [fst snd control] in *.
  intros Hcl. apply classify_return in Hcl as [-> _]. now apply Hg.
Qed.

Lemma Crawl_loop_drained envs :
  forall c n,
    Forall quiet envs -> (MaxFailureCount (options c) <= 0)%Z ->
    (Crawl_loop Hash envs c n).2 = Returned None ->
    crawlQueue (Crawl_loop Hash envs c n).1 = [].
Proof.
  induction envs as [|env envs IH]; intros c n Henvs Hbudget;
    cbn [Crawl_loop]; [discriminate|].
  inversion Henvs as [|? ? Henv Hrest]; subst.
  pose proof (crawl_iter_drained env c n Henv Hbudget) as Hturn.
  pose proof (crawl_iter_options Hash env c n) as Hopts.
  destruct (crawl_iter Hash env c n) as [c' k]. cbn [fst snd] in *.
  destruct (control k n) as [n'|err|].
  - apply IH; [exact Hrest|now rewrite Hopts].
  - cbn [fst snd]. intros [= ->]. now apply Hturn.
  - discriminate.
Qed.

End WithActionHash.

End QuietFacts.

(** A crawl in which the deadline does not fire, with no failure budget and
    with a browser that never answers with the package's own sentinel, does
    not return nil before it has taken every action off the queue: whether
    it ends on an empty queue or on the NO_MORE_ACTIONS of crawlFn, the
    queue is empty. *)
Theorem crawl_returns_nil_on_empty_queue_only
    (Hash : Crawler.Action -> string) (emptyPageHash : string)
    (opts : Crawler.Options) (first_add : option Crawler.error)
    (envs : list Crawler.Env) (URL : string) :
  (Crawler.MaxFailureCount opts <= 0)%Z ->
  Forall QuietSpec.quiet envs ->
  let r := Crawler.Crawl Hash emptyPageHash first_add envs
             (Crawler.New opts) URL in
  r.2 = Crawler.Returned None -> Crawler.crawlQueue r.1 = [].
Proof.
  intros Hbudget Henvs. cbv zeta. unfold Crawler.Crawl.
  rewrite TraceFacts.Crawl_start.
  destruct first_add as [err|]; [discriminate|].
  now apply QuietFacts.Crawl_loop_drained.
Qed.

(** The seed's page shows one link, the page of the link none. *)
Lemma crawl_returns_nil_on_empty_queue_only_witness :
  let r := Crawler.Crawl Crawler.Hash_spec "blank" None
             [CrawlSpec.turn CrawlSpec.landing
                [CrawlSpec.load "http://site/a" 1 ""];
              CrawlSpec.turn CrawlSpec.landing []]
             (Crawler.New CrawlSpec.plain_options) "http://site/" in
  r.2 = Crawler.Returned None
  /\ Crawler.crawlQueue r.1 = []
  /\ CrawlSpec.executed (Crawler.events r.1)
     = [CrawlSpec.load "http://site/" 0 "blank";
        CrawlSpec.load "http://site/a" 1 "state-1"].
Proof.
  cbv zeta. split; [reflexivity|]. split; [|reflexivity].
  apply (crawl_returns_nil_on_empty_queue_only Crawler.Hash_spec "blank"
           CrawlSpec.plain_options None).
  - simpl. lia.
  - assert (Hq : forall state navigations,
                   QuietSpec.quiet (CrawlSpec.turn state navigations)).
    { intros state navigations.
      repeat split; try (intros e He; discriminate He);
        try match goal with H : _ = Crawler.Val _ |- _ => discriminate H end.
      intros xpath e [= <-]. discriminate. }
    repeat (constructor; [apply Hq|]). constructor.
  - reflexivity.
Defined.

Module FormFacts.

Import Crawler CrawlSpec CrawlFacts QuietSpec QuietFacts FormSpec.

Local Open Scope string_scope.

Lemma scanField_submit_from env fields field element acc :
  field ∈ fields -> page_elementX env (XPath field) = Val element ->
  submit_from env fields acc ->
  submit_from env fields (scanField env field element acc).
Proof.
  intros Hin Hel Hacc. unfold scanField, submit_from in *.
  assert (Hnew : forall tag, TagName field = tag ->
                   (tag = "INPUT" \/ tag = "BUTTON") ->
                   Type_ field = "submit" -> submit_field env fields element).
  { intros tag Htag Hor Hty. exists field. rewrite Htag. auto. }
  destruct (String.eqb_spec (TagName field) "INPUT") as [Hi|_].
  - destruct (String.eqb_spec (Type_ field) "submit") as [Hs|_];
      cbn [orb];
      [|destruct (String.eqb (Type_ field) "button");
        cbn [submitButton add_field]; [|exact Hacc]];
      destruct (submitButton acc) eqn:Hb; cbn [submitButton set_submit];
      rewrite ?Hb; eauto.
  - destruct (String.eqb (TagName field) "TEXTAREA"); [exact Hacc|].
    destruct (String.eqb (TagName field) "SELECT"); [exact Hacc|].
    destruct (String.eqb_spec (TagName field) "BUTTON") as [Hb|_];
      [|exact Hacc].
    destruct (submitButton acc) eqn:Hsb; [now rewrite Hsb|].
    destruct (String.eqb_spec (Type_ field) "submit") as [Hs|_];
      cbn [submitButton set_submit]; rewrite ?Hsb; eauto.
Qed.

Lemma scanFields_submit_from env all fields :
  (forall f, f ∈ fields -> f ∈ all) ->
  forall acc, submit_from env all acc ->
              avoids any_error (submit_from env all) (scanFields env fields acc).
Proof.
  induction fields as [|field rest IH]; intros Hsub acc Hacc;
    cbn [scanFields].
  - now apply avoids_ret.
  - assert (Hrest : forall f, f ∈ rest -> f ∈ all)
      by (intros f Hf; apply Hsub; now right).
    destruct (String.eqb (XPath field) ""); [now apply IH|].
    apply (avoids_bind _ anything); [now apply avoids_log|]. intros _ _.
    destruct (page_elementX env (XPath field)) as [element|e|] eqn:Hel.
    + apply IH; [exact Hrest|].
      apply scanField_submit_from; [apply Hsub; now left|exact Hel|exact Hacc].
    + now apply IH.
    + apply avoids_panic.
Qed.

(** processForm, call by call. *)
Lemma processForm_cases env form c :
  processForm env (Some form) c
  = if negb (AutomaticFormFill (options c)) then (c, Val tt)
    else
      let '(c1, r1) :=
        scanFields env (Elements form)
          {| formFields := []; submitButton := None; elementMap := ∅ |} c in
      match r1 with
      | Val scan =>
          let '(c2, r2) :=
            applyFormSuggestions (suggestions env (formFields scan))
              (elementMap scan) c1 in
          match r2 with
          | Val _ =>
              match submitButton scan with
              | Some button =>
                  (emit (EvClick (el_id button)) c2,
                   match el_click button with
                   | Some e => Fail e
                   | None => Val tt
                   end)
              | None => (c2, Val tt)
              end
          | Fail e => (c2, Fail e)
          | Panic => (c2, Panic)
          end
      | Fail e => (c1, Fail e)
      | Panic => (c1, Panic)
      end.
Proof.
  unfold processForm, bind, get.
  destruct (negb (AutomaticFormFill (options c))); [reflexivity|].
  destruct (scanFields env (Elements form) _ c) as [c1 [scan|e|]];
    try reflexivity.
  destruct (applyFormSuggestions _ _ c1) as [c2 [[]|e|]]; try reflexivity.
  destruct (submitButton scan) as [button|]; [|reflexivity].
  unfold log, check. now destruct (el_click button).
Qed.

(** A click action, call by call. *)
Lemma click_action env action target c :
  Type__ action = ActionTypeLeftClick
  \/ Type__ action = ActionTypeLeftClickDown ->
  Element action = Some target ->
  executeCrawlStateAction env action c
  = (log (EvElementX (XPath target)) ;;
     do element <- lift (page_elementX env (XPath target));
     log (EvScrollIntoView (el_id element)) ;;
     check (el_scroll element) ;;
     do visible <- lift (el_visible element);
     if negb visible then fail ErrElementNotVisible
     else
       match el_interactable element with
       | Panic => panic
       | Fail err =>
           if errors_As err CoveredError then fail ErrElementNotVisible
           else fail err
       | Val false => fail ErrElementNotVisible
       | Val true =>
           log (EvClick (el_id element)) ;;
           check (el_click element) ;;
           log EvWaitPageLoad ;;
           check (wait_load env)
       end) c.
Proof.
  intros Htype Htarget. unfold executeCrawlStateAction.
  destruct Htype as [-> | ->]; now rewrite Htarget.
Qed.

End FormFacts.

(** Filling a form fails in one way only: the click on the submit control
    returns an error.  Fields that cannot be found are passed over and
    errors of the calls that fill in the suggestions are dropped, so
    processForm returns an error only after it has scanned all fields,
    applied all suggestions and clicked the submit control, a live element
    found for an INPUT or BUTTON field of type submit; the click is the
    last call made, its error the one returned. *)
Theorem form_fill_fails_on_submit_only
    (env : Crawler.Env) (form : option Crawler.HTMLForm)
    (c : Crawler.Crawler) (e : Crawler.error) :
  (Crawler.processForm env form c).2 = Crawler.Fail e ->
  exists fields button,
    form = Some {| Crawler.Elements := fields |}
    /\ Crawler.AutomaticFormFill (Crawler.options c) = true
    /\ FormSpec.submit_field env fields button
    /\ Crawler.el_click button = Some e
    /\ last (Crawler.events (Crawler.processForm env form c).1)
       = Some (Crawler.EvClick (Crawler.el_id button)).
Proof.
  destruct form as [[fields]|].
  2:{ unfold Crawler.processForm, Crawler.bind, Crawler.get.
      destruct (negb _); discriminate. }
  rewrite FormFacts.processForm_cases.
  destruct (Crawler.AutomaticFormFill (Crawler.options c)) eqn:Hauto;
    cbn [negb]; [|discriminate].
  cbn [Crawler.Elements].
  destruct (FormFacts.scanFields_submit_from env fields fields (fun f H => H)
              {| Crawler.formFields := []; Crawler.submitButton := None;
                 Crawler.elementMap := ∅ |} I c) as [Hscan Hsub].
  destruct (Crawler.scanFields env fields _ c) as [c1 [scan|e1|]];
    cbn [snd] in *;
    [|now destruct (Hscan e1 eq_refl)|discriminate].
  specialize (Hsub scan eq_refl).
  destruct (QuietFacts.applyFormSuggestions_avoids QuietSpec.any_error
              (Crawler.suggestions env (Crawler.formFields scan))
              (Crawler.elementMap scan) c1) as [Happly _].
  destruct (Crawler.applyFormSuggestions _ _ c1) as [c2 [[]|e2|]];
    cbn [snd] in *;
    [|now destruct (Happly e2 eq_refl)|discriminate].
  unfold FormSpec.submit_from in Hsub.
  destruct (Crawler.submitButton scan) as [button|]; [|discriminate].
  cbn [fst snd]. destruct (Crawler.el_click button) as [e'|] eqn:Hclick;
    [|discriminate].
  intros [= ->]. exists fields, button.
  repeat split; try assumption; try reflexivity.
  cbn [Crawler.events Crawler.emit]. apply last_snoc.
Qed.

(** A form of one submit button whose click fails. *)
Lemma form_fill_fails_on_submit_only_witness :
  let button :=
    {| Crawler.el_id := "//button"%string;
       Crawler.el_tagName := Crawler.Val "BUTTON"%string;
       Crawler.el_type := Some "submit"%string;
       Crawler.el_click := Some (Crawler.OtherError "detached");
       Crawler.el_input := fun _ => None;
       Crawler.el_select_text := fun _ => None;
       Crawler.el_select_css := fun _ => None;
       Crawler.el_options := Crawler.Val [];
       Crawler.el_scroll := None; Crawler.el_visible := Crawler.Val true;
       Crawler.el_interactable := Crawler.Val true |} in
  let field :=
    {| Crawler.TagName := "BUTTON"; Crawler.ID := ""; Crawler.Classes := "";
       Crawler.OuterHTML := ""; Crawler.XPath := "//button";
       Crawler.CSSSelector := "button"; Crawler.Attributes := ∅;
       Crawler.TextContent := "Send"; Crawler.Hidden := false;
       Crawler.Name := ""; Crawler.Type_ := "submit";
       Crawler.Value := "" |}%string in
  let env :=
    {| Crawler.timer_fired := false; Crawler.pool_get := None;
       Crawler.get_page_hash := Crawler.Val "blank"%string;
       Crawler.navigate_back := Crawler.Val "blank"%string;
       Crawler.log_action := None; Crawler.page_navigate := None;
       Crawler.wait_load := None;
       Crawler.page_elementX := fun _ => Crawler.Val button;
       Crawler.suggestions := fun _ => [];
       Crawler.placeholder := "placeholder"%string;
       Crawler.new_page_state := Crawler.Val CrawlSpec.landing;
       Crawler.log_page_state := None;
       Crawler.find_navigations := Crawler.Val [];
       Crawler.add_page_state := None |} in
  let r := Crawler.processForm env (Some {| Crawler.Elements := [field] |})
             (Crawler.New CrawlSpec.plain_options) in
  r.2 = Crawler.Fail (Crawler.OtherError "detached")
  /\ exists fields button',
       Some {| Crawler.Elements := [field] |}
       = Some {| Crawler.Elements := fields |}
       /\ Crawler.AutomaticFormFill
            (Crawler.options (Crawler.New CrawlSpec.plain_options)) = true
       /\ FormSpec.submit_field env fields button'
       /\ Crawler.el_click button' = Some (Crawler.OtherError "detached")
       /\ last (Crawler.events r.1)
          = Some (Crawler.EvClick (Crawler.el_id button')).
Proof.
  cbv zeta. split; [reflexivity|].
  match goal with
  | |- exists fields button', Some ?f = _ /\ _ /\ FormSpec.submit_field ?env _ _ /\ _ =>
      exact (form_fill_fails_on_submit_only env (Some f)
               (Crawler.New CrawlSpec.plain_options)
               (Crawler.OtherError "detached") eq_refl)
  end.
Defined.

(** A click action clicks its element only after the element was found,
    scrolled into view and reported visible and interactable; on an
    element that is hidden, covered (an error that wraps rod's
    CoveredError) or without a point to click at there is no click, the
    action fails with ErrElementNotVisible, and the loop counts one
    failure. *)
Theorem click_needs_a_visible_uncovered_element
    (env : Crawler.Env) (action : Crawler.Action) (target : Crawler.HTMLElement)
    (c : Crawler.Crawler) :
  Crawler.Type__ action = Crawler.ActionTypeLeftClick
  \/ Crawler.Type__ action = Crawler.ActionTypeLeftClickDown ->
  Crawler.Element action = Some target ->
  let r := Crawler.executeCrawlStateAction env action c in
  exists evs,
    Crawler.events r.1 = Crawler.events c ++ evs
    /\ (forall el, el ∈ FormSpec.clicks evs ->
          exists element,
            Crawler.page_elementX env (Crawler.XPath target)
            = Crawler.Val element
            /\ el = Crawler.el_id element /\ FormSpec.clickable element)
    /\ (forall element,
          Crawler.page_elementX env (Crawler.XPath target)
          = Crawler.Val element ->
          Crawler.el_scroll element = None ->
          FormSpec.blocked element ->
          FormSpec.clicks evs = []
          /\ r.2 = Crawler.Fail Crawler.ErrElementNotVisible
          /\ forall n, Crawler.classify r.2 n
                       = Crawler.Continue (Crawler.incr n)).
Proof.
  intros Htype Htarget. cbv zeta.
  rewrite (FormFacts.click_action env action target c Htype Htarget).
  unfold Crawler.bind, Crawler.log, Crawler.lift, Crawler.check,
    Crawler.fail, Crawler.ret, Crawler.panic.
  cbn [fst snd].
  destruct (Crawler.page_elementX env (Crawler.XPath target))
    as [element|e|] eqn:Hel;
    [|eexists [_]; (split; [reflexivity|]);
      (split; [intros el Hin; inversion Hin|intros ? [=]])..].
  destruct (Crawler.el_scroll element) as [e|] eqn:Hscroll;
    [eexists [_; _]; (split; [cbn; now rewrite <- app_assoc|]);
     (split; [intros el Hin; inversion Hin|]);
     intros ? [= <-] Hs; rewrite Hscroll in Hs; discriminate|].
  assert (Hfail : forall n,
            Crawler.classify (Crawler.Fail Crawler.ErrElementNotVisible) n
            = Crawler.Continue (Crawler.incr n)) by reflexivity.
  assert (Hno : forall P : Prop,
            FormSpec.blocked element ->
            (Crawler.el_visible element = Crawler.Val false -> P) ->
            (Crawler.el_visible element = Crawler.Val true ->
             Crawler.el_interactable element = Crawler.Val false -> P) ->
            (forall err, Crawler.el_visible element = Crawler.Val true ->
                         Crawler.el_interactable element = Crawler.Fail err ->
                         Crawler.errors_As err Crawler.CoveredError = true -> P) ->
            P).
  { intros P [Hb|[Hv [Hb|(err & Hb & Hc)]]] H1 H2 H3; eauto. }
  destruct (Crawler.el_visible element) as [[|]|e|] eqn:Hvis; cbn [negb].
  2-4: eexists [_; _]; (split; [cbn; now rewrite <- app_assoc|]);
       (split; [intros el Hin; inversion Hin|]);
       intros ? [= <-] _ Hb;
       first [solve [repeat split; try reflexivity; exact Hfail]
             | exfalso; apply (Hno False Hb); intros; congruence].
  destruct (Crawler.el_interactable element) as [[|]|err|] eqn:Hint.
  - exists ([Crawler.EvElementX (Crawler.XPath target);
             Crawler.EvScrollIntoView (Crawler.el_id element);
             Crawler.EvClick (Crawler.el_id element)]
            ++ match Crawler.el_click element with
               | Some _ => []
               | None => [Crawler.EvWaitPageLoad]
               end).
    split; [destruct (Crawler.el_click element), (Crawler.wait_load env);
            cbn; now rewrite <- ?app_assoc|].
    split.
    + intros el Hin. exists element. split; [reflexivity|].
      split; [|repeat split; assumption].
      destruct (Crawler.el_click element); cbn in Hin;
        apply list_elem_of_singleton in Hin; exact Hin.
    + intros ? [= <-] _ Hb. exfalso. apply (Hno False Hb); intros; congruence.
  - eexists [_; _]; (split; [cbn; now rewrite <- app_assoc|]).
    split; [intros el Hin; inversion Hin|].
    intros ? [= <-] _ _. repeat split; try reflexivity; exact Hfail.
  - exists [Crawler.EvElementX (Crawler.XPath target);
            Crawler.EvScrollIntoView (Crawler.el_id element)].
    split; [destruct (Crawler.errors_As err Crawler.CoveredError);
            cbn; now rewrite <- app_assoc|].
    split; [intros el Hin; inversion Hin|].
    intros ? [= <-] _ Hb. apply (Hno _ Hb); try (intros; congruence).
    intros err' _ [= <-] Hcov. rewrite Hcov.
    repeat split; try reflexivity; exact Hfail.
  - eexists [_; _]; (split; [cbn; now rewrite <- app_assoc|]).
    split; [intros el Hin; inversion Hin|].
    intros ? [= <-] _ Hb. exfalso. apply (Hno False Hb); intros; congruence.
Qed.

(** A click on an element that an overlay covers. *)
Lemma click_needs_a_visible_uncovered_element_witness :
  let covered :=
    {| Crawler.el_id := "//a"%string;
       Crawler.el_tagName := Crawler.Val "A"%string;
       Crawler.el_type := None; Crawler.el_click := None;
       Crawler.el_input := fun _ => None;
       Crawler.el_select_text := fun _ => None;
       Crawler.el_select_css := fun _ => None;
       Crawler.el_options := Crawler.Val [];
       Crawler.el_scroll := None; Crawler.el_visible := Crawler.Val true;
       Crawler.el_interactable :=
         Crawler.Fail (Crawler.Wrap "element covered" Crawler.CoveredError) |} in
  let target :=
    {| Crawler.TagName := "A"; Crawler.ID := ""; Crawler.Classes := "";
       Crawler.OuterHTML := ""; Crawler.XPath := "//a";
       Crawler.CSSSelector := "a"; Crawler.Attributes := ∅;
       Crawler.TextContent := "More"; Crawler.Hidden := false;
       Crawler.Name := ""; Crawler.Type_ := ""; Crawler.Value := "" |}%string in
  let env :=
    {| Crawler.timer_fired := false; Crawler.pool_get := None;
       Crawler.get_page_hash := Crawler.Val "blank"%string;
       Crawler.navigate_back := Crawler.Val "blank"%string;
       Crawler.log_action := None; Crawler.page_navigate := None;
       Crawler.wait_load := None;
       Crawler.page_elementX := fun _ => Crawler.Val covered;
       Crawler.suggestions := fun _ => [];
       Crawler.placeholder := "placeholder"%string;
       Crawler.new_page_state := Crawler.Val CrawlSpec.landing;
       Crawler.log_page_state := None;
       Crawler.find_navigations := Crawler.Val [];
       Crawler.add_page_state := None |} in
  let action :=
    {| Crawler.Type__ := Crawler.ActionTypeLeftClick; Crawler.Input := "";
       Crawler.Element := Some target; Crawler.Form := None;
       Crawler.Depth := 1; Crawler.OriginID := "state-1" |}%string in
  let r := Crawler.executeCrawlStateAction env action
             (Crawler.New CrawlSpec.plain_options) in
  r = (CrawlSpec.add_events (Crawler.New CrawlSpec.plain_options)
         [Crawler.EvElementX "//a"; Crawler.EvScrollIntoView "//a"],
       Crawler.Fail Crawler.ErrElementNotVisible)
  /\ FormSpec.blocked covered
  /\ exists evs,
       Crawler.events r.1
       = Crawler.events (Crawler.New CrawlSpec.plain_options) ++ evs
       /\ (forall el, el ∈ FormSpec.clicks evs ->
             exists element,
               Crawler.page_elementX env (Crawler.XPath target)
               = Crawler.Val element
               /\ el = Crawler.el_id element /\ FormSpec.clickable element)
       /\ (forall element,
             Crawler.page_elementX env (Crawler.XPath target)
             = Crawler.Val element ->
             Crawler.el_scroll element = None ->
             FormSpec.blocked element ->
             FormSpec.clicks evs = []
             /\ r.2 = Crawler.Fail Crawler.ErrElementNotVisible
             /\ forall n, Crawler.classify r.2 n
                          = Crawler.Continue (Crawler.incr n)).
Proof.
  cbv zeta. split; [reflexivity|]. split.
  { right. split; [reflexivity|]. right. eexists. split; reflexivity. }
  match goal with
  | |- exists evs, Crawler.events (Crawler.executeCrawlStateAction ?env ?action ?c).1 = _ /\ _ =>
      exact (click_needs_a_visible_uncovered_element env action _ c
               (or_introl eq_refl) eq_refl)
  end.
Defined.

Module LogoutFacts.

Import Crawler NormalizerSpec RegexpSpec LogoutSpec.

Lemma advance_app prev (a b : bytes) :
  advance prev (a ++ b) = advance (advance prev a) b.
Proof. unfold advance. apply fold_left_app. Qed.

Lemma accepts_eps : accepts Eps [].
Proof. intros prev post k Hk. exact Hk. Qed.

Lemma accepts_cat a b wa wb :
  accepts a wa -> accepts b wb -> accepts (Cat a b) (wa ++ wb).
Proof.
  intros Ha Hb prev post k Hk. cbn [run]. rewrite <- app_assoc.
  apply Ha. apply Hb. now rewrite <- advance_app.
Qed.

Lemma accepts_alt_l a b w : accepts a w -> accepts (Alt a b) w.
Proof.
  intros Ha prev post k Hk. cbn [run].
  destruct (Ha prev post k Hk) as [rest ->]. eauto.
Qed.

Lemma accepts_alt_r a b w : accepts b w -> accepts (Alt a b) w.
Proof.
  intros Hb prev post k Hk. cbn [run].
  destruct (run a prev (w ++ post) k); [eauto|]. now apply Hb.
Qed.

Lemma accepts_alt rs r w : In r rs -> accepts r w -> accepts (alt rs) w.
Proof.
  intros Hin Hr. induction rs as [|r0 rs IH]; [contradiction|].
  destruct rs as [|r1 rs].
  - destruct Hin as [->|[]]. exact Hr.
  - change (alt (r0 :: r1 :: rs)) with (Alt r0 (alt (r1 :: rs))).
    destruct Hin as [->|Hin]; [now apply accepts_alt_l|].
    apply accepts_alt_r. now apply IH.
Qed.

Lemma accepts_seq rs ws :
  Forall2 accepts rs ws -> accepts (seq rs) (concat ws).
Proof.
  induction 1 as [|r w rs ws Hr Hrs IH]; [exact accepts_eps|].
  destruct rs as [|r1 rs].
  - inversion Hrs; subst. cbn [seq concat]. rewrite app_nil_r. exact Hr.
  - change (seq (r :: r1 :: rs)) with (Cat r (seq (r1 :: rs))).
    cbn [concat]. now apply accepts_cat.
Qed.

(** A letter of a [(?i)] literal takes both of its cases. *)
Lemma accepts_ichar c x : GoLib.lower_byte x = c -> accepts (ichar c) [x].
Proof.
  intros Hx prev post k [rest Hk]. cbn [app advance fold_left] in *.
  unfold advance in Hk. cbn [fold_left] in Hk.
  unfold ichar. destruct (Ascii.eqb c "s").
  - cbn [alt run]. rewrite Hx, Ascii.eqb_refl, Hk. eauto.
  - cbn [run]. rewrite Hx, Ascii.eqb_refl, Hk. eauto.
Qed.

Lemma accepts_ilit (s : string) (w : bytes) :
  map GoLib.lower_byte w = B s -> accepts (ilit s) w.
Proof.
  intros Hw. unfold ilit. rewrite <- Hw.
  replace w with (concat (map (fun x => [x]) w)) at 2.
  - apply accepts_seq. clear Hw. induction w as [|x w IH]; constructor;
      [now apply accepts_ichar|exact IH].
  - clear Hw. induction w as [|x w IH]; [reflexivity|].
    cbn [map concat app]. now rewrite IH.
Qed.

Lemma accepts_sep_none : accepts sep [].
Proof.
  intros prev post k [rest Hk]. unfold advance in Hk. cbn [fold_left] in Hk.
  unfold sep, opt. cbn [app run].
  destruct (length post); cbn [rep Nat.eqb]; rewrite Hk; [eauto|].
  match goal with |- context [match ?m with Some _ => _ | None => _ end] =>
    destruct m end; eauto.
Qed.

Lemma accepts_sep_one c :
  is_space c || Ascii.eqb c "-" = true -> accepts sep [c].
Proof.
  intros Hc prev post k [rest Hk]. unfold advance in Hk. cbn [fold_left] in Hk.
  unfold sep, opt. cbn [app run length rep Nat.eqb]. rewrite Hc.
  assert (Hlt : Nat.ltb (length post) (S (length post)) = true)
    by (apply Nat.ltb_lt; lia).
  rewrite Hlt. cbn [fmap option_fmap option_map Nat.pred].
  destruct (length post); cbn [rep Nat.eqb]; rewrite Hk; eauto.
Qed.

Lemma separator_case c x :
  In c separators -> GoLib.lower_byte x = c ->
  is_space x || Ascii.eqb x "-" = true.
Proof.
  intros Hc Hx. unfold GoLib.lower_byte in Hx.
  destruct (is_upper x) eqn:Hu.
  - exfalso. unfold is_upper, between, code in Hu.
    apply andb_true_iff in Hu as [H1 H2].
    apply N.leb_le in H1, H2. subst c.
    unfold GoLib.zbyte, GoLib.zcode, code in Hc.
    set (n := N_of_ascii x) in *.
    assert (Hn : Z.to_N ((Z.of_N n + 32) mod 256) = (n + 32)%N).
    { rewrite Z.mod_small by lia. lia. }
    rewrite Hn in Hc.
    assert (Hcode : forall a, In a separators -> (N_of_ascii a < 97)%N).
    { intros a Ha. repeat destruct Ha as [<-|Ha]; try contradiction;
        vm_compute; reflexivity. }
    specialize (Hcode _ Hc). rewrite N_ascii_embedding in Hcode; lia.
  - subst x. repeat destruct Hc as [<-|Hc]; try contradiction; reflexivity.
Qed.

Lemma logoutPattern_alternatives :
  logoutPattern
  = alt [seq [ilit "log"; sep; ilit "out"];
         seq [ilit "sign"; sep; ilit "out"];
         ilit "signout"; ilit "deconnexion";
         seq [ilit "cerrar"; sep; ilit "sesion"];
         ilit "sair"; ilit "abmelden"; ilit "uitloggen"; ilit "ausloggen";
         ilit "exit"; ilit "disconnect"; ilit "terminate";
         seq [ilit "end"; sep; ilit "session"];
         ilit "salir"; ilit "desconectar"; ilit "afmelden"; ilit "wyloguj";
         ilit "logout";
         seq [ilit "sign"; sep; ilit "off"]].
Proof. reflexivity. Qed.

Ltac pick_alternative r :=
  rewrite logoutPattern_alternatives;
  apply (accepts_alt _ r);
  [ repeat first [left; reflexivity | right] | ].

Lemma words_accepted (s : string) (w : bytes) :
  In s logoutWords -> map GoLib.lower_byte w = B s -> accepts logoutPattern w.
Proof.
  intros Hin Hw.
  repeat destruct Hin as [<-|Hin]; try contradiction;
    match type of Hw with
    | _ = B ?s => pick_alternative (ilit s); now apply accepts_ilit
    end.
Qed.

Lemma pair_accepted (a b : string) (wa ws wb : bytes) :
  In (a, b) logoutPairs ->
  map GoLib.lower_byte wa = B a -> map GoLib.lower_byte wb = B b ->
  accepts sep ws ->
  accepts logoutPattern (wa ++ ws ++ wb).
Proof.
  intros Hin Ha Hb Hs.
  assert (H : accepts (seq [ilit a; sep; ilit b]) (concat [wa; ws; wb])).
  { apply accepts_seq. repeat constructor; try assumption;
      now apply accepts_ilit. }
  cbn [concat] in H. rewrite app_nil_r in H.
  repeat destruct Hin as [[= <- <-]|Hin]; try contradiction;
    match type of H with
    | accepts ?r _ => pick_alternative r; exact H
    end.
Qed.

Lemma existsb_In {A} (f : A -> bool) (l : list A) :
  existsb f l = true -> exists a, In a l /\ f a = true.
Proof. apply existsb_exists. Qed.

(** Every phrase is matched in any mix of upper and lower case. *)
Lemma phrase_accepted (w : bytes) :
  is_logout_phrase (map GoLib.lower_byte w) = true -> accepts logoutPattern w.
Proof.
  unfold is_logout_phrase. intros H. apply orb_true_iff in H as [H|H].
  - apply existsb_In in H as (s & Hin & Hs).
    apply HexEscapeFacts.bytes_eqb_eq in Hs. now apply (words_accepted s).
  - apply existsb_In in H as ([a b] & Hin & H). cbn [fst snd] in H.
    apply orb_true_iff in H as [H|H].
    + apply HexEscapeFacts.bytes_eqb_eq in H.
      apply map_eq_app in H as (wa & wb & -> & Ha & Hb).
      apply (pair_accepted a b wa [] wb Hin Ha Hb accepts_sep_none).
    + apply existsb_In in H as (c & Hc & H).
      apply HexEscapeFacts.bytes_eqb_eq in H.
      apply map_eq_app in H as (wa & wb' & -> & Ha & Hb).
      apply map_eq_cons in Hb as (x & wb & -> & Hx & Hb).
      change (wa ++ x :: wb) with (wa ++ [x] ++ wb).
      apply (pair_accepted a b wa [x] wb Hin Ha Hb).
      apply accepts_sep_one. now apply (separator_case c).
Qed.

(** A match that starts further on is found. *)
Lemma match_from_later (r : regex) (pre s : bytes) :
  forall prev,
    (exists n, match_here r (advance prev pre) s = Some n) ->
    match_from r prev (pre ++ s) = true.
Proof.
  induction pre as [|c pre IH]; intros prev [n Hn].
  - cbn [app]. unfold advance in Hn. cbn [fold_left] in Hn.
    destruct s; cbn [match_from]; now rewrite Hn.
  - cbn [app match_from].
    destruct (match_here r prev (c :: pre ++ s)); [reflexivity|].
    apply IH. exists n. exact Hn.
Qed.

Lemma accepted_found (r : regex) (pre w post : bytes) :
  accepts r w -> MatchString r (pre ++ w ++ post) = true.
Proof.
  intros Hr. unfold MatchString. apply match_from_later.
  unfold match_here.
  destruct (Hr (advance None pre) post (fun _ rest => Some rest)) as [rest ->];
    eauto.
Qed.

End LogoutFacts.

(** The logout test is a search for a phrase anywhere in the text, in any
    mix of upper and lower case and without regard to word boundaries: an
    element whose text content or whose href contains one of the fourteen
    words, or one of the five pairs (log out, sign out, cerrar sesion,
    end session, sign off) written together or with one white-space byte
    or hyphen between, is a logout page for isLogoutPage. *)
Theorem logout_phrase_is_found_anywhere
    (element : Crawler.HTMLElement) (pre w post : bytes) :
  LogoutSpec.is_logout_phrase (map GoLib.lower_byte w) = true ->
  B (Crawler.TextContent element) = pre ++ w ++ post
  \/ B (default ""%string (Crawler.Attributes element !! "href"%string))
     = pre ++ w ++ post ->
  Crawler.isLogoutPage element = true.
Proof.
  intros Hw Htext. unfold Crawler.isLogoutPage.
  pose proof (LogoutFacts.accepted_found Crawler.logoutPattern pre w post
                (LogoutFacts.phrase_accepted w Hw)) as Hm.
  destruct Htext as [-> | ->]; rewrite Hm; [reflexivity|apply orb_true_r].
Qed.

(** A link to a recipe page: its text holds the word exit. *)
Lemma logout_phrase_is_found_anywhere_witness :
  Crawler.isLogoutPage
    {| Crawler.TagName := "A"; Crawler.ID := ""; Crawler.Classes := "";
       Crawler.OuterHTML := ""; Crawler.XPath := "//a";
       Crawler.CSSSelector := "a";
       Crawler.Attributes := {[ "href"%string := "/recipes"%string ]};
       Crawler.TextContent := "FlExitarian recipes"; Crawler.Hidden := false;
       Crawler.Name := ""; Crawler.Type_ := ""; Crawler.Value := "" |}%string
  = true.
Proof.
  apply (logout_phrase_is_found_anywhere _ (B "Fl") (B "Exit") (B "arian recipes"));
    [reflexivity|left; reflexivity].
Defined.

Module HeadlessFacts.

Import Headless HeadlessSpec.

(** The loop of performAdditionalAnalysis: the requests it collects have
    URLs that were not remembered before, are now, and differ from each
    other. *)
Lemma analyse_loop env (resps : list Request) :
  forall h navs,
    NoDup (result_urls navs) ->
    (forall u, u ∈ result_urls navs -> u ∈ deduplicator h) ->
    let r := fold_left (analyse env) resps (h, navs) in
    trace r.1 = trace h
    /\ deduplicator h ⊆ deduplicator r.1
    /\ NoDup (result_urls r.2)
    /\ (forall u, u ∈ result_urls r.2 -> u ∈ deduplicator r.1)
    /\ exists new, r.2 = navs ++ new
                   /\ (forall u, u ∈ result_urls new -> u ∉ deduplicator h)
                   /\ Forall (fun n => Response_ n = None /\ Request_ n <> None) new.
Proof.
  induction resps as [|resp resps IH]; intros h navs Hnd Hin; cbn [fold_left].
  - cbv zeta. cbn [fst snd]. repeat split; try assumption; try reflexivity.
    exists []. rewrite app_nil_r. repeat split; [|constructor].
    intros u Hu. inversion Hu.
  - cbv zeta.
    set (nav := {| Request_ := Some resp; Response_ := None |}).
    assert (Ha : analyse env (h, navs) resp
                 = if decide (URL resp ∈ deduplicator h) then (h, navs)
                   else match dedup_set env (URL resp) with
                        | Some _ => (h, navs)
                        | None => (remember (URL resp) h, navs ++ [nav])
                        end) by reflexivity.
    rewrite Ha. clear Ha.
    destruct (decide (URL resp ∈ deduplicator h)) as [Hseen|Hnew];
      [now apply IH|].
    destruct (dedup_set env (URL resp)); [now apply IH|].
    assert (Hurls : result_urls (navs ++ [nav]) = result_urls navs ++ [URL resp]).
    { unfold result_urls. now rewrite omap_app. }
    destruct (IH (remember (URL resp) h) (navs ++ [nav])) as
      (Ht & Hd & Hnd' & Hin' & new & Hnew' & Hfresh & Hshape).
    + rewrite Hurls. apply NoDup_app. split; [exact Hnd|]. split.
      * intros u Hu Hu'. apply list_elem_of_singleton in Hu'. subst u.
        apply Hnew. now apply Hin.
      * apply NoDup_singleton.
    + rewrite Hurls. intros u Hu. cbn [deduplicator remember].
      apply elem_of_app in Hu as [Hu|Hu].
      * apply elem_of_union. right. now apply Hin.
      * apply list_elem_of_singleton in Hu. subst u.
        apply elem_of_union. left. now apply elem_of_singleton.
    + cbv zeta in *. split; [exact Ht|]. split.
      { etransitivity; [|exact Hd]. cbn [deduplicator remember].
        apply union_subseteq_r. }
      split; [exact Hnd'|]. split; [exact Hin'|].
      exists (nav :: new). split; [now rewrite Hnew', <- app_assoc|]. split.
      * intros u Hu. unfold result_urls in Hu. cbn [omap list_omap] in Hu.
        cbn in Hu. apply elem_of_cons in Hu as [->|Hu]; [exact Hnew|].
        intros Hu'. apply (Hfresh u Hu). cbn [deduplicator remember].
        apply elem_of_union. now right.
      * constructor; [split; [reflexivity|discriminate]|exact Hshape].
Qed.

Lemma write_navigations (navs : list Result) :
  forall h,
    trace (fold_left (fun h req => emit (EvWriteNavigation req) h) navs h)
    = trace h ++ map EvWriteNavigation navs
    /\ deduplicator (fold_left (fun h req => emit (EvWriteNavigation req) h) navs h)
       = deduplicator h.
Proof.
  induction navs as [|nav navs IH]; intros h; cbn [fold_left map].
  - now rewrite app_nil_r.
  - destruct (IH (emit (EvWriteNavigation nav) h)) as [-> ->].
    cbn [trace emit deduplicator]. now rewrite <- app_assoc.
Qed.

Lemma navigation_urls_written (navs : list Result) :
  navigation_urls (map EvWriteNavigation navs) = result_urls navs.
Proof.
  unfold navigation_urls, result_urls.
  induction navs as [|nav navs IH]; [reflexivity|].
  cbn [map omap list_omap]. now rewrite IH.
Qed.

(** One call of the callback keeps the output deduplicated. *)
Lemma RequestCallback_deduplicated scopeValidator env rr h :
  deduplicated scopeValidator h ->
  deduplicated scopeValidator (RequestCallback scopeValidator env rr h).
Proof.
  intros Hh. unfold RequestCallback.
  destruct rr as [rr|]; [|exact Hh].
  destruct (Request_ rr) as [request|] eqn:Hreq; [|exact Hh].
  destruct (match scopeValidator with
            | Some valid => negb (valid (URL request))
            | None => false
            end) eqn:Hscope; [exact Hh|].
  unfold performAdditionalAnalysis.
  destruct Hh as (Hnd & Hin & Hok).
  destruct (analyse_loop env (parse_response env)
              (emit (EvParseResponse (Response_ rr)) h) [])
    as (Ht & Hd & Hnd' & Hin' & new & Hnew & Hfresh & Hshape);
    [constructor|intros u Hu; inversion Hu|].
  cbv zeta in *.
  destruct (fold_left (analyse env) (parse_response env) _) as [h1 navs].
  cbn [fst snd] in *. cbn [app] in Hnew. subst new.
  destruct (write_navigations navs h1) as [Hw Hwd].
  set (h2 := fold_left _ navs h1) in *.
  cbn [trace emit deduplicator] in Ht.
  unfold deduplicated. cbn [trace emit deduplicator].
  rewrite Hw, Ht, Hwd. unfold navigation_urls in *.
  rewrite !omap_app. cbn [omap list_omap mbind option_bind].
  rewrite !app_nil_r. fold (navigation_urls (map EvWriteNavigation navs)).
  rewrite navigation_urls_written.
  split; [|split].
  - apply NoDup_app. split; [exact Hnd|]. split; [|exact Hnd'].
    intros u Hu Hu'. apply (Hfresh u Hu'). cbn [deduplicator emit].
    now apply Hin.
  - intros u Hu. apply elem_of_app in Hu as [Hu|Hu]; [|now apply Hin'].
    apply Hd. cbn [deduplicator emit]. now apply Hin.
  - repeat (apply Forall_app; split); try exact Hok.
    + repeat constructor.
    + apply Forall_map. exact Hshape.
    + constructor; [|constructor]. cbn [written_ok Request_ Response_]. split.
      * exists request. split; [reflexivity|].
        destruct scopeValidator as [valid|]; [|exact I].
        now apply negb_false_iff.
      * destruct (Response_ rr); cbn; auto.
Qed.

Lemma callbacks_deduplicated scopeValidator calls :
  forall h, deduplicated scopeValidator h ->
            deduplicated scopeValidator (callbacks scopeValidator calls h).
Proof.
  unfold callbacks.
  induction calls as [|[env rr] calls IH]; intros h Hh; cbn [fold_left];
    [exact Hh|].
  apply IH. now apply RequestCallback_deduplicated.
Qed.

End HeadlessFacts.

(** Over any sequence of calls of the request callback of one engine the
    navigation results handed to the output writer are requests with
    pairwise different URLs, each of them remembered in the deduplicator;
    every result written for a response has a request that the scope
    validator accepts, and its raw text and body are empty, cleared after
    the response parser has seen the response. *)
Theorem navigation_results_are_written_once
    (scopeValidator : option (string -> bool))
    (calls : list (Headless.Env * option Headless.Result)) :
  let h := HeadlessSpec.callbacks scopeValidator calls Headless.New in
  NoDup (HeadlessSpec.navigation_urls (Headless.trace h))
  /\ (forall u, u ∈ HeadlessSpec.navigation_urls (Headless.trace h) ->
                u ∈ Headless.deduplicator h)
  /\ Forall (HeadlessSpec.written_ok scopeValidator) (Headless.trace h).
Proof.
  apply HeadlessFacts.callbacks_deduplicated.
  split; [constructor|]. split; [intros u Hu; inversion Hu|constructor].
Qed.

(** In the headless engine the crawler always runs with the validator of
    validateScopeFunc, so every page state in its graph, the blank state at
    the root apart, has a URL that the validator accepts: when the seed
    URL parses and a scope manager is set, a URL that parses and that the
    manager validated for the seed's host name without an error. *)
Theorem headless_graph_holds_validated_states
    (ParsedURL : Type) (url_Parse : string -> option ParsedURL)
    (Hostname : ParsedURL -> string)
    (manager : option (Headless.ScopeManager ParsedURL))
    (Hash : Crawler.Action -> string) (emptyPageHash : string)
    (o : Headless.EngineOptions)
    (envs : list Crawler.Env) (URL : string) :
  exists c rest,
    (Headless.Crawl url_Parse Hostname manager Hash emptyPageHash o
       None None envs URL).1 = Some c
    /\ Crawler.crawlGraph c = Crawler.blankState emptyPageHash :: rest
    /\ Forall (fun p =>
                 Headless.validateScopeFunc ParsedURL url_Parse Hostname
                   manager URL (Crawler.ps_URL p) = true) rest
    /\ forall root validate,
         url_Parse URL = Some root -> manager = Some validate ->
         Forall (fun p => exists parsed,
                   url_Parse (Crawler.ps_URL p) = Some parsed
                   /\ validate parsed (Hostname root) = (true, None)) rest.
Proof.
  unfold Headless.Crawl, Crawler.Crawl. rewrite TraceFacts.Crawl_start.
  set (opts := Headless.crawlOpts o _).
  match goal with |- context [Crawler.Crawl_loop Hash envs ?c0 ?n0] =>
    assert (H0 : CrawlTraces.rooted emptyPageHash opts c0)
      by (split; [reflexivity|exists []; split; [reflexivity|constructor]]);
    pose proof (TraceFacts.Crawl_loop_keeps Hash
                  (CrawlTraces.rooted emptyPageHash opts)
                  (FilterFacts.crawl_iter_rooted Hash emptyPageHash opts)
                  envs c0 n0 H0) as [_ (rest & Hg & Hrest)];
    destruct (Crawler.Crawl_loop Hash envs c0 n0) as [c r]
  end.
  cbn [fst] in *. exists c, rest. split; [reflexivity|]. split; [exact Hg|].
  split; [exact Hrest|].
  intros root validate Hroot Hm. eapply Forall_impl; [exact Hrest|].
  intros p Hp. unfold CrawlTraces.in_scope in Hp.
  cbn [opts Headless.crawlOpts Crawler.ScopeValidator] in Hp.
  unfold Headless.validateScopeFunc in Hp. rewrite Hroot, Hm in Hp.
  destruct (url_Parse (Crawler.ps_URL p)) as [parsed|]; [|discriminate].
  exists parsed. split; [reflexivity|].
  destruct (validate parsed (Hostname root)) as [v [e|]]; [discriminate|].
  now subst v.
Qed.

Module HybridFacts.

Import Hybrid HybridSpec.

Lemma Do_item_admitted o env item :
  Forall (admitted o) (Do_item o env item).1
  /\ sublist (outputs (Do_item o env item).1) (requests (Do_item o env item).1)
  /\ forall err, (Do_item o env item).2 = Some err -> ctx_err env = Some err.
Proof.
  unfold Do_item.
  destruct (ctx_err env) as [ctxErr|];
    [repeat split; [constructor|constructor|now intros err [= ->]]|].
  destruct item as [req|]; [|repeat split; [constructor|constructor|discriminate]].
  destruct (IsURL o (URL req)) eqn:Hurl; cbn [negb].
  2:{ destruct (OnSkipURL o); repeat split; try discriminate;
        repeat constructor. exact Hurl. }
  destruct (ValidatePath o (URL req)) eqn:Hpath; cbn [negb];
    [|repeat split; [constructor|constructor|discriminate]].
  destruct (ValidateScope o (URL req)) as [inScope [scopeErr|]] eqn:Hscope;
    [repeat split; [constructor|constructor|discriminate]|].
  destruct (negb (SkipValidation req) && negb inScope) eqn:Hskip;
    [repeat split; [constructor|constructor|discriminate]|].
  assert (Hreq : admitted o (EvDoRequest req)).
  { cbn. repeat split; try assumption. exists inScope. split; [exact Hscope|].
    destruct (SkipValidation req), inScope; try discriminate Hskip; auto. }
  assert (Hout : forall resp err, inScope = true ->
                                  admitted o (EvOutput req resp err)).
  { intros resp err ->. exact Hscope. }
  destruct (do_request env) as [resp err].
  assert (Hbefore :
    Forall (admitted o)
      ([EvRateLimitTake]
       ++ (if (0 <? Delay o)%Z then [EvSleep (Delay o)] else [])
       ++ [EvDoRequest req]
       ++ (if inScope then [EvOutput req resp err] else []))
    /\ sublist
         (outputs ([EvRateLimitTake]
                   ++ (if (0 <? Delay o)%Z then [EvSleep (Delay o)] else [])
                   ++ [EvDoRequest req]
                   ++ (if inScope then [EvOutput req resp err] else [])))
         (requests ([EvRateLimitTake]
                    ++ (if (0 <? Delay o)%Z then [EvSleep (Delay o)] else [])
                    ++ [EvDoRequest req]
                    ++ (if inScope then [EvOutput req resp err] else [])))).
  { destruct (0 <? Delay o)%Z, inScope eqn:Hin;
      (split;
       [cbn [app];
        repeat (constructor; [first [exact I | exact Hreq | now apply Hout]|]);
        constructor
       |cbn; first [reflexivity | apply sublist_nil_l]]). }
  destruct Hbefore as [Hadm Hsub].
  set (before := _ ++ _) in *.
  assert (Hmore : forall e, admitted o e -> outputs [e] = [] ->
                            requests [e] = [] ->
            Forall (admitted o) (before ++ [e])
            /\ sublist (outputs (before ++ [e])) (requests (before ++ [e]))).
  { intros e He Ho Hr. split; [apply Forall_app; split; [exact Hadm|now constructor]|].
    unfold outputs, requests in *. rewrite !omap_app, Ho, Hr, !app_nil_r.
    exact Hsub. }
  destruct err as [err|].
  { destruct (Hmore (EvWriteErr req err) I eq_refl eq_refl).
    repeat split; [assumption|assumption|discriminate]. }
  destruct resp as [resp|]; [|repeat split; [assumption|assumption|discriminate]].
  destruct (negb (has_Resp resp) || negb (has_Reader resp));
    [repeat split; [assumption|assumption|discriminate]|].
  destruct (DisableRedirects o && IsRedirect resp);
    [repeat split; [assumption|assumption|discriminate]|].
  destruct (Hmore (EvEnqueue (parse_response env)) I eq_refl eq_refl).
  repeat split; [assumption|assumption|discriminate].
Qed.

Lemma Do_admitted o items :
  Forall (admitted o) (Do o items).1
  /\ sublist (outputs (Do o items).1) (requests (Do o items).1)
  /\ forall err, (Do o items).2 = Some err ->
                 exists env item, (env, item) ∈ items /\ ctx_err env = Some err.
Proof.
  induction items as [|[env item] rest (IHa & IHs & IHe)]; cbn [Do].
  - repeat split; [constructor|constructor|discriminate].
  - destruct (Do_item_admitted o env item) as (Ha & Hs & He).
    destruct (Do_item o env item) as [evs [err|]]; cbn [fst snd] in *.
    + repeat split; [exact Ha|exact Hs|].
      intros err' [= <-]. exists env, item. split; [now left|now apply He].
    + destruct (Do o rest) as [evs' r]. cbn [fst snd] in *.
      repeat split.
      * apply Forall_app. now split.
      * unfold outputs, requests in *. rewrite !omap_app.
        now apply sublist_app.
      * intros err Herr. destruct (IHe err Herr) as (env' & item' & Hin & Hctx).
        exists env', item'. split; [now right|exact Hctx].
Qed.

End HybridFacts.

(** The loop of the hybrid crawler lets a request through to the browser
    only if its URL is a URL on an admitted path and the scope check for it
    ran without error and either accepted it or is waived for the request;
    it reports a request to the output only if the check accepted it, so
    that a request out of scope with validation waived is sent, and its
    response parsed and enqueued, without ever being reported.  Do returns
    an error only when the session's context has one. *)
Theorem hybrid_requests_pass_the_filters
    (o : Hybrid.Options) (items : list (Hybrid.Env * Hybrid.Item)) :
  let r := Hybrid.Do o items in
  Forall (HybridSpec.admitted o) r.1
  /\ sublist (HybridSpec.outputs r.1) (HybridSpec.requests r.1)
  /\ forall err, r.2 = Some err ->
                 exists env item,
                   (env, item) ∈ items /\ Hybrid.ctx_err env = Some err.
Proof. apply HybridFacts.Do_admitted. Qed.
